(** * Reply tree and vote ledger of the Chatroom backend

    A shallow embedding of [backend/app/models/models.py],
    [backend/app/crud/vote.py], [backend/app/crud/reply.py] and the
    request handlers of [backend/app/routers/votes.py] and
    [backend/app/routers/replies.py].

    The relational store is a record of tables; a table is the list of
    its rows in storage order.  A query [db.query(T).filter(P)] is the
    stdpp [filter] of the table, [.first()] is [head], [.all()] is the
    list itself.  Python integers are [Z], [Optional[int]] is
    [option Z], exceptions are the [Raise] branch of [result]. *)

From stdpp Require Import base decidable option list sorting gmap strings pretty.
From Stdlib Require Import ZArith Lia.

Local Open Scope Z_scope.

(** ** models.py: enumerations and rows *)

Inductive VoteType := upvote | downvote.

#[global] Instance VoteType_eq_dec : EqDecision VoteType.
Proof. solve_decision. Defined.

(** [VoteType.<member>.value] *)
Definition VoteType_value (t : VoteType) : string :=
  match t with
  | upvote => "upvote"
  | downvote => "downvote"
  end.

(** [VoteType(value)]: lookup of a member by value; [None] stands for the
    [ValueError] Python raises on an unknown value. *)
Definition VoteType_of_value (s : string) : option VoteType :=
  if bool_decide (s = "upvote") then Some upvote
  else if bool_decide (s = "downvote") then Some downvote
  else None.

(** The two kinds of Python value that meet in the comparisons on
    [vote_type]: a member of the plain [enum.Enum] class [VoteType] and a
    [str].  [VoteType] does not derive from [str], so [==] between a member
    and a string falls back to identity and is [False]. *)
Inductive pyval :=
  | PyEnum (t : VoteType)
  | PyStr (s : string).

Definition py_eq (a b : pyval) : bool :=
  match a, b with
  | PyEnum x, PyEnum y => bool_decide (x = y)
  | PyStr x, PyStr y => bool_decide (x = y)
  | _, _ => false
  end.

Module User.
Record t := mk { id : Z }.
End User.

Module Post.
Record t := mk {
  id : Z;
  title : string;
  content : string;
  channel_id : Z;
  author_id : Z;
  created_at : Z;
  updated_at : Z;
  deleted_at : option Z
}.
End Post.

Module Reply.
Record t := mk {
  id : Z;
  content : string;
  post_id : Z;
  author_id : Z;
  parent_id : option Z;
  created_at : Z;
  updated_at : Z;
  deleted_at : option Z
}.
End Reply.

Module Vote.
Record t := mk {
  id : Z;
  user_id : Z;
  post_id : option Z;
  reply_id : option Z;
  vote_type : VoteType;
  created_at : Z;
  updated_at : Z
}.
End Vote.

#[global] Instance User_eq_dec : EqDecision User.t.
Proof. solve_decision. Defined.
#[global] Instance Post_eq_dec : EqDecision Post.t.
Proof. solve_decision. Defined.
#[global] Instance Reply_eq_dec : EqDecision Reply.t.
Proof. solve_decision. Defined.
#[global] Instance Vote_eq_dec : EqDecision Vote.t.
Proof. solve_decision. Defined.

(** The store: one list of rows per table. *)
Record Db := mkDb {
  users : list User.t;
  posts : list Post.t;
  replies : list Reply.t;
  votes : list Vote.t
}.

Definition set_replies (rs : list Reply.t) (db : Db) : Db :=
  mkDb (users db) (posts db) rs (votes db).

Definition set_votes (vs : list Vote.t) (db : Db) : Db :=
  mkDb (users db) (posts db) (replies db) vs.

(** Exceptions that leave the crud layer. *)
Inductive exn :=
  | ValueError (msg : string)
  | IntegrityError
  | StaleDataError.

Inductive result (A : Type) :=
  | Ok (a : A)
  | Raise (e : exn).
Arguments Ok {A} a.
Arguments Raise {A} e.

(** Python truthiness of an [Optional[int]]: [None] and [0] are false. *)
Definition truthy (o : option Z) : bool :=
  match o with
  | None => false
  | Some n => negb (n =? 0)
  end.

(** Integer primary key handed out by the store on insert: one more than
    the largest key present. *)
Definition next_id (ids : list Z) : Z := 1 + foldr Z.max 0 ids.

(** ** models.py: constraints of the [votes] table *)

(** [UniqueConstraint('user_id', 'post_id')] and
    [UniqueConstraint('user_id', 'reply_id')]: a new row clashes with a
    stored one that has the same user and the same non-NULL target
    (NULLs never compare equal). *)
Definition unique_clash (v w : Vote.t) : bool :=
  bool_decide (Vote.user_id v = Vote.user_id w) &&
  (match Vote.post_id v, Vote.post_id w with
   | Some a, Some b => bool_decide (a = b)
   | _, _ => false
   end
   ||
   match Vote.reply_id v, Vote.reply_id w with
   | Some a, Some b => bool_decide (a = b)
   | _, _ => false
   end).

(** [CheckConstraint vote_target_constraint] *)
Definition vote_target_constraint (v : Vote.t) : bool :=
  match Vote.post_id v, Vote.reply_id v with
  | Some _, None | None, Some _ => true
  | _, _ => false
  end.

(** INSERT into [votes] followed by commit. *)
Definition insert_vote (vs : list Vote.t) (v : Vote.t) : result (list Vote.t) :=
  if negb (vote_target_constraint v) then Raise IntegrityError
  else if existsb (unique_clash v) vs then Raise IntegrityError
  else Ok (vs ++ [v]).

(** ** crud/vote.py *)

Definition get_user_vote (db : Db) (user_id : Z) (post_id reply_id : option Z)
  : option Vote.t :=
  if truthy post_id then
    head (filter (λ v, Vote.user_id v = user_id ∧ Vote.post_id v = post_id) (votes db))
  else if truthy reply_id then
    head (filter (λ v, Vote.user_id v = user_id ∧ Vote.reply_id v = reply_id) (votes db))
  else None.

Definition post_exists (db : Db) (post_id : Z) : bool :=
  bool_decide (is_Some (head (filter (λ p, Post.id p = post_id) (posts db)))).

(** The existence test of [create_vote] and of the vote handlers:
    [db.query(Reply).filter(Reply.id == reply_id).first()], with no
    condition on [deleted_at]. *)
Definition reply_exists (db : Db) (reply_id : Z) : bool :=
  bool_decide (is_Some (head (filter (λ r, Reply.id r = reply_id) (replies db)))).

Definition set_vote_type (t : VoteType) (now : Z) (v : Vote.t) : Vote.t :=
  Vote.mk (Vote.id v) (Vote.user_id v) (Vote.post_id v) (Vote.reply_id v)
          t (Vote.created_at v) now.

(** UPDATE of the row with primary key [vid]; [updated_at] has
    [onupdate=func.now()]. *)
Definition update_vote_type (vid : Z) (t : VoteType) (now : Z) (vs : list Vote.t)
  : list Vote.t :=
  (λ v, if bool_decide (Vote.id v = vid) then set_vote_type t now v else v) <$> vs.

(** DELETE of the row with primary key [vid]. *)
Definition delete_vote_row (vid : Z) (vs : list Vote.t) : list Vote.t :=
  filter (λ v, Vote.id v ≠ vid) vs.

(** [create_vote], with the store state it reads ([snap], lines 18-30)
    kept apart from the state its write is committed against ([cur],
    lines 32-55).  In a sequential run both are the same store; they
    differ when another session commits between the read and the write.
    The function body has no [try], no loop and no second read. *)
Definition create_vote_on (snap cur : Db) (now : Z) (user_id : Z)
    (vote_type : string) (post_id reply_id : option Z)
  : result (Db * option Vote.t) :=
  if negb (bool_decide (vote_type ∈ [VoteType_value upvote; VoteType_value downvote]))
  then Raise (ValueError ("Invalid vote type: " +:+ vote_type))
  else if bool_decide (post_id = None ∧ reply_id = None)
          || bool_decide (post_id ≠ None ∧ reply_id ≠ None)
  then Raise (ValueError "Vote must target exactly one post or reply")
  else if truthy post_id && negb (post_exists snap (default 0 post_id))
  then Raise (ValueError ("Post with id " +:+ pretty (default 0 post_id) +:+ " not found"))
  else if truthy reply_id && negb (reply_exists snap (default 0 reply_id))
  then Raise (ValueError ("Reply with id " +:+ pretty (default 0 reply_id) +:+ " not found"))
  else
    match VoteType_of_value vote_type with
    | None => Raise (ValueError ("'" +:+ vote_type +:+ "' is not a valid VoteType"))
    | Some t =>
      match get_user_vote snap user_id post_id reply_id with
      | Some existing_vote =>
        if bool_decide (VoteType_value (Vote.vote_type existing_vote) = vote_type) then
          Ok (set_votes (delete_vote_row (Vote.id existing_vote) (votes cur)) cur, None)
        else
          let vs := update_vote_type (Vote.id existing_vote) t now (votes cur) in
          match head (filter (λ v, Vote.id v = Vote.id existing_vote) vs) with
          | Some refreshed => Ok (set_votes vs cur, Some refreshed)
          | None => Raise StaleDataError
          end
      | None =>
        let vote := Vote.mk (next_id (Vote.id <$> votes cur)) user_id post_id reply_id
                            t now now in
        match insert_vote (votes cur) vote with
        | Ok vs => Ok (set_votes vs cur, Some vote)
        | Raise e => Raise e
        end
      end
    end.

Definition create_vote (db : Db) (now : Z) (user_id : Z) (vote_type : string)
    (post_id reply_id : option Z) : result (Db * option Vote.t) :=
  create_vote_on db db now user_id vote_type post_id reply_id.

(** The dictionaries returned by [get_vote_counts_for_post] and
    [get_vote_counts_for_reply]; [target_id] is the ["post_id"] or
    ["reply_id"] entry. *)
Record VoteCounts := mkCounts {
  target_id : Z;
  upvote_count : Z;
  downvote_count : Z;
  net_votes : Z;
  total_votes : Z
}.

Definition count_votes (target : Z) (vs : list Vote.t) : VoteCounts :=
  let upvotes := Z.of_nat (length (filter (λ v, Vote.vote_type v = upvote) vs)) in
  let downvotes := Z.of_nat (length (filter (λ v, Vote.vote_type v = downvote) vs)) in
  mkCounts target upvotes downvotes (upvotes - downvotes) (upvotes + downvotes).

Definition get_vote_counts_for_post (db : Db) (post_id : Z) : VoteCounts :=
  count_votes post_id (filter (λ v, Vote.post_id v = Some post_id) (votes db)).

Definition get_vote_counts_for_reply (db : Db) (reply_id : Z) : VoteCounts :=
  count_votes reply_id (filter (λ v, Vote.reply_id v = Some reply_id) (votes db)).

(** ** models.py: vote aggregates on the entities *)

(** The [votes] relationship of a post and of a reply. *)
Definition Post_votes (db : Db) (p : Post.t) : list Vote.t :=
  filter (λ v, Vote.post_id v = Some (Post.id p)) (votes db).

Definition Reply_votes (db : Db) (r : Reply.t) : list Vote.t :=
  filter (λ v, Vote.reply_id v = Some (Reply.id r)) (votes db).

(** [len([v for v in self.votes if v.vote_type == VoteType.<m>.value])]:
    the column is [Enum(VoteType)], so [v.vote_type] is a member and the
    right-hand side is its string value. *)
Definition entity_count (m : VoteType) (vs : list Vote.t) : Z :=
  Z.of_nat (length (filter
    (λ v, py_eq (PyEnum (Vote.vote_type v)) (PyStr (VoteType_value m)) = true) vs)).

Definition Post_upvote_count (db : Db) (p : Post.t) : Z :=
  entity_count upvote (Post_votes db p).
Definition Post_downvote_count (db : Db) (p : Post.t) : Z :=
  entity_count downvote (Post_votes db p).
Definition Post_net_votes (db : Db) (p : Post.t) : Z :=
  Post_upvote_count db p - Post_downvote_count db p.
Definition Post_total_votes (db : Db) (p : Post.t) : Z :=
  Post_upvote_count db p + Post_downvote_count db p.

Definition Reply_upvote_count (db : Db) (r : Reply.t) : Z :=
  entity_count upvote (Reply_votes db r).
Definition Reply_downvote_count (db : Db) (r : Reply.t) : Z :=
  entity_count downvote (Reply_votes db r).
Definition Reply_net_votes (db : Db) (r : Reply.t) : Z :=
  Reply_upvote_count db r - Reply_downvote_count db r.

(** ** routers/votes.py *)

Inductive vote_response :=
  | VoteResponse (v : Vote.t)
  | VoteRemovalResponse (previous_vote_type : VoteType)
  | VoteHTTPException (status_code : Z) (detail : string).

(** [VoteCreate]: the request body after pydantic validation. *)
Record VoteCreate := mkVoteCreate {
  vc_vote_type : VoteType;
  vc_user_id : Z
}.

(** What the [except] clauses of the handlers make of an exception of
    [create_vote]: [ValueError] becomes 400 with its message, anything
    else 500. *)
Definition vote_handler_except (e : exn) : vote_response :=
  match e with
  | ValueError msg => VoteHTTPException 400 msg
  | _ => VoteHTTPException 500 "Failed to process vote"
  end.

(** [vote_on_post] against a read state and a commit state.  The 404
    raised inside the [try] is an [HTTPException], which the final
    [except Exception] turns into the 500. *)
Definition vote_on_post_on (snap cur : Db) (now : Z) (post_id : Z) (vote_data : VoteCreate)
  : Db * vote_response :=
  if negb (post_exists snap post_id) then
    (cur, VoteHTTPException 500 "Failed to process vote")
  else
    match create_vote_on snap cur now (vc_user_id vote_data)
            (VoteType_value (vc_vote_type vote_data)) (Some post_id) None with
    | Ok (db', None) => (db', VoteRemovalResponse (vc_vote_type vote_data))
    | Ok (db', Some v) => (db', VoteResponse v)
    | Raise e => (cur, vote_handler_except e)
    end.

Definition vote_on_post (db : Db) (now : Z) (post_id : Z) (vote_data : VoteCreate)
  : Db * vote_response :=
  vote_on_post_on db db now post_id vote_data.

Definition vote_on_reply_on (snap cur : Db) (now : Z) (reply_id : Z) (vote_data : VoteCreate)
  : Db * vote_response :=
  if negb (reply_exists snap reply_id) then
    (cur, VoteHTTPException 500 "Failed to process vote")
  else
    match create_vote_on snap cur now (vc_user_id vote_data)
            (VoteType_value (vc_vote_type vote_data)) None (Some reply_id) with
    | Ok (db', None) => (db', VoteRemovalResponse (vc_vote_type vote_data))
    | Ok (db', Some v) => (db', VoteResponse v)
    | Raise e => (cur, vote_handler_except e)
    end.

Definition vote_on_reply (db : Db) (now : Z) (reply_id : Z) (vote_data : VoteCreate)
  : Db * vote_response :=
  vote_on_reply_on db db now reply_id vote_data.

(** ** Recursion and loops over the parent pointers

    [Reply.depth], [Reply.thread_root], [Reply.ancestors],
    [Reply.descendants] and the local [flatten_replies] recurse or loop
    along stored pointers, so they need not return on a cyclic store.
    They take a bound on the number of nested calls (loop rounds) and
    answer [OutOfFuel] when it does not suffice. *)

Inductive run (A : Type) :=
  | Done (a : A)
  | OutOfFuel.
Arguments Done {A} a.
Arguments OutOfFuel {A}.

#[global] Instance run_ret : MRet run := λ A a, Done a.
#[global] Instance run_bind : MBind run := λ A B f m,
  match m with
  | Done a => f a
  | OutOfFuel => OutOfFuel
  end.

(** ** models.py: the reply tree *)

Definition MAX_DEPTH : Z := 10.

(** [order_by(Reply.created_at)] and [sort(key=lambda r: r.created_at)] *)
Definition created_le (a b : Reply.t) : Prop :=
  Reply.created_at a ≤ Reply.created_at b.

#[global] Instance created_le_dec : RelDecision created_le.
Proof. intros a b. unfold created_le. apply _. Defined.

(** Both sorts are by insertion and keep rows of equal [created_at] in
    the order they had (Python's [sort] is stable; for the store, ties
    come out in storage order). *)
Fixpoint insert_created (x : Reply.t) (l : list Reply.t) : list Reply.t :=
  match l with
  | [] => [x]
  | y :: l' =>
    if decide (created_le x y) then x :: y :: l' else y :: insert_created x l'
  end.

Definition order_by_created_at (l : list Reply.t) : list Reply.t :=
  foldr insert_created [] l.

(** [.offset(skip).limit(limit)] and the slice [l[skip:skip + limit]];
    the handlers only pass [skip >= 0] and [limit >= 1]. *)
Definition offset_limit {A} (skip limit : nat) (l : list A) : list A :=
  take limit (drop skip l).

(** The [parent] relationship: the row whose key is [parent_id],
    whatever its [deleted_at]. *)
Definition Reply_parent (db : Db) (r : Reply.t) : option Reply.t :=
  match Reply.parent_id r with
  | None => None
  | Some p => head (filter (λ x, Reply.id x = p) (replies db))
  end.

(** The [children] relationship, [order_by="Reply.created_at"]. *)
Definition Reply_children (db : Db) (r : Reply.t) : list Reply.t :=
  order_by_created_at (filter (λ x, Reply.parent_id x = Some (Reply.id r)) (replies db)).

(** [self.post.replies] *)
Definition Post_replies (db : Db) (post_id : Z) : list Reply.t :=
  filter (λ x, Reply.post_id x = post_id) (replies db).

Definition Reply_is_edited (r : Reply.t) : bool :=
  bool_decide (Reply.created_at r < Reply.updated_at r).

Definition Reply_is_deleted (r : Reply.t) : bool :=
  bool_decide (Reply.deleted_at r ≠ None).

Fixpoint Reply_depth (fuel : nat) (db : Db) (r : Reply.t) : run Z :=
  match fuel with
  | O => OutOfFuel
  | S f =>
    match Reply_parent db r with
    | None => Done 0
    | Some p => d ← Reply_depth f db p; Done (d + 1)
    end
  end.

Fixpoint Reply_thread_root (fuel : nat) (db : Db) (r : Reply.t) : run Reply.t :=
  match fuel with
  | O => OutOfFuel
  | S f =>
    match Reply_parent db r with
    | None => Done r
    | Some p => Reply_thread_root f db p
    end
  end.

(** The [while current is not None] loop of [ancestors]. *)
Fixpoint ancestors_loop (fuel : nat) (db : Db) (current : option Reply.t)
  : run (list Reply.t) :=
  match current with
  | None => Done []
  | Some c =>
    match fuel with
    | O => OutOfFuel
    | S f => rest ← ancestors_loop f db (Reply_parent db c); Done (c :: rest)
    end
  end.

Definition Reply_ancestors (fuel : nat) (db : Db) (r : Reply.t) : run (list Reply.t) :=
  ancestors_loop fuel db (Reply_parent db r).

Fixpoint Reply_descendants (fuel : nat) (db : Db) (r : Reply.t) : run (list Reply.t) :=
  match fuel with
  | O => OutOfFuel
  | S f =>
    (fix loop (cs : list Reply.t) : run (list Reply.t) :=
       match cs with
       | [] => Done []
       | child :: cs' =>
         sub ← Reply_descendants f db child;
         rest ← loop cs';
         Done (child :: sub ++ rest)
       end) (Reply_children db r)
  end.

Definition Reply_siblings (db : Db) (r : Reply.t) : list Reply.t :=
  match Reply_parent db r with
  | None =>
    filter (λ x, Reply_parent db x = None ∧ Reply.id x ≠ Reply.id r)
           (Post_replies db (Reply.post_id r))
  | Some p => filter (λ x, Reply.id x ≠ Reply.id r) (Reply_children db p)
  end.

Definition Reply_is_ancestor_of (fuel : nat) (db : Db) (r other_reply : Reply.t) : run bool :=
  l ← Reply_ancestors fuel db other_reply; Done (bool_decide (r ∈ l)).

Definition Reply_can_reply_to (fuel : nat) (db : Db) (r : Reply.t) : run bool :=
  d ← Reply_depth fuel db r; Done (bool_decide (d < MAX_DEPTH)).

(** ** crud/reply.py *)

Definition get_post_replies (db : Db) (post_id : Z) (skip limit : nat) : list Reply.t :=
  offset_limit skip limit
    (order_by_created_at
       (filter (λ r, Reply.post_id r = post_id ∧ Reply.deleted_at r = None) (replies db))).

(** [{reply.id: reply for reply in all_replies}] *)
Definition reply_dict (all_replies : list Reply.t) : gmap Z Reply.t :=
  foldl (λ m r, <[Reply.id r := r]> m) ∅ all_replies.

(** One round of the loop that separates roots from children.  The state
    is [root_replies] and the [_children_cache] lists; a cache hangs on
    the parent object, and the objects of one query are one per primary
    key, so the caches are kept by the parent's key. *)
Definition thread_step (dict : gmap Z Reply.t)
    (st : list Reply.t * gmap Z (list Reply.t)) (reply : Reply.t)
  : list Reply.t * gmap Z (list Reply.t) :=
  match Reply.parent_id reply with
  | None => (st.1 ++ [reply], st.2)
  | Some pid =>
    match dict !! pid with
    | Some parent =>
      (st.1, <[Reply.id parent := default [] (st.2 !! Reply.id parent) ++ [reply]]> st.2)
    | None => st
    end
  end.

Definition build_threads (all_replies : list Reply.t)
  : list Reply.t * gmap Z (list Reply.t) :=
  foldl (thread_step (reply_dict all_replies)) ([], ∅) all_replies.

Fixpoint flatten_replies (fuel : nat) (cache : gmap Z (list Reply.t))
    (replies : list Reply.t) : run (list Reply.t) :=
  match fuel with
  | O => OutOfFuel
  | S f =>
    (fix loop (rs : list Reply.t) : run (list Reply.t) :=
       match rs with
       | [] => Done []
       | reply :: rs' =>
         match cache !! Reply.id reply with
         | Some children =>
           sub ← flatten_replies f cache children;
           rest ← loop rs';
           Done (reply :: sub ++ rest)
         | None =>
           rest ← loop rs';
           Done (reply :: rest)
         end
       end) replies
  end.

Definition get_post_replies_threaded (fuel : nat) (db : Db) (post_id : Z)
    (skip limit : nat) : run (list Reply.t) :=
  let all_replies :=
    order_by_created_at
      (filter (λ r, Reply.post_id r = post_id ∧ Reply.deleted_at r = None) (replies db)) in
  let '(root_replies, cache) := build_threads all_replies in
  threaded_replies ← flatten_replies fuel cache root_replies;
  Done (offset_limit skip limit threaded_replies).

Definition get_reply_by_id (db : Db) (reply_id : Z) : option Reply.t :=
  head (filter (λ r, Reply.id r = reply_id ∧ Reply.deleted_at r = None) (replies db)).

(** [ReplyCreate]: the request body after pydantic validation. *)
Record ReplyCreate := mkReplyCreate {
  rc_content : string;
  rc_author_id : Z;
  rc_parent_id : option Z
}.

Definition user_exists (db : Db) (user_id : Z) : bool :=
  bool_decide (is_Some (head (filter (λ u, User.id u = user_id) (users db)))).

(** The INSERT at the end of [create_reply]. *)
Definition insert_reply (db : Db) (now : Z) (reply : ReplyCreate) (post_id : Z)
  : Db * Reply.t :=
  let db_reply := Reply.mk (next_id (Reply.id <$> replies db)) (rc_content reply)
                           post_id (rc_author_id reply) (rc_parent_id reply)
                           now now None in
  (set_replies (replies db ++ [db_reply]) db, db_reply).

Definition create_reply (fuel : nat) (db : Db) (now : Z) (reply : ReplyCreate) (post_id : Z)
  : run (result (Db * Reply.t)) :=
  if negb (post_exists db post_id) then Done (Raise (ValueError "Post not found"))
  else if negb (user_exists db (rc_author_id reply))
  then Done (Raise (ValueError "Author not found"))
  else if truthy (rc_parent_id reply) then
    match head (filter (λ r, Reply.id r = default 0 (rc_parent_id reply)
                             ∧ Reply.post_id r = post_id
                             ∧ Reply.deleted_at r = None) (replies db)) with
    | None => Done (Raise (ValueError "Parent reply not found"))
    | Some parent_reply =>
      ok ← Reply_can_reply_to fuel db parent_reply;
      if negb ok then Done (Raise (ValueError "Maximum reply depth exceeded"))
      else Done (Ok (insert_reply db now reply post_id))
    end
  else Done (Ok (insert_reply db now reply post_id)).

(** The row after [db_reply.deleted_at = datetime.utcnow()] is flushed:
    the UPDATE also carries the [onupdate=func.now()] of [updated_at]. *)
Definition mark_deleted (utcnow now : Z) (r : Reply.t) : Reply.t :=
  Reply.mk (Reply.id r) (Reply.content r) (Reply.post_id r) (Reply.author_id r)
           (Reply.parent_id r) (Reply.created_at r) now (Some utcnow).

Definition delete_reply (db : Db) (utcnow now : Z) (reply_id : Z) : Db * bool :=
  match get_reply_by_id db reply_id with
  | None => (db, false)
  | Some db_reply =>
    (set_replies
       ((λ r, if bool_decide (Reply.id r = Reply.id db_reply)
              then mark_deleted utcnow now r else r) <$> replies db) db,
     true)
  end.

Definition get_reply_children (db : Db) (reply_id : Z) (skip limit : nat) : list Reply.t :=
  offset_limit skip limit
    (order_by_created_at
       (filter (λ r, Reply.parent_id r = Some reply_id ∧ Reply.deleted_at r = None)
               (replies db))).

(** The four navigation readers.  Their Python result is a list in every
    branch ([return []] when the reply is not found); the [option] is
    Python's [Optional], which the handlers test with [is None]. *)
Definition get_reply_thread (fuel : nat) (db : Db) (reply_id : Z)
  : run (option (list Reply.t)) :=
  match get_reply_by_id db reply_id with
  | None => Done (Some [])
  | Some reply =>
    root_reply ← Reply_thread_root fuel db reply;
    descendants ← Reply_descendants fuel db root_reply;
    Done (Some (order_by_created_at (root_reply :: descendants)))
  end.

Definition get_reply_ancestors (fuel : nat) (db : Db) (reply_id : Z)
  : run (option (list Reply.t)) :=
  match get_reply_by_id db reply_id with
  | None => Done (Some [])
  | Some reply => l ← Reply_ancestors fuel db reply; Done (Some l)
  end.

Definition get_reply_descendants (fuel : nat) (db : Db) (reply_id : Z)
  : run (option (list Reply.t)) :=
  match get_reply_by_id db reply_id with
  | None => Done (Some [])
  | Some reply => l ← Reply_descendants fuel db reply; Done (Some l)
  end.

Definition get_reply_siblings (db : Db) (reply_id : Z) : option (list Reply.t) :=
  match get_reply_by_id db reply_id with
  | None => Some []
  | Some reply => Some (Reply_siblings db reply)
  end.

(** ** routers/replies.py *)

Inductive http (A : Type) :=
  | HttpOk (body : A)
  | HTTPException (status_code : Z) (detail : string).
Arguments HttpOk {A} body.
Arguments HTTPException {A} status_code detail.

(** [if not thread_replies]: an empty list and [None] are both false. *)
Definition route_get_reply_thread (fuel : nat) (db : Db) (reply_id : Z)
  : run (http (list Reply.t)) :=
  thread_replies ← get_reply_thread fuel db reply_id;
  match thread_replies with
  | None | Some [] => Done (HTTPException 404 "Reply not found")
  | Some l => Done (HttpOk l)
  end.

(** [if ancestors is None] *)
Definition route_get_reply_ancestors (fuel : nat) (db : Db) (reply_id : Z)
  : run (http (list Reply.t)) :=
  ancestors ← get_reply_ancestors fuel db reply_id;
  match ancestors with
  | None => Done (HTTPException 404 "Reply not found")
  | Some l => Done (HttpOk l)
  end.

Definition route_get_reply_descendants (fuel : nat) (db : Db) (reply_id : Z)
  : run (http (list Reply.t)) :=
  descendants ← get_reply_descendants fuel db reply_id;
  match descendants with
  | None => Done (HTTPException 404 "Reply not found")
  | Some l => Done (HttpOk l)
  end.

Definition route_get_reply_siblings (db : Db) (reply_id : Z) : http (list Reply.t) :=
  match get_reply_siblings db reply_id with
  | None => HTTPException 404 "Reply not found"
  | Some l => HttpOk l
  end.

(** Python's [needle in hay] on strings. *)
Fixpoint str_in (needle hay : string) : bool :=
  String.prefix needle hay ||
  match hay with
  | EmptyString => false
  | String _ hay' => str_in needle hay'
  end.

(** [create_reply] of the router: the [except ValueError] ladder.  The
    last clause reports [str(e)] of any other exception; [create_reply]
    raises none. *)
Definition route_create_reply (fuel : nat) (db : Db) (now : Z) (post_id : Z)
    (reply : ReplyCreate) : run (Db * http Reply.t) :=
  r ← create_reply fuel db now reply post_id;
  match r with
  | Ok (db', db_reply) => Done (db', HttpOk db_reply)
  | Raise (ValueError error_msg) =>
    if str_in "Post not found" error_msg
    then Done (db, HTTPException 404 "Post not found")
    else if str_in "Author not found" error_msg
    then Done (db, HTTPException 404 "Author not found")
    else if str_in "Parent reply not found" error_msg
    then Done (db, HTTPException 404 "Parent reply not found")
    else if str_in "Maximum reply depth exceeded" error_msg
    then Done (db, HTTPException 400 "Maximum reply depth exceeded")
    else Done (db, HTTPException 400 error_msg)
  | Raise IntegrityError => Done (db, HTTPException 500 "Error creating reply: IntegrityError")
  | Raise StaleDataError => Done (db, HTTPException 500 "Error creating reply: StaleDataError")
  end.

Definition route_delete_reply (db : Db) (utcnow now : Z) (reply_id : Z)
  : Db * http string :=
  let '(db', success) := delete_reply db utcnow now reply_id in
  if success then (db', HttpOk "Reply deleted successfully")
  else (db', HTTPException 404 "Reply not found").


(** * The rest of the vote and reply layers *)

(** A stable sort by insertion for the remaining orderings: [x] goes
    before the first element it may precede, so elements that compare
    equal keep their order. *)
Fixpoint insert_by {A} (le : A → A → Prop) `{!RelDecision le} (x : A) (l : list A)
  : list A :=
  match l with
  | [] => [x]
  | y :: l' => if decide (le x y) then x :: y :: l' else y :: insert_by le x l'
  end.

Definition sort_by {A} (le : A → A → Prop) `{!RelDecision le} (l : list A) : list A :=
  foldr (insert_by le) [] l.

(** Python's slice [l[:limit]] for an integer [limit] of either sign. *)
Definition py_take {A} (limit : Z) (l : list A) : list A :=
  if bool_decide (0 ≤ limit) then take (Z.to_nat limit) l
  else take (length l - Z.to_nat (- limit)) l.

(** ** crud/vote.py, continued

    [skip] and [limit] of the paginated readers are taken non-negative.
    [get_votes_for_post], [get_votes_for_reply] and [get_user_votes]
    have no ORDER BY: the store returns the matching rows in an order
    of its choosing, for which the model takes the order of the table.
    Nothing proved below about these readers depends on that order. *)

Definition get_votes_for_post (db : Db) (post_id : Z) (skip limit : nat) : list Vote.t :=
  offset_limit skip limit (filter (λ v, Vote.post_id v = Some post_id) (votes db)).

Definition get_votes_for_reply (db : Db) (reply_id : Z) (skip limit : nat) : list Vote.t :=
  offset_limit skip limit (filter (λ v, Vote.reply_id v = Some reply_id) (votes db)).

Definition get_user_votes (db : Db) (user_id : Z) (skip limit : nat) : list Vote.t :=
  offset_limit skip limit (filter (λ v, Vote.user_id v = user_id) (votes db)).

Definition delete_vote (db : Db) (vote_id : Z) : Db * bool :=
  match head (filter (λ v, Vote.id v = vote_id) (votes db)) with
  | Some vote => (set_votes (delete_vote_row (Vote.id vote) (votes db)) db, true)
  | None => (db, false)
  end.

(** [for vote in votes: db.delete(vote)], then one commit. *)
Definition delete_user_votes (db : Db) (user_id : Z) : Db * Z :=
  let votes_of_user := filter (λ v, Vote.user_id v = user_id) (votes db) in
  let count := Z.of_nat (length votes_of_user) in
  (set_votes (foldl (λ vs vote, delete_vote_row (Vote.id vote) vs) (votes db) votes_of_user) db,
   count).

(** [order_by(Vote.created_at.desc())].  Among rows of equal
    [created_at] the store's order is not fixed by the code; the model
    keeps the order of the table. *)
Definition vote_newer_le (a b : Vote.t) : Prop := Vote.created_at b ≤ Vote.created_at a.

#[global] Instance vote_newer_le_dec : RelDecision vote_newer_le.
Proof. intros a b. unfold vote_newer_le. apply _. Defined.

Definition get_vote_history (db : Db) (user_id : Z) (target_type : string) (skip limit : nat)
  : list Vote.t :=
  let query := filter (λ v, Vote.user_id v = user_id) (votes db) in
  let query :=
    if bool_decide (target_type = "posts") then filter (λ v, Vote.post_id v ≠ None) query
    else if bool_decide (target_type = "replies") then filter (λ v, Vote.reply_id v ≠ None) query
    else query in
  offset_limit skip limit (sort_by vote_newer_le query).

(** [sort(key=lambda x: x[1], reverse=True)]: descending and stable. *)
Definition net_ge {A} (a b : A * Z) : Prop := b.2 ≤ a.2.

#[global] Instance net_ge_dec {A} : RelDecision (@net_ge A).
Proof. intros a b. unfold net_ge. apply _. Defined.



Definition get_top_voted_replies (db : Db) (post_id : option Z) (limit : Z)
  : list (Reply.t * Z) :=
  let query :=
    if truthy post_id then filter (λ r, Reply.post_id r = default 0 post_id) (replies db)
    else replies db in
  let replies_with_votes :=
    (λ reply, (reply, net_votes (get_vote_counts_for_reply db (Reply.id reply)))) <$> query in
  py_take limit (sort_by net_ge replies_with_votes).

(** ** routers/votes.py, continued *)

(** [get_post_vote_counts] and [get_reply_vote_counts]: the 404 is
    raised outside any [try]. *)
Definition route_get_post_vote_counts (db : Db) (post_id : Z) : http VoteCounts :=
  if negb (post_exists db post_id) then HTTPException 404 "Post not found"
  else HttpOk (get_vote_counts_for_post db post_id).


Definition route_delete_vote (db : Db) (vote_id : Z) : Db * http string :=
  let '(db', success) := delete_vote db vote_id in
  if success then (db', HttpOk "Vote deleted successfully")
  else (db', HTTPException 404 "Vote not found").


(** The dictionary of [get_voting_stats]. *)
Record VotingStats := mkStats {
  stats_total_votes : Z;
  stats_total_upvotes : Z;
  stats_total_downvotes : Z;
  stats_active_voters : Z;
  stats_posts_with_votes : Z;
  stats_replies_with_votes : Z
}.

Definition get_voting_stats (db : Db) : VotingStats :=
  let all_votes := votes db in
  let upvotes := length (filter (λ v, VoteType_value (Vote.vote_type v) = "upvote") all_votes) in
  let downvotes :=
    length (filter (λ v, VoteType_value (Vote.vote_type v) = "downvote") all_votes) in
  let active_voters := size (list_to_set (Vote.user_id <$> all_votes) : gset Z) in
  let posts_with_votes :=
    size (list_to_set (Vote.post_id <$> filter (λ v, truthy (Vote.post_id v) = true) all_votes)
          : gset (option Z)) in
  let replies_with_votes :=
    size (list_to_set (Vote.reply_id <$> filter (λ v, truthy (Vote.reply_id v) = true) all_votes)
          : gset (option Z)) in
  mkStats (Z.of_nat (length all_votes)) (Z.of_nat upvotes) (Z.of_nat downvotes)
          (Z.of_nat active_voters) (Z.of_nat posts_with_votes) (Z.of_nat replies_with_votes).

(** ** crud/reply.py, continued *)

(** [ReplyUpdate]: the request body after pydantic validation. *)
Record ReplyUpdate := mkReplyUpdate {
  ru_content : option string
}.

(** [update_reply].  The session writes the row only when an attribute
    has a new value; the UPDATE then carries the [onupdate] of
    [updated_at]. *)
Definition set_content (content : string) (now : Z) (r : Reply.t) : Reply.t :=
  Reply.mk (Reply.id r) content (Reply.post_id r) (Reply.author_id r)
           (Reply.parent_id r) (Reply.created_at r) now (Reply.deleted_at r).

Definition update_reply (db : Db) (now : Z) (reply_id : Z) (reply_update : ReplyUpdate)
  : Db * option Reply.t :=
  match get_reply_by_id db reply_id with
  | None => (db, None)
  | Some db_reply =>
    match ru_content reply_update with
    | Some content =>
      if bool_decide (content = Reply.content db_reply) then (db, Some db_reply)
      else
        let rs := (λ r, if bool_decide (Reply.id r = Reply.id db_reply)
                        then set_content content now r else r) <$> replies db in
        (set_replies rs db,
         head (filter (λ r, Reply.id r = Reply.id db_reply) rs))
    | None => (db, Some db_reply)
    end
  end.

Definition count_post_replies (db : Db) (post_id : Z) : Z :=
  Z.of_nat (length (filter (λ r, Reply.post_id r = post_id ∧ Reply.deleted_at r = None)
                           (replies db))).

(** [order_by(Reply.created_at.desc())] *)
Definition reply_newer_le (a b : Reply.t) : Prop := Reply.created_at b ≤ Reply.created_at a.

#[global] Instance reply_newer_le_dec : RelDecision reply_newer_le.
Proof. intros a b. unfold reply_newer_le. apply _. Defined.

Definition get_user_replies (db : Db) (user_id : Z) (skip limit : nat) : list Reply.t :=
  offset_limit skip limit
    (sort_by reply_newer_le
       (filter (λ r, Reply.author_id r = user_id ∧ Reply.deleted_at r = None) (replies db))).

Definition get_recent_replies (db : Db) (limit : nat) : list Reply.t :=
  take limit (sort_by reply_newer_le (filter (λ r, Reply.deleted_at r = None) (replies db))).

(** [bulk_delete_replies]: one UPDATE over the live rows whose key is in
    the list; the result is the number of rows it matched. *)
Definition bulk_delete_replies (db : Db) (utcnow now : Z) (reply_ids : list Z) : Db * Z :=
  let matched := filter (λ r, Reply.id r ∈ reply_ids ∧ Reply.deleted_at r = None) (replies db) in
  (set_replies
     ((λ r, if bool_decide (Reply.id r ∈ reply_ids ∧ Reply.deleted_at r = None)
            then mark_deleted utcnow now r else r) <$> replies db) db,
   Z.of_nat (length matched)).

(** ** routers/replies.py, continued *)

Definition route_get_post_replies (fuel : nat) (db : Db) (post_id : Z) (skip limit : nat)
    (threaded : bool) : run (http (list Reply.t)) :=
  if threaded then
    replies ← get_post_replies_threaded fuel db post_id skip limit; Done (HttpOk replies)
  else Done (HttpOk (get_post_replies db post_id skip limit)).


Definition route_update_reply (db : Db) (now : Z) (reply_id : Z) (reply_update : ReplyUpdate)
  : Db * http Reply.t :=
  match update_reply db now reply_id reply_update with
  | (db', Some db_reply) => (db', HttpOk db_reply)
  | (db', None) => (db', HTTPException 404 "Reply not found")
  end.

Definition route_get_reply_children (db : Db) (reply_id : Z) (skip limit : nat)
  : http (list Reply.t) :=
  match get_reply_by_id db reply_id with
  | None => HTTPException 404 "Reply not found"
  | Some _ => HttpOk (get_reply_children db reply_id skip limit)
  end.

Definition route_get_post_reply_count (db : Db) (post_id : Z) : Z * Z :=
  (post_id, count_post_replies db post_id).
(** * Vocabulary of the statements *)

(** ** Votes *)

(** A cast names exactly one target, by a key that Python takes as true,
    and the target row is stored. *)
Definition target_ok (db : Db) (post_id reply_id : option Z) : Prop :=
  (∃ p, post_id = Some p ∧ reply_id = None ∧ p ≠ 0 ∧ post_exists db p = true) ∨
  (∃ r, post_id = None ∧ reply_id = Some r ∧ r ≠ 0 ∧ reply_exists db r = true).

(** The handler of the target's route answers [out]: [vote_on_post] for
    a post target, [vote_on_reply] for a reply target. *)
Definition handler_answers (db : Db) (now : Z) (u : Z) (t : VoteType)
    (post_id reply_id : option Z) (out : Db * vote_response) : Prop :=
  (∀ p, post_id = Some p → vote_on_post db now p (mkVoteCreate t u) = out) ∧
  (∀ r, reply_id = Some r → vote_on_reply db now r (mkVoteCreate t u) = out).

(** Counting rows one at a time: the number of rows of [vs] whose target
    column [on] holds [target] and whose polarity is [t]. *)
Fixpoint tally (on : Vote.t → option Z) (target : Z) (t : VoteType) (vs : list Vote.t) : Z :=
  match vs with
  | [] => 0
  | v :: vs' =>
    (if bool_decide (on v = Some target ∧ Vote.vote_type v = t) then 1 else 0)
    + tally on target t vs'
  end.

(** The column a target is counted on. *)
Definition counted_on (on : Vote.t → option Z) (k : Z) (post_id reply_id : option Z) : Prop :=
  (post_id = Some k ∧ ∀ v, on v = Vote.post_id v) ∨
  (reply_id = Some k ∧ ∀ v, on v = Vote.reply_id v).

Definition tallies (on : Vote.t → option Z) (k : Z) (db : Db) : Z * Z :=
  (tally on k upvote (votes db), tally on k downvote (votes db)).

(** A cast request and the store after a sequence of casts; a cast that
    raises leaves the store as it was. *)
Record cast := mkCast {
  cast_now : Z;
  cast_user_id : Z;
  cast_vote_type : string;
  cast_post_id : option Z;
  cast_reply_id : option Z
}.

Definition apply_cast (db : Db) (c : cast) : Db :=
  match create_vote db (cast_now c) (cast_user_id c) (cast_vote_type c)
          (cast_post_id c) (cast_reply_id c) with
  | Ok (db', _) => db'
  | Raise _ => db
  end.

Definition apply_casts (db : Db) (cs : list cast) : Db := foldl apply_cast db cs.

(** Expected (upvotes, downvotes) of a target, kept by hand from one
    cast to the next: [existing] is the polarity the voter had on the
    target before the cast of polarity [t]. *)
Definition bump (t : VoteType) (d : Z) (c : Z * Z) : Z * Z :=
  match t with
  | upvote => (c.1 + d, c.2)
  | downvote => (c.1, c.2 + d)
  end.

Definition expect_after (existing : option VoteType) (t : VoteType) (c : Z * Z) : Z * Z :=
  match existing with
  | None => bump t 1 c
  | Some e => if bool_decide (e = t) then bump t (-1) c else bump t 1 (bump e (-1) c)
  end.

(** Casts of [(now, voter, polarity)] on one target, with the
    expectation carried along. *)
Fixpoint track (db : Db) (post_id reply_id : option Z) (cs : list (Z * Z * VoteType))
    (c : Z * Z) : Db * (Z * Z) :=
  match cs with
  | [] => (db, c)
  | (now, u, t) :: cs' =>
    track (apply_cast db (mkCast now u (VoteType_value t) post_id reply_id))
          post_id reply_id cs'
          (expect_after (Vote.vote_type <$> get_user_vote db u post_id reply_id) t c)
  end.

(** ** Replies *)

(** The rows a listing of post [post_id] starts from. *)
Definition live_in_post (post_id : Z) (r : Reply.t) : Prop :=
  Reply.post_id r = post_id ∧ Reply.deleted_at r = None.

(** The tree that a list [l] of replies spells out: the roots and the
    children of a reply, both in the order of [l]. *)
Definition roots_in (l : list Reply.t) : list Reply.t :=
  filter (λ r, Reply.parent_id r = None) l.

Definition children_in (l : list Reply.t) (r : Reply.t) : list Reply.t :=
  filter (λ c, Reply.parent_id c = Some (Reply.id r)) l.

(** [Preorder l rs flat]: [flat] is the pre-order walk of the forest
    with roots [rs]: each reply, then the walk of its children, then the
    walk of the replies after it. *)
Inductive Preorder (l : list Reply.t) : list Reply.t → list Reply.t → Prop :=
  | Preorder_nil : Preorder l [] []
  | Preorder_cons r rs sub rest :
      Preorder l (children_in l r) sub →
      Preorder l rs rest →
      Preorder l (r :: rs) (r :: sub ++ rest).

(** [Rooted l k r]: [r] is in [l] and [k] parent hops inside [l] lead
    from [r] to a reply without parent. *)
Inductive Rooted (l : list Reply.t) : nat → Reply.t → Prop :=
  | Rooted_root r :
      r ∈ l → Reply.parent_id r = None → Rooted l 0 r
  | Rooted_child k c p :
      c ∈ l → p ∈ l → Reply.parent_id c = Some (Reply.id p) → Rooted l k p →
      Rooted l (S k) c.

(** [descendant_of rs y r]: parent pointers lead from the stored row [y]
    to the stored row [r] in one hop or more. *)
Inductive descendant_of (rs : list Reply.t) : Reply.t → Reply.t → Prop :=
  | descendant_child c p :
      c ∈ rs → p ∈ rs → Reply.parent_id c = Some (Reply.id p) → descendant_of rs c p
  | descendant_step c m p :
      c ∈ rs → Reply.parent_id c = Some (Reply.id m) → descendant_of rs m p →
      descendant_of rs c p.

(** The replies of [l] hung under key [k] by the loop of the threaded
    listing: the children by parent pointer, provided the dictionary
    has the key. *)
Definition hung (dict : gmap Z Reply.t) (l : list Reply.t) (k : Z) : list Reply.t :=
  match dict !! k with
  | Some _ => filter (λ c, Reply.parent_id c = Some k) l
  | None => []
  end.

(** What the UPDATE of [delete_reply] does to a row of the table. *)
Definition mark_row (utcnow now : Z) (rid : Z) (x : Reply.t) : Reply.t :=
  if bool_decide (Reply.id x = rid) then mark_deleted utcnow now x else x.



(** ** Stores used as examples *)

(** A small store: three users, one post, replies A (root) and B (child
    of A), and an upvote of user 2 on the post. *)
Definition ex_post : Post.t := Post.mk 1 "Hello" "First post" 1 1 10 10 None.
Definition ex_A : Reply.t := Reply.mk 1 "A" 1 1 None 20 20 None.
Definition ex_B : Reply.t := Reply.mk 2 "B" 1 2 (Some 1) 30 30 None.
Definition ex_vote : Vote.t := Vote.mk 1 2 (Some 1) None upvote 40 40.
Definition ex_db : Db :=
  mkDb [User.mk 1; User.mk 2; User.mk 3] [ex_post] [ex_A; ex_B] [ex_vote].

(** Two sessions cast the same upvote of user 3 on post 1.  Both read
    [ex_db]; the first one commits and leaves [race_cur]. *)
Definition race_vote : Vote.t := Vote.mk 2 3 (Some 1) None upvote 50 50.
Definition race_cur : Db := set_votes [ex_vote; race_vote] ex_db.

(** A thread of ten replies under post 1, each the child of the one
    before: depths 0 to 9, keys 1 to 10. *)
Definition deep_reply (k : Z) : Reply.t :=
  Reply.mk k "Level" 1 1 (if bool_decide (k = 1) then None else Some (k - 1))
           (100 + k) (100 + k) None.

Definition deep_db : Db :=
  mkDb [User.mk 1] [ex_post] (deep_reply <$> [1; 2; 3; 4; 5; 6; 7; 8; 9; 10]) [].

Definition deep_request : ReplyCreate := mkReplyCreate "This should fail" 1 (Some 10).

Definition deep_child : Reply.t :=
  Reply.mk 11 "This should fail" 1 1 (Some 10) 200 200 None.

(** A post with two threads: 1 (children 2 and 5, grandchild 4 under 2)
    and 3 (child 6, soft-deleted, and grandchild 7 under 6). *)
Definition thread_reply (k : Z) (parent : option Z) (deleted : option Z) : Reply.t :=
  Reply.mk k "reply" 1 1 parent (100 + k) (100 + k) deleted.

Definition thread_db : Db :=
  mkDb [User.mk 1] [ex_post]
       [thread_reply 1 None None; thread_reply 2 (Some 1) None; thread_reply 3 None None;
        thread_reply 4 (Some 2) None; thread_reply 5 (Some 1) None;
        thread_reply 6 (Some 3) (Some 300); thread_reply 7 (Some 6) None]
       [].

(** ** Constraints of the [votes] table as predicates on a table *)

(** No two rows of the table clash on a uniqueness constraint. *)
Fixpoint no_clash (vs : list Vote.t) : Prop :=
  match vs with
  | [] => True
  | v :: vs' => Forall (λ w, unique_clash v w = false) vs' ∧ no_clash vs'
  end.

(** Distinct primary keys, the check constraint on every row, and the
    two uniqueness constraints. *)
Definition votes_ok (vs : list Vote.t) : Prop :=
  NoDup (Vote.id <$> vs) ∧
  Forall (λ v, vote_target_constraint v = true) vs ∧
  no_clash vs.

(** ** The replies table as a forest *)

(** The shape [create_reply] gives the table: distinct keys, and every
    parent pointer names a smaller key. *)
Definition parents_older (rs : list Reply.t) : Prop :=
  NoDup (Reply.id <$> rs) ∧
  Forall (λ r, ∀ p, Reply.parent_id r = Some p → p < Reply.id r) rs.

(** The [for child in self.children] loop of [descendants], on the
    children still to visit. *)
Definition descendants_loop (fuel : nat) (db : Db) : list Reply.t → run (list Reply.t) :=
  fix loop (cs : list Reply.t) : run (list Reply.t) :=
    match cs with
    | [] => Done []
    | child :: cs' =>
      sub ← Reply_descendants fuel db child;
      rest ← loop cs';
      Done (child :: sub ++ rest)
    end.

(** Rows with a key below, or above, [k]: the room the walks up and down
    the tree have left. *)
Definition rows_below (rs : list Reply.t) (k : Z) : nat :=
  length (filter (λ x, Reply.id x < k) rs).

Definition rows_above (rs : list Reply.t) (k : Z) : nat :=
  length (filter (λ x, k < Reply.id x) rs).


(** ** Rankings by net votes *)


Definition reply_candidates (db : Db) (post_id : option Z) : list Reply.t :=
  if truthy post_id then filter (λ r, Reply.post_id r = default 0 post_id) (replies db)
  else replies db.

(** What a ranking by net votes returns when the store hands the
    selected rows out in the order [rows]: neither query has an ORDER
    BY, so that order is the store's choice. *)
Definition ranking {A} (net : A → Z) (limit : Z) (rows : list A) : list (A * Z) :=
  py_take limit (sort_by net_ge ((λ a, (a, net a)) <$> rows)).

(** * Properties *)


Ltac case_guards_in H :=
  repeat (match type of H with context [if ?b then _ else _] => destruct b end; try done).

(** ** Queries: [filter] followed by [first] *)

Section query_lemmas.
Context {A : Type} (P : A → Prop) `{!∀ x, Decision (P x)}.

Lemma head_filter_Some (l : list A) x :
  head (filter P l) = Some x → P x ∧ x ∈ l.
Proof.
  intros Hx. apply head_Some_elem_of in Hx.
  apply list_elem_of_filter in Hx. done.
Qed.

Lemma head_filter_None (l : list A) :
  head (filter P l) = None ↔ ∀ x, x ∈ l → ¬ P x.
Proof.
  rewrite head_None. split.
  - intros Hnil x Hx HP.
    assert (x ∈ filter P l) as Hin by (apply list_elem_of_filter; done).
    rewrite Hnil in Hin. by apply not_elem_of_nil in Hin.
  - intros Hall. destruct (filter P l) as [|y k] eqn:E; [done|].
    assert (y ∈ filter P l) as Hin by (rewrite E; left).
    apply list_elem_of_filter in Hin as [HP Hy]. by destruct (Hall y Hy).
Qed.

Lemma head_filter_is_Some (l : list A) x :
  x ∈ l → P x → is_Some (head (filter P l)).
Proof.
  intros Hx HP. destruct (head (filter P l)) eqn:E; [eauto|].
  rewrite head_filter_None in E. by destruct (E x Hx).
Qed.
End query_lemmas.

Section key_lemmas.
Context {A : Type} (key : A → Z).

Lemma key_inj_in (l : list A) x y :
  NoDup (key <$> l) → x ∈ l → y ∈ l → key x = key y → x = y.
Proof.
  intros Hnd Hx Hy Hk.
  apply list_elem_of_lookup in Hx as [i Hi].
  apply list_elem_of_lookup in Hy as [j Hj].
  assert ((key <$> l) !! i = Some (key x)) as Hi' by (rewrite list_lookup_fmap, Hi; done).
  assert ((key <$> l) !! j = Some (key x)) as Hj' by (rewrite list_lookup_fmap, Hj; simpl; by rewrite Hk).
  pose proof (NoDup_lookup _ _ _ _ Hnd Hi' Hj') as ->. congruence.
Qed.

Lemma head_filter_key (l : list A) x :
  NoDup (key <$> l) → x ∈ l →
  head (filter (λ y, key y = key x) l) = Some x.
Proof.
  intros Hnd Hx.
  destruct (head_filter_is_Some (λ y, key y = key x) l x Hx eq_refl) as [y Hy].
  rewrite Hy. f_equal.
  apply head_filter_Some in Hy as [Hk Hy]. by apply (key_inj_in l).
Qed.

Lemma fmap_key_update (f : A → A) (k : Z) (l : list A) i x :
  NoDup (key <$> l) → l !! i = Some x → key x = k →
  (λ y, if bool_decide (key y = k) then f y else y) <$> l = <[i := f x]> l.
Proof.
  intros Hnd Hi Hk. apply list_eq. intros j.
  rewrite list_lookup_fmap.
  destruct (decide (i = j)) as [<-|Hne].
  - rewrite list_lookup_insert_eq by (by eapply lookup_lt_Some).
    rewrite Hi. simpl. by rewrite bool_decide_eq_true_2.
  - rewrite list_lookup_insert_ne by done.
    destruct (l !! j) as [y|] eqn:Hj; [|done]. simpl.
    rewrite bool_decide_eq_false_2; [done|].
    intros Hy. apply Hne.
    assert ((key <$> l) !! i = Some k) as Hi' by (rewrite list_lookup_fmap, Hi; simpl; by rewrite Hk).
    assert ((key <$> l) !! j = Some k) as Hj' by (rewrite list_lookup_fmap, Hj; simpl; by rewrite Hy).
    by eapply NoDup_lookup.
Qed.

Lemma filter_key_id (k : Z) (l : list A) :
  k ∉ key <$> l → filter (λ y, key y ≠ k) l = l.
Proof.
  induction l as [|y l IH]; intros Hk; [done|].
  rewrite fmap_cons in Hk. apply not_elem_of_cons in Hk as [Hy Hk].
  rewrite filter_cons_True; [|congruence]. by rewrite IH.
Qed.

Lemma filter_key_delete (k : Z) (l : list A) i x :
  NoDup (key <$> l) → l !! i = Some x → key x = k →
  filter (λ y, key y ≠ k) l = delete i l.
Proof.
  revert i. induction l as [|y l IH]; intros i Hnd Hi Hk; [done|].
  rewrite fmap_cons in Hnd. apply NoDup_cons in Hnd as [Hy Hnd].
  destruct i as [|i]; simpl in *.
  - injection Hi as ->. rewrite filter_cons_False; [|by intros []].
    apply filter_key_id. by rewrite <- Hk.
  - rewrite filter_cons_True.
    + f_equal. by apply IH.
    + intros Heq. apply Hy. rewrite Heq, <- Hk.
      apply list_elem_of_fmap. exists x. split; [done|].
      by eapply list_elem_of_lookup_2.
Qed.
End key_lemmas.

(** ** The vote ledger *)

Lemma valid_vote_type t :
  bool_decide (VoteType_value t ∈ [VoteType_value upvote; VoteType_value downvote]) = true.
Proof. apply bool_decide_eq_true. destruct t; set_solver. Qed.

Lemma VoteType_of_value_value t : VoteType_of_value (VoteType_value t) = Some t.
Proof. by destruct t. Qed.

Lemma VoteType_value_inj t1 t2 : VoteType_value t1 = VoteType_value t2 → t1 = t2.
Proof. by destruct t1, t2. Qed.

Lemma create_vote_on_checked snap cur now u t post_id reply_id :
  target_ok snap post_id reply_id →
  create_vote_on snap cur now u (VoteType_value t) post_id reply_id =
  match get_user_vote snap u post_id reply_id with
  | Some existing_vote =>
    if bool_decide (Vote.vote_type existing_vote = t) then
      Ok (set_votes (delete_vote_row (Vote.id existing_vote) (votes cur)) cur, None)
    else
      let vs := update_vote_type (Vote.id existing_vote) t now (votes cur) in
      match head (filter (λ v, Vote.id v = Vote.id existing_vote) vs) with
      | Some refreshed => Ok (set_votes vs cur, Some refreshed)
      | None => Raise StaleDataError
      end
  | None =>
    match insert_vote (votes cur)
            (Vote.mk (next_id (Vote.id <$> votes cur)) u post_id reply_id t now now) with
    | Ok vs => Ok (set_votes vs cur,
                   Some (Vote.mk (next_id (Vote.id <$> votes cur)) u post_id reply_id t now now))
    | Raise e => Raise e
    end
  end.
Proof.
  intros Hok. unfold create_vote_on.
  rewrite valid_vote_type. simpl.
  rewrite VoteType_of_value_value.
  assert (Hsame : ∀ e, bool_decide (VoteType_value (Vote.vote_type e) = VoteType_value t)
                       = bool_decide (Vote.vote_type e = t)).
  { intros e. apply bool_decide_ext. split; [apply VoteType_value_inj | by intros ->]. }
  destruct Hok as [(p & -> & -> & Hp & Hex) | (r & -> & -> & Hr & Hex)]; simpl.
  - rewrite Hex. simpl.
    replace (p =? 0) with false by (symmetry; by apply Z.eqb_neq). simpl.
    destruct (get_user_vote snap u (Some p) None) as [e|]; [|done].
    by rewrite Hsame.
  - rewrite Hex. simpl.
    replace (r =? 0) with false by (symmetry; by apply Z.eqb_neq). simpl.
    destruct (get_user_vote snap u None (Some r)) as [e|]; [|done].
    by rewrite Hsame.
Qed.

Lemma get_user_vote_Some db u post_id reply_id e :
  get_user_vote db u post_id reply_id = Some e →
  e ∈ votes db ∧ Vote.user_id e = u ∧
  (truthy post_id = true ∧ Vote.post_id e = post_id ∨
   truthy post_id = false ∧ truthy reply_id = true ∧ Vote.reply_id e = reply_id).
Proof.
  unfold get_user_vote. intros H.
  destruct (truthy post_id).
  - apply head_filter_Some in H as [[? ?] ?]. split_and!; [done..|]. by left.
  - destruct (truthy reply_id); [|done].
    apply head_filter_Some in H as [[? ?] ?]. split_and!; [done..|]. by right.
Qed.

Lemma get_user_vote_None_no_clash db u post_id reply_id v :
  (∃ p, post_id = Some p ∧ reply_id = None ∧ p ≠ 0) ∨
  (∃ r, post_id = None ∧ reply_id = Some r ∧ r ≠ 0) →
  get_user_vote db u post_id reply_id = None →
  Vote.user_id v = u → Vote.post_id v = post_id → Vote.reply_id v = reply_id →
  existsb (unique_clash v) (votes db) = false.
Proof.
  intros Hone Hnone Hu Hp Hr.
  apply not_true_is_false. intros Hex.
  apply existsb_exists in Hex as (w & Hw & Hclash).
  apply list_elem_of_In in Hw.
  unfold unique_clash in Hclash.
  apply andb_prop in Hclash as [Hu' Hclash]. apply bool_decide_eq_true in Hu'.
  unfold get_user_vote in Hnone.
  rewrite Hp, Hr in Hclash.
  destruct Hone as [(p & -> & -> & Hne) | (r & -> & -> & Hne)]; simpl in *.
  - replace (p =? 0) with false in Hnone by (symmetry; by apply Z.eqb_neq).
    simpl in Hnone. rewrite head_filter_None in Hnone. apply (Hnone w Hw).
    destruct (Vote.post_id w) as [b|] eqn:Eb; simpl in *; [|done].
    rewrite orb_false_r in Hclash. apply bool_decide_eq_true in Hclash.
    split; congruence.
  - replace (r =? 0) with false in Hnone by (symmetry; by apply Z.eqb_neq).
    simpl in Hnone. rewrite head_filter_None in Hnone. apply (Hnone w Hw).
    destruct (Vote.reply_id w) as [b|] eqn:Eb; simpl in *; [|done].
    apply bool_decide_eq_true in Hclash.
    split; congruence.
Qed.

Lemma create_vote_insert db now u t post_id reply_id :
  target_ok db post_id reply_id →
  get_user_vote db u post_id reply_id = None →
  create_vote db now u (VoteType_value t) post_id reply_id =
  Ok (set_votes (votes db ++ [Vote.mk (next_id (Vote.id <$> votes db)) u post_id reply_id
                                      t now now]) db,
      Some (Vote.mk (next_id (Vote.id <$> votes db)) u post_id reply_id t now now)).
Proof.
  intros Hok Hnone. unfold create_vote.
  rewrite create_vote_on_checked by done. rewrite Hnone.
  unfold insert_vote.
  assert (Htargets : (∃ p, post_id = Some p ∧ reply_id = None ∧ p ≠ 0) ∨
                     (∃ r, post_id = None ∧ reply_id = Some r ∧ r ≠ 0)).
  { destruct Hok as [(p & ? & ? & ? & _) | (r & ? & ? & ? & _)]; [left|right]; eauto. }
  rewrite (get_user_vote_None_no_clash db u post_id reply_id) by done.
  destruct Htargets as [(p & -> & -> & _) | (r & -> & -> & _)]; done.
Qed.

Lemma create_vote_remove db now u t post_id reply_id e :
  NoDup (Vote.id <$> votes db) →
  target_ok db post_id reply_id →
  get_user_vote db u post_id reply_id = Some e →
  Vote.vote_type e = t →
  ∃ i, votes db !! i = Some e ∧
       create_vote db now u (VoteType_value t) post_id reply_id =
       Ok (set_votes (delete i (votes db)) db, None).
Proof.
  intros Hnd Hok Hsome Ht. unfold create_vote.
  rewrite create_vote_on_checked by done. rewrite Hsome.
  rewrite bool_decide_eq_true_2 by done.
  apply get_user_vote_Some in Hsome as (He & _).
  apply list_elem_of_lookup in He as [i Hi]. exists i. split; [done|].
  unfold delete_vote_row.
  by rewrite (filter_key_delete Vote.id (Vote.id e) (votes db) i e).
Qed.

Lemma create_vote_switch db now u t post_id reply_id e :
  NoDup (Vote.id <$> votes db) →
  target_ok db post_id reply_id →
  get_user_vote db u post_id reply_id = Some e →
  Vote.vote_type e ≠ t →
  ∃ i, votes db !! i = Some e ∧
       create_vote db now u (VoteType_value t) post_id reply_id =
       Ok (set_votes (<[i := set_vote_type t now e]> (votes db)) db,
           Some (set_vote_type t now e)).
Proof.
  intros Hnd Hok Hsome Ht. unfold create_vote.
  rewrite create_vote_on_checked by done. rewrite Hsome.
  rewrite bool_decide_eq_false_2 by done.
  apply get_user_vote_Some in Hsome as (He & _).
  apply list_elem_of_lookup in He as [i Hi]. exists i. split; [done|].
  cbv zeta. unfold update_vote_type.
  rewrite (fmap_key_update Vote.id (set_vote_type t now) (Vote.id e) (votes db) i e)
    by done.
  assert (Hhead : head (filter (λ v, Vote.id v = Vote.id e)
                               (<[i := set_vote_type t now e]> (votes db)))
                  = Some (set_vote_type t now e)).
  { apply (head_filter_key Vote.id _ (set_vote_type t now e)).
    - rewrite list_fmap_insert. simpl.
      rewrite list_insert_id; [done|]. by rewrite list_lookup_fmap, Hi.
    - apply list_elem_of_lookup. exists i.
      apply list_lookup_insert_eq. by eapply lookup_lt_Some. }
  by rewrite Hhead.
Qed.

Lemma vote_on_post_create_vote db now p t u :
  post_exists db p = true →
  vote_on_post db now p (mkVoteCreate t u) =
  match create_vote db now u (VoteType_value t) (Some p) None with
  | Ok (db', None) => (db', VoteRemovalResponse t)
  | Ok (db', Some v) => (db', VoteResponse v)
  | Raise e => (db, vote_handler_except e)
  end.
Proof. intros Hex. unfold vote_on_post, vote_on_post_on. by rewrite Hex. Qed.

Lemma vote_on_reply_create_vote db now r t u :
  reply_exists db r = true →
  vote_on_reply db now r (mkVoteCreate t u) =
  match create_vote db now u (VoteType_value t) None (Some r) with
  | Ok (db', None) => (db', VoteRemovalResponse t)
  | Ok (db', Some v) => (db', VoteResponse v)
  | Raise e => (db, vote_handler_except e)
  end.
Proof. intros Hex. unfold vote_on_reply, vote_on_reply_on. by rewrite Hex. Qed.

Lemma handler_answers_create_vote db now u t post_id reply_id :
  target_ok db post_id reply_id →
  handler_answers db now u t post_id reply_id
    match create_vote db now u (VoteType_value t) post_id reply_id with
    | Ok (db', None) => (db', VoteRemovalResponse t)
    | Ok (db', Some v) => (db', VoteResponse v)
    | Raise e => (db, vote_handler_except e)
    end.
Proof.
  intros [(p & -> & -> & _ & Hex) | (r & -> & -> & _ & Hex)]; split; intros x Hx;
    try done; injection Hx as <-.
  - by apply vote_on_post_create_vote.
  - by apply vote_on_reply_create_vote.
Qed.

Lemma foldr_max_ge (ids : list Z) x : x ∈ ids → x ≤ foldr Z.max 0 ids.
Proof.
  induction ids as [|y ids IH]; intros Hx; [by apply not_elem_of_nil in Hx|].
  apply elem_of_cons in Hx as [->|Hx]; simpl; [lia|].
  specialize (IH Hx). lia.
Qed.

Lemma next_id_fresh (ids : list Z) : next_id ids ∉ ids.
Proof. intros Hin. apply foldr_max_ge in Hin. unfold next_id in Hin. lia. Qed.

Lemma not_elem_of_delete_key {A} (key : A → Z) (l : list A) i x :
  NoDup (key <$> l) → l !! i = Some x → x ∉ delete i l.
Proof.
  intros Hnd Hi Hin.
  pose proof (f_equal (fmap key) (take_drop_middle _ _ _ Hi)) as Hsplit.
  rewrite fmap_app, fmap_cons in Hsplit. rewrite <- Hsplit in Hnd.
  apply NoDup_app in Hnd as (_ & Hdisj & Hnd2).
  apply NoDup_cons in Hnd2 as [Hnotin _].
  rewrite delete_take_drop in Hin.
  apply elem_of_app in Hin as [Hin|Hin].
  - apply (Hdisj (key x)); [by apply list_elem_of_fmap_2|left].
  - apply Hnotin. by apply list_elem_of_fmap_2.
Qed.

(** C1. [create_vote] is a three-way toggle keyed by the caller's stored
    vote for the exact (voter, target) pair.  With no such vote the
    [votes] table afterwards is the old one with one row appended: a
    row of the given voter, target and polarity under a key no stored
    vote has, and that row is returned.  With a stored vote of the same
    polarity the table afterwards is the old one without that row, one
    row shorter, [create_vote] returns [None] and the handler answers
    with a removal response that carries the removed polarity.  With a
    stored vote of the other polarity the table afterwards has that
    very row overwritten in place (same index, key, voter, target and
    creation time, the new polarity), every other row and the length
    are as before, and the updated row is returned.  The other tables
    are untouched in all three cases. *)
Theorem create_vote_three_way_toggle db now u t post_id reply_id :
  NoDup (Vote.id <$> votes db) →
  target_ok db post_id reply_id →
  (∀ e, get_user_vote db u post_id reply_id = Some e →
        e ∈ votes db ∧ Vote.user_id e = u ∧
        (post_id ≠ None → Vote.post_id e = post_id) ∧
        (reply_id ≠ None → Vote.reply_id e = reply_id)) ∧
  (get_user_vote db u post_id reply_id = None →
   ∃ v db',
     Vote.user_id v = u ∧ Vote.post_id v = post_id ∧ Vote.reply_id v = reply_id ∧
     Vote.vote_type v = t ∧ Vote.created_at v = now ∧
     (Vote.id v ∉ Vote.id <$> votes db) ∧
     create_vote db now u (VoteType_value t) post_id reply_id = Ok (db', Some v) ∧
     db' = set_votes (votes db ++ [v]) db ∧
     votes db' = votes db ++ [v] ∧
     users db' = users db ∧ posts db' = posts db ∧ replies db' = replies db) ∧
  (∀ e, get_user_vote db u post_id reply_id = Some e → Vote.vote_type e = t →
   ∃ i db',
     votes db !! i = Some e ∧
     create_vote db now u (VoteType_value t) post_id reply_id = Ok (db', None) ∧
     db' = set_votes (delete i (votes db)) db ∧
     votes db' = delete i (votes db) ∧
     S (length (votes db')) = length (votes db) ∧
     (e ∉ votes db') ∧
     users db' = users db ∧ posts db' = posts db ∧ replies db' = replies db ∧
     handler_answers db now u t post_id reply_id
       (db', VoteRemovalResponse (Vote.vote_type e))) ∧
  (∀ e, get_user_vote db u post_id reply_id = Some e → Vote.vote_type e ≠ t →
   ∃ i db',
     votes db !! i = Some e ∧
     create_vote db now u (VoteType_value t) post_id reply_id
       = Ok (db', Some (set_vote_type t now e)) ∧
     db' = set_votes (<[i := set_vote_type t now e]> (votes db)) db ∧
     votes db' = <[i := set_vote_type t now e]> (votes db) ∧
     votes db' !! i = Some (set_vote_type t now e) ∧
     (∀ j, j ≠ i → votes db' !! j = votes db !! j) ∧
     length (votes db') = length (votes db) ∧
     Vote.id (set_vote_type t now e) = Vote.id e ∧
     Vote.vote_type (set_vote_type t now e) = t ∧
     Vote.user_id (set_vote_type t now e) = Vote.user_id e ∧
     Vote.post_id (set_vote_type t now e) = Vote.post_id e ∧
     Vote.reply_id (set_vote_type t now e) = Vote.reply_id e ∧
     Vote.created_at (set_vote_type t now e) = Vote.created_at e ∧
     users db' = users db ∧ posts db' = posts db ∧ replies db' = replies db).
Proof.
  intros Hnd Hok. split_and!.
  - intros e He. apply get_user_vote_Some in He as (Hin & Hu & Ht).
    split_and!; [done..| |].
    + intros Hp. destruct Ht as [[_ ?]|[Hf _]]; [done|].
      destruct Hok as [(p & -> & _ & Hp0 & _)|(r & -> & _)]; [|done].
      simpl in Hf. apply negb_false_iff, Z.eqb_eq in Hf. done.
    + intros Hr. destruct Ht as [[Htr _]|[_ [_ ?]]]; [|done].
      destruct Hok as [(p & _ & -> & _)|(r & -> & _)]; done.
  - intros Hnone.
    exists (Vote.mk (next_id (Vote.id <$> votes db)) u post_id reply_id t now now),
           (set_votes (votes db ++ [Vote.mk (next_id (Vote.id <$> votes db)) u post_id
                                            reply_id t now now]) db).
    split_and!; try done.
    + apply next_id_fresh.
    + by apply create_vote_insert.
  - intros e He Ht.
    destruct (create_vote_remove db now u t post_id reply_id e) as (i & Hi & Hcv); [done..|].
    exists i, (set_votes (delete i (votes db)) db). split_and!; try done.
    + simpl. rewrite length_delete by done.
      apply lookup_lt_Some in Hi. lia.
    + simpl. by apply (not_elem_of_delete_key Vote.id).
    + pose proof (handler_answers_create_vote db now u t post_id reply_id Hok) as Hh.
      rewrite Hcv in Hh. by rewrite Ht.
  - intros e He Ht.
    destruct (create_vote_switch db now u t post_id reply_id e) as (i & Hi & Hcv); [done..|].
    exists i, (set_votes (<[i := set_vote_type t now e]> (votes db)) db).
    split_and!; try done.
    + simpl. apply list_lookup_insert_eq. by eapply lookup_lt_Some.
    + intros j Hj. simpl. by apply list_lookup_insert_ne.
    + simpl. apply length_insert.
Qed.

Lemma create_vote_three_way_toggle_witness :
  NoDup (Vote.id <$> votes ex_db) ∧ target_ok ex_db (Some 1) None ∧
  ∃ db', create_vote ex_db 50 2 "upvote" (Some 1) None = Ok (db', None) ∧
         votes ex_db = [ex_vote] ∧ votes db' = [].
Proof.
  assert (Hnd : NoDup (Vote.id <$> votes ex_db)) by compute_done.
  assert (Hok : target_ok ex_db (Some 1) None).
  { left. exists 1. split_and!; [done..|reflexivity]. }
  split_and!; [done..|].
  destruct (create_vote_three_way_toggle ex_db 50 2 upvote (Some 1) None Hnd Hok)
    as (_ & _ & Hremove & _).
  destruct (Hremove ex_vote eq_refl eq_refl) as (i & db' & Hi & Hcv & _ & Hvotes & _).
  exists db'. split_and!; [exact Hcv|done|].
  rewrite Hvotes. destruct i as [|i]; [done|]. by destruct i.
Defined.

(** *** Soft-deleted replies as vote targets *)

Lemma exists_by_key {A} (key : A → Z) (l : list A) (k : Z) :
  is_Some (head (filter (λ x, key x = k) l)) ↔ k ∈ key <$> l.
Proof.
  split.
  - intros [x Hx]. apply head_filter_Some in Hx as [<- Hx].
    by apply list_elem_of_fmap_2.
  - intros Hk. apply list_elem_of_fmap in Hk as (x & -> & Hx).
    by apply (head_filter_is_Some (λ y, key y = key x) l x).
Qed.




(** *** The check-then-act race *)

(** C8 (as the code has it). [create_vote] makes one attempt.  When the
    read saw no vote of the voter on the target and, by the time of the
    write, the store holds one, the uniqueness constraint rejects the
    insert and the [IntegrityError] leaves [create_vote] at once; the
    handler turns it into the 500 response.  There is no second read and
    no retry. *)
Theorem create_vote_unique_violation_surfaces snap cur now u t post_id reply_id :
  target_ok snap post_id reply_id →
  get_user_vote snap u post_id reply_id = None →
  get_user_vote cur u post_id reply_id ≠ None →
  create_vote_on snap cur now u (VoteType_value t) post_id reply_id = Raise IntegrityError ∧
  (∀ p, post_id = Some p →
        vote_on_post_on snap cur now p (mkVoteCreate t u) =
        (cur, VoteHTTPException 500 "Failed to process vote")) ∧
  (∀ r, reply_id = Some r →
        vote_on_reply_on snap cur now r (mkVoteCreate t u) =
        (cur, VoteHTTPException 500 "Failed to process vote")).
Proof.
  intros Hok Hsnap Hcur.
  assert (Hraise : create_vote_on snap cur now u (VoteType_value t) post_id reply_id
                   = Raise IntegrityError).
  { rewrite create_vote_on_checked by done. rewrite Hsnap.
    destruct (get_user_vote cur u post_id reply_id) as [w|] eqn:Hw; [|done].
    apply get_user_vote_Some in Hw as (Hin & Hu & Htarget).
    unfold insert_vote.
    assert (Hclash : existsb (unique_clash
              (Vote.mk (next_id (Vote.id <$> votes cur)) u post_id reply_id t now now))
              (votes cur) = true).
    { apply existsb_exists. exists w. split; [by apply list_elem_of_In|].
      unfold unique_clash. simpl. rewrite bool_decide_eq_true_2 by done. simpl.
      destruct Hok as [(p & -> & -> & _) | (r & -> & -> & _)];
        destruct Htarget as [[Ht Hw]|(Hf & Ht & Hw)]; try done; rewrite Hw.
      - by rewrite bool_decide_eq_true_2.
      - rewrite bool_decide_eq_true_2 by done. by destruct (Vote.post_id w). }
    rewrite Hclash.
    destruct Hok as [(p & -> & -> & _) | (r & -> & -> & _)]; done. }
  split_and!; [done| |].
  - intros p ->. unfold vote_on_post_on.
    destruct Hok as [(p' & [= <-] & -> & _ & Hex) | (r & ? & _)]; [|done].
    rewrite Hex. cbn [negb vc_user_id vc_vote_type]. rewrite Hraise. reflexivity.
  - intros r ->. unfold vote_on_reply_on.
    destruct Hok as [(p & _ & ? & _) | (r' & -> & [= <-] & _ & Hex)]; [done|].
    rewrite Hex. cbn [negb vc_user_id vc_vote_type]. rewrite Hraise. reflexivity.
Qed.

Lemma create_vote_unique_violation_surfaces_witness :
  target_ok ex_db (Some 1) None ∧
  get_user_vote ex_db 3 (Some 1) None = None ∧
  get_user_vote race_cur 3 (Some 1) None ≠ None ∧
  create_vote_on ex_db race_cur 51 3 "upvote" (Some 1) None = Raise IntegrityError.
Proof.
  assert (Hok : target_ok ex_db (Some 1) None).
  { left. exists 1. split_and!; [done..|reflexivity]. }
  assert (Hcur : get_user_vote race_cur 3 (Some 1) None ≠ None) by (by vm_compute).
  split_and!; [done..|].
  exact (proj1 (create_vote_unique_violation_surfaces
                  ex_db race_cur 51 3 upvote (Some 1) None Hok eq_refl Hcur)).
Defined.

(** C8 (as claimed) fails: the first session's cast commits, the second
    session, which read the store before that commit, gets the
    [IntegrityError] on its first and only attempt, and its caller the
    500 response. *)
Lemma create_vote_race_not_retried :
  create_vote ex_db 50 3 "upvote" (Some 1) None = Ok (race_cur, Some race_vote) ∧
  get_user_vote ex_db 3 (Some 1) None = None ∧
  create_vote_on ex_db race_cur 51 3 "upvote" (Some 1) None = Raise IntegrityError ∧
  vote_on_post_on ex_db race_cur 51 1 (mkVoteCreate upvote 3) =
    (race_cur, VoteHTTPException 500 "Failed to process vote").
Proof. split_and!; by vm_compute. Qed.

(** *** Entity-level aggregates *)

Lemma entity_count_zero m vs : entity_count m vs = 0.
Proof.
  unfold entity_count.
  induction vs as [|v vs IH]; [done|].
  rewrite filter_cons_False; [done|]. simpl. done.
Qed.

(** C4 is broken by the code.  The properties on [Post] and [Reply]
    compare the enum member held by a row with the string value of a
    member, which is never equal, so they are 0 on every store; on
    [ex_db], which holds one upvote on the post, the ledger aggregation
    says 1. *)
Theorem entity_vote_counts_ignore_votes db p r :
  Post_upvote_count db p = 0 ∧ Post_downvote_count db p = 0 ∧ Post_net_votes db p = 0 ∧
  Reply_upvote_count db r = 0 ∧ Reply_downvote_count db r = 0 ∧ Reply_net_votes db r = 0 ∧
  Post_upvote_count ex_db ex_post = 0 ∧
  upvote_count (get_vote_counts_for_post ex_db (Post.id ex_post)) = 1 ∧
  Post_net_votes ex_db ex_post = 0 ∧
  net_votes (get_vote_counts_for_post ex_db (Post.id ex_post)) = 1.
Proof.
  unfold Post_net_votes, Reply_net_votes, Post_upvote_count, Post_downvote_count,
    Reply_upvote_count, Reply_downvote_count.
  rewrite !entity_count_zero. split_and!; done.
Qed.
(** *** Aggregation *)

Lemma tally_filter on target t vs :
  Z.of_nat (length (filter (λ v, Vote.vote_type v = t)
                           (filter (λ v, on v = Some target) vs)))
  = tally on target t vs.
Proof.
  induction vs as [|v vs IH]; [done|]. simpl tally. rewrite <- IH.
  destruct (decide (on v = Some target)) as [Hon|Hon].
  - rewrite (filter_cons_True (λ v, on v = Some target)) by done.
    destruct (decide (Vote.vote_type v = t)) as [Ht|Ht].
    + rewrite filter_cons_True by done. rewrite bool_decide_eq_true_2 by done.
      simpl length. lia.
    + rewrite filter_cons_False by done.
      rewrite bool_decide_eq_false_2 by (by intros [_ ?]). lia.
  - rewrite (filter_cons_False (λ v, on v = Some target)) by done.
    rewrite bool_decide_eq_false_2 by (by intros [? _]). lia.
Qed.

Lemma get_vote_counts_for_post_tally db pid :
  get_vote_counts_for_post db pid =
  mkCounts pid (tally Vote.post_id pid upvote (votes db))
               (tally Vote.post_id pid downvote (votes db))
               (tally Vote.post_id pid upvote (votes db)
                - tally Vote.post_id pid downvote (votes db))
               (tally Vote.post_id pid upvote (votes db)
                + tally Vote.post_id pid downvote (votes db)).
Proof.
  unfold get_vote_counts_for_post, count_votes. cbv zeta.
  by rewrite !(tally_filter Vote.post_id).
Qed.

Lemma get_vote_counts_for_reply_tally db rid :
  get_vote_counts_for_reply db rid =
  mkCounts rid (tally Vote.reply_id rid upvote (votes db))
               (tally Vote.reply_id rid downvote (votes db))
               (tally Vote.reply_id rid upvote (votes db)
                - tally Vote.reply_id rid downvote (votes db))
               (tally Vote.reply_id rid upvote (votes db)
                + tally Vote.reply_id rid downvote (votes db)).
Proof.
  unfold get_vote_counts_for_reply, count_votes. cbv zeta.
  by rewrite !(tally_filter Vote.reply_id).
Qed.

Section tally_updates.
Context (on : Vote.t → option Z) (target : Z) (t : VoteType).

Lemma tally_app l1 l2 :
  tally on target t (l1 ++ l2) = tally on target t l1 + tally on target t l2.
Proof. induction l1 as [|v l1 IH]; simpl; lia. Qed.

Lemma tally_split l i e :
  l !! i = Some e →
  tally on target t l
  = tally on target t (take i l) + tally on target t [e] + tally on target t (drop (S i) l).
Proof.
  intros Hi. rewrite <- (take_drop_middle l i e Hi) at 1.
  rewrite tally_app. simpl. lia.
Qed.

Lemma tally_delete l i e :
  l !! i = Some e →
  tally on target t (delete i l) = tally on target t l - tally on target t [e].
Proof.
  intros Hi. rewrite (tally_split l i e Hi), delete_take_drop, tally_app. lia.
Qed.

Lemma tally_insert l i e e' :
  l !! i = Some e →
  tally on target t (<[i := e']> l)
  = tally on target t l - tally on target t [e] + tally on target t [e'].
Proof.
  intros Hi. rewrite (tally_split l i e Hi).
  rewrite insert_take_drop by (by eapply lookup_lt_Some).
  rewrite tally_app. simpl. lia.
Qed.
End tally_updates.

(** A cast touches the [votes] table only and keeps its keys distinct. *)
Lemma create_vote_frame db now u vt post_id reply_id db' res :
  create_vote db now u vt post_id reply_id = Ok (db', res) →
  users db' = users db ∧ posts db' = posts db ∧ replies db' = replies db ∧
  (NoDup (Vote.id <$> votes db) → NoDup (Vote.id <$> votes db')).
Proof.
  unfold create_vote, create_vote_on. intros H.
  case_guards_in H.
  destruct (VoteType_of_value vt); [|done].
  destruct (get_user_vote db u post_id reply_id) as [e|].
  - destruct (bool_decide _).
    + injection H as <- _. split_and!; [done..|]. simpl. intros Hnd.
      eapply sublist_NoDup; [exact Hnd|].
      apply fmap_sublist, sublist_filter.
    + cbv zeta in H. destruct (head _); [|done].
      injection H as <- _. split_and!; [done..|]. simpl. intros Hnd.
      unfold update_vote_type. rewrite <- list_fmap_compose.
      erewrite list_fmap_ext; [exact Hnd|].
      intros i x _. simpl. by destruct (bool_decide _).
  - unfold insert_vote in H.
    case_guards_in H.
    injection H as <- _. split_and!; [done..|]. simpl. intros Hnd.
    rewrite fmap_app. apply NoDup_app. split_and!; [done| |apply NoDup_singleton].
    intros x Hx Hx'. apply list_elem_of_singleton in Hx'. subst x.
    by apply next_id_fresh in Hx.
Qed.

Lemma apply_cast_frame db c :
  users (apply_cast db c) = users db ∧ posts (apply_cast db c) = posts db ∧
  replies (apply_cast db c) = replies db ∧
  (NoDup (Vote.id <$> votes db) → NoDup (Vote.id <$> votes (apply_cast db c))).
Proof.
  unfold apply_cast.
  destruct (create_vote _ _ _ _ _ _) as [[db' res]|e] eqn:E; [|done].
  by eapply create_vote_frame.
Qed.

Lemma target_ok_frame db db' post_id reply_id :
  posts db' = posts db → replies db' = replies db →
  target_ok db post_id reply_id → target_ok db' post_id reply_id.
Proof.
  unfold target_ok, post_exists, reply_exists. intros -> ->. done.
Qed.

Lemma tally_one on k t v :
  on v = Some k →
  tally on k t [v] = if bool_decide (Vote.vote_type v = t) then 1 else 0.
Proof.
  intros Hon. simpl.
  destruct (decide (Vote.vote_type v = t)).
  - rewrite !bool_decide_eq_true_2 by done. lia.
  - rewrite !bool_decide_eq_false_2; [lia|done|by intros [_ ?]].
Qed.

Lemma apply_cast_tallies on k db now u t post_id reply_id :
  NoDup (Vote.id <$> votes db) →
  target_ok db post_id reply_id →
  counted_on on k post_id reply_id →
  tallies on k (apply_cast db (mkCast now u (VoteType_value t) post_id reply_id))
  = expect_after (Vote.vote_type <$> get_user_vote db u post_id reply_id) t (tallies on k db).
Proof.
  intros Hnd Hok Hon. unfold apply_cast, tallies. simpl.
  assert (Hfound : ∀ e, get_user_vote db u post_id reply_id = Some e → on e = Some k).
  { intros e He. apply get_user_vote_Some in He as (_ & _ & Ht).
    destruct Hok as [(p & -> & -> & Hp & _) | (r & -> & -> & Hr & _)];
      destruct Hon as [[Hk Hcol]|[Hk Hcol]]; try done; rewrite Hcol;
      destruct Ht as [[Htr He]|(Hf & Htr & He)]; try done; congruence. }
  destruct (get_user_vote db u post_id reply_id) as [e|] eqn:He; simpl.
  - specialize (Hfound e eq_refl).
    destruct (decide (Vote.vote_type e = t)) as [Ht|Ht].
    + destruct (create_vote_remove db now u t post_id reply_id e) as (i & Hi & ->);
        [done..|]. simpl.
      rewrite !(tally_delete on k _ _ i e Hi), !(tally_one on k _ e Hfound).
      rewrite (bool_decide_eq_true_2 (Vote.vote_type e = t)) by done.
      subst t. destruct (Vote.vote_type e); simpl; f_equal; lia.
    + destruct (create_vote_switch db now u t post_id reply_id e) as (i & Hi & ->);
        [done..|]. simpl.
      rewrite !(tally_insert on k _ _ i e _ Hi), !(tally_one on k _ e Hfound).
      rewrite !(tally_one on k _ (set_vote_type t now e)).
      2,3: (destruct Hon as [[_ Hcol]|[_ Hcol]]; rewrite Hcol; simpl;
            by rewrite <- Hcol).
      rewrite (bool_decide_eq_false_2 (Vote.vote_type e = t)) by done. simpl.
      destruct (Vote.vote_type e), t; simpl; try done; f_equal; lia.
  - rewrite create_vote_insert by done. simpl.
    rewrite !tally_app, !(tally_one on k).
    2,3: (destruct Hon as [[Hk Hcol]|[Hk Hcol]]; by rewrite Hcol).
    simpl. destruct t; simpl; f_equal; lia.
Qed.

Lemma track_tallies on k post_id reply_id cs : ∀ db db' c',
  NoDup (Vote.id <$> votes db) →
  target_ok db post_id reply_id →
  counted_on on k post_id reply_id →
  track db post_id reply_id cs (tallies on k db) = (db', c') →
  db' = apply_casts db ((λ x, mkCast x.1.1 x.1.2 (VoteType_value x.2) post_id reply_id) <$> cs)
  ∧ c' = tallies on k db'.
Proof.
  induction cs as [|[[now u] t] cs IH]; intros db db' c' Hnd Hok Hon Htrack.
  - simpl in Htrack. by injection Htrack as <- <-.
  - simpl in Htrack. rewrite <- (apply_cast_tallies on k db now u t) in Htrack by done.
    pose proof (apply_cast_frame db (mkCast now u (VoteType_value t) post_id reply_id))
      as (_ & Hp & Hr & Hnd').
    apply IH in Htrack; [done|by apply Hnd'| |done].
    by eapply target_ok_frame.
Qed.
(** C3. The vote counts of a target are recounts of the stored rows:
    after any sequence of casts, the dictionary of
    [get_vote_counts_for_post] (and of [get_vote_counts_for_reply]) holds
    the number of upvote rows, the number of downvote rows, their
    difference and their sum, each number being the row-by-row tally of
    the table at that moment.  An expectation kept by hand across the
    casts on one target (plus one on a new vote, minus one on a removal,
    a shift on a switch), started at the counts before the first cast,
    ends at the counts reported after the last. *)
Theorem vote_counts_are_recounts db cs :
  (∀ pid,
     get_vote_counts_for_post (apply_casts db cs) pid =
     mkCounts pid
       (tally Vote.post_id pid upvote (votes (apply_casts db cs)))
       (tally Vote.post_id pid downvote (votes (apply_casts db cs)))
       (tally Vote.post_id pid upvote (votes (apply_casts db cs))
        - tally Vote.post_id pid downvote (votes (apply_casts db cs)))
       (tally Vote.post_id pid upvote (votes (apply_casts db cs))
        + tally Vote.post_id pid downvote (votes (apply_casts db cs)))) ∧
  (∀ rid,
     get_vote_counts_for_reply (apply_casts db cs) rid =
     mkCounts rid
       (tally Vote.reply_id rid upvote (votes (apply_casts db cs)))
       (tally Vote.reply_id rid downvote (votes (apply_casts db cs)))
       (tally Vote.reply_id rid upvote (votes (apply_casts db cs))
        - tally Vote.reply_id rid downvote (votes (apply_casts db cs)))
       (tally Vote.reply_id rid upvote (votes (apply_casts db cs))
        + tally Vote.reply_id rid downvote (votes (apply_casts db cs)))) ∧
  (∀ p steps db' c',
     NoDup (Vote.id <$> votes db) → target_ok db (Some p) None →
     track db (Some p) None steps
       (upvote_count (get_vote_counts_for_post db p),
        downvote_count (get_vote_counts_for_post db p)) = (db', c') →
     c' = (upvote_count (get_vote_counts_for_post db' p),
           downvote_count (get_vote_counts_for_post db' p))) ∧
  (∀ r steps db' c',
     NoDup (Vote.id <$> votes db) → target_ok db None (Some r) →
     track db None (Some r) steps
       (upvote_count (get_vote_counts_for_reply db r),
        downvote_count (get_vote_counts_for_reply db r)) = (db', c') →
     c' = (upvote_count (get_vote_counts_for_reply db' r),
           downvote_count (get_vote_counts_for_reply db' r))).
Proof.
  split_and!.
  - intros pid. apply get_vote_counts_for_post_tally.
  - intros rid. apply get_vote_counts_for_reply_tally.
  - intros p steps db' c' Hnd Hok Htrack.
    rewrite !get_vote_counts_for_post_tally in *. simpl in *.
    apply (track_tallies Vote.post_id p) in Htrack as [_ ->]; [done..|].
    by left.
  - intros r steps db' c' Hnd Hok Htrack.
    rewrite !get_vote_counts_for_reply_tally in *. simpl in *.
    apply (track_tallies Vote.reply_id r) in Htrack as [_ ->]; [done..|].
    by right.
Qed.

Lemma vote_counts_are_recounts_witness :
  NoDup (Vote.id <$> votes ex_db) ∧ target_ok ex_db (Some 1) None ∧
  (track ex_db (Some 1) None [(50, 3, upvote); (51, 3, upvote); (52, 2, downvote)] (1, 0)).2
  = (0, 1).
Proof.
  assert (Hnd : NoDup (Vote.id <$> votes ex_db)) by compute_done.
  assert (Hok : target_ok ex_db (Some 1) None).
  { left. exists 1. split_and!; [done..|reflexivity]. }
  split_and!; [done..|].
  destruct (vote_counts_are_recounts ex_db []) as (_ & _ & Htrack & _).
  rewrite (Htrack 1 [(50, 3, upvote); (51, 3, upvote); (52, 2, downvote)]
             (track ex_db (Some 1) None
                    [(50, 3, upvote); (51, 3, upvote); (52, 2, downvote)] (1, 0)).1
             (track ex_db (Some 1) None
                    [(50, 3, upvote); (51, 3, upvote); (52, 2, downvote)] (1, 0)).2
             Hnd Hok).
  - by vm_compute.
  - by vm_compute.
Defined.

(** ** The reply tree *)

(** *** Navigation of a reply that is not found *)

(** C7 is broken by the code.  For a key that [get_reply_by_id] does not
    find (no such row, or a soft-deleted one) the crud readers return
    the empty list, which is not [None], so the handlers of ancestors,
    descendants and siblings answer 200 with an empty body; only the
    thread handler, which tests emptiness, answers 404. *)
Theorem navigation_of_missing_reply fuel db reply_id :
  get_reply_by_id db reply_id = None →
  route_get_reply_ancestors fuel db reply_id = Done (HttpOk []) ∧
  route_get_reply_descendants fuel db reply_id = Done (HttpOk []) ∧
  route_get_reply_siblings db reply_id = HttpOk [] ∧
  route_get_reply_thread fuel db reply_id = Done (HTTPException 404 "Reply not found").
Proof.
  intros Hnone.
  unfold route_get_reply_ancestors, route_get_reply_descendants,
    route_get_reply_siblings, route_get_reply_thread,
    get_reply_ancestors, get_reply_descendants, get_reply_siblings, get_reply_thread.
  rewrite Hnone. done.
Qed.

Lemma navigation_of_missing_reply_witness :
  get_reply_by_id ex_db 999 = None ∧
  route_get_reply_ancestors 0 ex_db 999 = Done (HttpOk []).
Proof.
  split; [reflexivity|].
  exact (proj1 (navigation_of_missing_reply 0 ex_db 999 eq_refl)).
Defined.

(** *** Depth limit *)

Lemma create_reply_with_parent fuel db now reply post_id parent_reply d :
  post_exists db post_id = true →
  user_exists db (rc_author_id reply) = true →
  truthy (rc_parent_id reply) = true →
  head (filter (λ r, Reply.id r = default 0 (rc_parent_id reply)
                     ∧ Reply.post_id r = post_id
                     ∧ Reply.deleted_at r = None) (replies db)) = Some parent_reply →
  Reply_depth fuel db parent_reply = Done d →
  create_reply fuel db now reply post_id =
  Done (if bool_decide (d < MAX_DEPTH) then Ok (insert_reply db now reply post_id)
        else Raise (ValueError "Maximum reply depth exceeded")).
Proof.
  intros Hpost Huser Htruthy Hparent Hdepth. unfold create_reply.
  rewrite Hpost, Huser, Htruthy, Hparent. simpl.
  unfold Reply_can_reply_to. rewrite Hdepth. simpl.
  by destruct (bool_decide (d < MAX_DEPTH)).
Qed.

(** C2 is broken by the code.  [can_reply_to] compares the depth with
    10, not 9: under the reply of depth 9 of [deep_db] (the store the
    tests build) creation succeeds and the child has depth 10, where the
    tests expect the 400 response. *)
Theorem create_reply_under_depth_9 :
  Reply_depth 10 deep_db (deep_reply 10) = Done 9 ∧
  Reply_can_reply_to 10 deep_db (deep_reply 10) = Done true ∧
  create_reply 10 deep_db 200 deep_request 1 =
    Done (Ok (set_replies (replies deep_db ++ [deep_child]) deep_db, deep_child)) ∧
  route_create_reply 10 deep_db 200 1 deep_request =
    Done (set_replies (replies deep_db ++ [deep_child]) deep_db, HttpOk deep_child) ∧
  Reply_depth 11 (set_replies (replies deep_db ++ [deep_child]) deep_db) deep_child = Done 10.
Proof. split_and!; by vm_compute. Qed.

(** Under the reply of depth 8 creation succeeds and the child has
    depth 9, as the tests build it. *)
Example create_reply_under_depth_8 :
  Reply_depth 10 deep_db (deep_reply 9) = Done 8 ∧
  create_reply 10 deep_db 200 (mkReplyCreate "Level" 1 (Some 9)) 1 =
    Done (Ok (set_replies (replies deep_db ++ [Reply.mk 11 "Level" 1 1 (Some 9) 200 200 None])
                          deep_db,
              Reply.mk 11 "Level" 1 1 (Some 9) 200 200 None)) ∧
  Reply_depth 11
    (set_replies (replies deep_db ++ [Reply.mk 11 "Level" 1 1 (Some 9) 200 200 None]) deep_db)
    (Reply.mk 11 "Level" 1 1 (Some 9) 200 200 None) = Done 9.
Proof. split_and!; by vm_compute. Qed.

(** *** Ordering by creation time *)

Lemma insert_created_Permutation x l : insert_created x l ≡ₚ x :: l.
Proof.
  induction l as [|y l IH]; [done|]. simpl.
  destruct (decide (created_le x y)); [done|].
  rewrite IH. apply Permutation_swap.
Qed.

Lemma order_by_created_at_Permutation l : order_by_created_at l ≡ₚ l.
Proof.
  induction l as [|x l IH]; [done|]. simpl.
  rewrite insert_created_Permutation. by rewrite IH.
Qed.

Lemma elem_of_order_by_created_at x l : x ∈ order_by_created_at l ↔ x ∈ l.
Proof. by rewrite order_by_created_at_Permutation. Qed.

Lemma length_order_by_created_at l : length (order_by_created_at l) = length l.
Proof. by rewrite order_by_created_at_Permutation. Qed.

Lemma insert_created_sorted x l :
  StronglySorted created_le l → StronglySorted created_le (insert_created x l).
Proof.
  induction 1 as [|y l Hsorted IH Hall]; simpl.
  - repeat constructor.
  - destruct (decide (created_le x y)) as [Hle|Hgt].
    + constructor; [by constructor|].
      constructor; [done|].
      eapply Forall_impl; [exact Hall|]. unfold created_le in *. intros z ?. lia.
    + constructor; [done|].
      rewrite insert_created_Permutation. constructor; [|done].
      unfold created_le in *. lia.
Qed.

Lemma order_by_created_at_sorted l : StronglySorted created_le (order_by_created_at l).
Proof.
  induction l as [|x l IH]; simpl; [constructor|]. by apply insert_created_sorted.
Qed.

Lemma StronglySorted_filter {A} (R : relation A) (P : A → Prop) `{!∀ x, Decision (P x)} l :
  StronglySorted R l → StronglySorted R (filter P l).
Proof.
  induction 1 as [|x l Hsorted IH Hall]; [constructor|].
  destruct (decide (P x)).
  - rewrite filter_cons_True by done. constructor; [done|].
    apply Forall_forall. intros y Hy. apply list_elem_of_filter in Hy as [_ Hy].
    by eapply Forall_forall in Hall.
  - by rewrite filter_cons_False.
Qed.

Section row_maps.
Context (f : Reply.t → Reply.t).
Context (f_id : ∀ x, Reply.id (f x) = Reply.id x).
Context (f_created : ∀ x, Reply.created_at (f x) = Reply.created_at x).

Lemma insert_created_fmap x l :
  insert_created (f x) (f <$> l) = f <$> insert_created x l.
Proof.
  induction l as [|y l IH]; [done|]. simpl.
  destruct (decide (created_le (f x) (f y))) as [H1|H1],
           (decide (created_le x y)) as [H2|H2]; simpl;
    unfold created_le in H1, H2; rewrite !f_created in H1;
    [done|lia|lia|f_equal; apply IH].
Qed.

Lemma order_by_created_at_fmap l :
  order_by_created_at (f <$> l) = f <$> order_by_created_at l.
Proof.
  induction l as [|x l IH]; [done|].
  rewrite fmap_cons. cbn [order_by_created_at foldr].
  fold (order_by_created_at (f <$> l)). fold (order_by_created_at l).
  by rewrite IH, insert_created_fmap.
Qed.

Lemma head_filter_id_fmap k l :
  head (filter (λ x, Reply.id x = k) (f <$> l)) = f <$> head (filter (λ x, Reply.id x = k) l).
Proof.
  induction l as [|x l IH]; [done|]. rewrite fmap_cons.
  destruct (decide (Reply.id x = k)) as [Hk|Hk].
  - rewrite !filter_cons_True; [done..|]. by rewrite f_id.
  - rewrite !filter_cons_False; [done..|]. by rewrite f_id.
Qed.
End row_maps.

(** *** Soft deletion *)

Lemma filter_fmap_fixed {A} (P : A → Prop) `{!∀ x, Decision (P x)} (f : A → A)
    (l : list A) :
  (∀ x, x ∈ l → (P (f x) ↔ P x) ∧ (P x → f x = x)) →
  filter P (f <$> l) = filter P l.
Proof.
  induction l as [|x l IH]; intros Hf; [done|]. rewrite fmap_cons.
  destruct (Hf x) as [Hiff Hfix]; [left|].
  assert (filter P (f <$> l) = filter P l) as IH'.
  { apply IH. intros y Hy. apply Hf. by right. }
  destruct (decide (P x)) as [HP|HP].
  - rewrite !filter_cons_True; [|done|by apply Hiff]. by rewrite Hfix, IH'.
  - rewrite !filter_cons_False; [done|done|by rewrite Hiff].
Qed.

Lemma mark_row_id utcnow now rid x : Reply.id (mark_row utcnow now rid x) = Reply.id x.
Proof. unfold mark_row. by destruct (bool_decide _). Qed.

Lemma mark_row_created_at utcnow now rid x :
  Reply.created_at (mark_row utcnow now rid x) = Reply.created_at x.
Proof. unfold mark_row. by destruct (bool_decide _). Qed.

Lemma mark_row_parent_id utcnow now rid x :
  Reply.parent_id (mark_row utcnow now rid x) = Reply.parent_id x.
Proof. unfold mark_row. by destruct (bool_decide _). Qed.

Lemma get_reply_by_id_Some db reply_id r :
  get_reply_by_id db reply_id = Some r →
  r ∈ replies db ∧ Reply.id r = reply_id ∧ Reply.deleted_at r = None.
Proof. intros H. apply head_filter_Some in H as [[? ?] ?]. done. Qed.

Lemma get_reply_by_id_live db r :
  NoDup (Reply.id <$> replies db) → r ∈ replies db → Reply.deleted_at r = None →
  get_reply_by_id db (Reply.id r) = Some r.
Proof.
  intros Hnd Hr Hlive. unfold get_reply_by_id.
  destruct (head_filter_is_Some
              (λ x, Reply.id x = Reply.id r ∧ Reply.deleted_at x = None) _ r Hr)
    as [y Hy]; [done|].
  rewrite Hy. f_equal. apply head_filter_Some in Hy as [[Hk _] Hy].
  by apply (key_inj_in Reply.id (replies db)).
Qed.

Lemma delete_reply_marks db utcnow now reply_id r :
  get_reply_by_id db reply_id = Some r →
  delete_reply db utcnow now reply_id =
  (set_replies (mark_row utcnow now reply_id <$> replies db) db, true).
Proof.
  intros Hr. unfold delete_reply. rewrite Hr.
  apply get_reply_by_id_Some in Hr as (_ & -> & _). done.
Qed.

Section marked_store.
Context (db : Db) (utcnow now rid : Z).
Let db' := set_replies (mark_row utcnow now rid <$> replies db) db.

Lemma Reply_parent_marked x :
  Reply_parent db' x = mark_row utcnow now rid <$> Reply_parent db x.
Proof.
  unfold Reply_parent.
  destruct (Reply.parent_id x) as [p|]; [|done].
  apply head_filter_id_fmap. apply mark_row_id.
Qed.

Lemma Reply_parent_of_marked (d : Db) x :
  Reply_parent d (mark_row utcnow now rid x) = Reply_parent d x.
Proof. unfold Reply_parent. by rewrite mark_row_parent_id. Qed.

Lemma ancestors_loop_marked fuel : ∀ current,
  ancestors_loop fuel db' (mark_row utcnow now rid <$> current) =
  match ancestors_loop fuel db current with
  | Done l => Done (mark_row utcnow now rid <$> l)
  | OutOfFuel => OutOfFuel
  end.
Proof.
  induction fuel as [|fuel IH]; intros [c|]; try done.
  simpl. rewrite Reply_parent_of_marked, Reply_parent_marked, IH.
  by destruct (ancestors_loop fuel db (Reply_parent db c)).
Qed.

Lemma get_reply_by_id_marked_other k :
  k ≠ rid → get_reply_by_id db' k = get_reply_by_id db k.
Proof.
  intros Hk. unfold get_reply_by_id, db'. simpl. f_equal.
  apply filter_fmap_fixed. intros x _. unfold mark_row.
  destruct (decide (Reply.id x = rid)) as [Hx|Hx].
  - rewrite bool_decide_eq_true_2 by done. simpl. split; [|intros [? _]; congruence].
    split; intros [? _]; congruence.
  - by rewrite bool_decide_eq_false_2.
Qed.

Lemma listed_after_marking post_id skip limit x :
  x ∈ get_post_replies db' post_id skip limit → Reply.id x ≠ rid.
Proof.
  unfold get_post_replies, offset_limit. intros Hx.
  apply subseteq_take, subseteq_drop in Hx.
  apply elem_of_order_by_created_at, list_elem_of_filter in Hx as [[_ Hlive] Hx].
  simpl in Hx. apply list_elem_of_fmap in Hx as (y & -> & _).
  unfold mark_row in *. destruct (decide (Reply.id y = rid)).
  - by rewrite bool_decide_eq_true_2 in Hlive.
  - by rewrite bool_decide_eq_false_2.
Qed.
End marked_store.

(** *** The threaded listing *)

Lemma reply_dict_fold (l : list Reply.t) : ∀ (m : gmap Z Reply.t) k,
  foldl (λ m r, <[Reply.id r := r]> m) m l !! k =
  match last (filter (λ r, Reply.id r = k) l) with
  | Some r => Some r
  | None => m !! k
  end.
Proof.
  induction l as [|x l IH]; intros m k; [done|]. simpl foldl. rewrite IH.
  destruct (decide (Reply.id x = k)) as [Hk|Hk].
  - rewrite filter_cons_True by done.
    destruct (filter (λ r, Reply.id r = k) l) as [|y ys] eqn:E.
    + simpl. by rewrite <- Hk, lookup_insert_eq.
    + rewrite last_cons_cons.
      destruct (last (y :: ys)) eqn:E'; [done|]. by apply last_None in E'.
  - rewrite filter_cons_False by done.
    by rewrite lookup_insert_ne.
Qed.

Lemma reply_dict_Some l k r :
  reply_dict l !! k = Some r → r ∈ l ∧ Reply.id r = k.
Proof.
  unfold reply_dict. rewrite reply_dict_fold.
  destruct (last _) as [y|] eqn:E; [|done]. intros [= ->].
  apply last_Some_elem_of, list_elem_of_filter in E as [? ?]. done.
Qed.

Lemma reply_dict_is_Some l r : r ∈ l → is_Some (reply_dict l !! Reply.id r).
Proof.
  intros Hr. unfold reply_dict. rewrite reply_dict_fold.
  destruct (last _) as [y|] eqn:E; [eauto|].
  apply last_None in E.
  assert (r ∈ filter (λ x, Reply.id x = Reply.id r) l) as Hin
    by (by apply list_elem_of_filter).
  rewrite E in Hin. by apply not_elem_of_nil in Hin.
Qed.

Lemma hung_cons dict x l k : hung dict (x :: l) k = hung dict [x] k ++ hung dict l k.
Proof.
  unfold hung. destruct (dict !! k); [|done].
  by rewrite <- filter_app.
Qed.

Lemma thread_step_spec dict (Hdict : ∀ k p, dict !! k = Some p → Reply.id p = k) st x :
  (thread_step dict st x).1 = st.1 ++ roots_in [x] ∧
  ∀ k, (thread_step dict st x).2 !! k =
       match hung dict [x] k with
       | [] => st.2 !! k
       | cs => Some (default [] (st.2 !! k) ++ cs)
       end.
Proof.
  unfold thread_step, roots_in, hung.
  destruct (Reply.parent_id x) as [pid|] eqn:Hparent.
  - rewrite filter_cons_False by (by rewrite Hparent). rewrite filter_nil, app_nil_r.
    destruct (dict !! pid) as [parent|] eqn:Hpid.
    + split; [done|]. intros k. simpl. rewrite (Hdict pid parent Hpid).
      destruct (decide (k = pid)) as [->|Hk].
      * rewrite Hpid, filter_cons_True by done. by rewrite lookup_insert_eq.
      * rewrite lookup_insert_ne by done.
        destruct (dict !! k); [|done]. by rewrite filter_cons_False by congruence.
    + split; [done|]. intros k.
      destruct (dict !! k) eqn:Hk; [|done].
      rewrite filter_cons_False; [done|]. congruence.
  - rewrite filter_cons_True by done. split; [done|]. intros k. simpl.
    destruct (dict !! k); [|done]. by rewrite filter_cons_False by (by rewrite Hparent).
Qed.

Lemma thread_fold dict (Hdict : ∀ k p, dict !! k = Some p → Reply.id p = k) l :
  ∀ st,
  (foldl (thread_step dict) st l).1 = st.1 ++ roots_in l ∧
  ∀ k, (foldl (thread_step dict) st l).2 !! k =
       match hung dict l k with
       | [] => st.2 !! k
       | cs => Some (default [] (st.2 !! k) ++ cs)
       end.
Proof.
  induction l as [|x l IH]; intros st.
  { split; [by rewrite app_nil_r|]. intros k. unfold hung. by destruct (dict !! k). }
  simpl foldl. destruct (IH (thread_step dict st x)) as [IHroots IHcache].
  destruct (thread_step_spec dict Hdict st x) as [Hroots Hcache].
  split.
  - rewrite IHroots, Hroots, <- app_assoc. unfold roots_in. by rewrite <- filter_app.
  - intros k. rewrite IHcache, Hcache, (hung_cons dict x l k).
    destruct (hung dict [x] k) as [|c cs], (hung dict l k) as [|c' cs']; simpl; try done.
    + by rewrite app_nil_r.
    + by rewrite <- app_assoc.
Qed.

(** The loop of [get_post_replies_threaded] computes the roots and the
    id-to-children map of the list. *)
Lemma build_threads_spec l :
  (build_threads l).1 = roots_in l ∧
  ∀ r, r ∈ l →
       (build_threads l).2 !! Reply.id r =
       match children_in l r with
       | [] => None
       | cs => Some cs
       end.
Proof.
  unfold build_threads.
  destruct (thread_fold (reply_dict l)
              (λ k p H, proj2 (reply_dict_Some l k p H)) l ([], ∅)) as [Hroots Hcache].
  split; [done|]. intros r Hr. rewrite Hcache. simpl.
  unfold hung. destruct (reply_dict_is_Some l r Hr) as [p ->].
  fold (children_in l r). by destruct (children_in l r).
Qed.

Section rooted.
Context (l : list Reply.t) (Hnd : NoDup (Reply.id <$> l)).

Lemma Rooted_elem_of k r : Rooted l k r → r ∈ l.
Proof. by destruct 1. Qed.

Lemma Rooted_functional k r : Rooted l k r → ∀ k', Rooted l k' r → k = k'.
Proof.
  induction 1 as [r Hr Hroot|k c p Hc Hp Hparent Hrooted IH]; intros k' Hk'.
  - destruct Hk' as [|k' c' p' _ _ Hparent' _]; [done|congruence].
  - destruct Hk' as [c' _ Hroot'|k' c' p' _ Hp' Hparent' Hrooted']; [congruence|].
    f_equal. apply IH.
    assert (p' = p) as ->; [|done].
    apply (key_inj_in Reply.id l); [done..|congruence].
Qed.

Lemma Rooted_path k r :
  Rooted l k r →
  ∃ path : list Reply.t,
    length path = S k ∧ ∀ j x, path !! j = Some x → Rooted l j x.
Proof.
  induction 1 as [r Hr Hroot|k c p Hc Hp Hparent Hrooted (path & Hlen & Hpath)].
  - exists [r]. split; [done|]. intros [|j] x Hx; [|done].
    injection Hx as <-. by constructor.
  - exists (path ++ [c]). split; [rewrite length_app; simpl; lia|].
    intros j x Hx. apply lookup_app_Some in Hx as [Hx|[Hj Hx]]; [by apply Hpath|].
    apply list_lookup_singleton_Some in Hx as [Hj' <-].
    replace j with (S k) by lia. by econstructor.
Qed.

(** A reply sits fewer hops from its root than there are replies. *)
Lemma Rooted_bound k r : Rooted l k r → (k < length l)%nat.
Proof.
  intros Hr. destruct (Rooted_path k r Hr) as (path & Hlen & Hpath).
  assert (NoDup path) as Hpnd.
  { apply NoDup_alt. intros i j x Hi Hj.
    eapply Rooted_functional; by eapply Hpath. }
  assert (path ⊆+ l) as Hsub.
  { apply NoDup_submseteq; [done|]. intros x Hx.
    apply list_elem_of_lookup in Hx as [j Hj].
    eapply Rooted_elem_of. by eapply Hpath. }
  apply submseteq_length in Hsub. lia.
Qed.

Lemma Rooted_children k r c : Rooted l k r → c ∈ children_in l r → Rooted l (S k) c.
Proof.
  intros Hr Hc. apply list_elem_of_filter in Hc as [Hparent Hc].
  econstructor; [done| |done..]. by eapply Rooted_elem_of.
Qed.

Lemma Rooted_roots r : r ∈ roots_in l → Rooted l 0 r.
Proof. intros Hr. apply list_elem_of_filter in Hr as [? ?]. by constructor. Qed.

Lemma Preorder_Rooted rs flat :
  Preorder l rs flat →
  (∀ r, r ∈ rs → ∃ j, Rooted l j r) → ∀ x, x ∈ flat → ∃ j, Rooted l j x.
Proof.
  induction 1 as [|r rs sub rest Hsub IHsub Hrest IHrest]; intros Hrs x Hx.
  - by apply not_elem_of_nil in Hx.
  - apply elem_of_cons in Hx as [->|Hx]; [apply Hrs; left|].
    apply elem_of_app in Hx as [Hx|Hx].
    + apply IHsub; [|done]. intros c Hc.
      destruct (Hrs r) as [j Hj]; [left|]. exists (S j). by eapply Rooted_children.
    + apply IHrest; [|done]. intros y Hy. apply Hrs. by right.
Qed.

Lemma Preorder_functional rs flat :
  Preorder l rs flat → ∀ flat', Preorder l rs flat' → flat = flat'.
Proof.
  induction 1 as [|r rs sub rest Hsub IHsub Hrest IHrest]; intros flat' H'.
  - by inversion H'.
  - inversion H' as [|r' rs' sub' rest' Hsub' Hrest']; subst.
    by rewrite (IHsub sub' Hsub'), (IHrest rest' Hrest').
Qed.

Context (cache : gmap Z (list Reply.t)).
Context (Hcache : ∀ r, r ∈ l →
           cache !! Reply.id r =
           match children_in l r with
           | [] => None
           | cs => Some cs
           end).

Lemma flatten_replies_unfold fuel r rs :
  flatten_replies (S fuel) cache (r :: rs) =
  match cache !! Reply.id r with
  | Some children =>
    sub ← flatten_replies fuel cache children;
    rest ← flatten_replies (S fuel) cache rs;
    Done (r :: sub ++ rest)
  | None =>
    rest ← flatten_replies (S fuel) cache rs;
    Done (r :: rest)
  end.
Proof. done. Qed.

Lemma flatten_replies_Preorder fuel : ∀ k rs,
  (∀ r, r ∈ rs → Rooted l k r) →
  (length l ≤ k + fuel)%nat → (1 ≤ fuel)%nat →
  ∃ flat, flatten_replies fuel cache rs = Done flat ∧ Preorder l rs flat.
Proof.
  induction fuel as [|fuel IH]; intros k rs Hrs Hlen Hfuel; [lia|].
  induction rs as [|r rs IHrs].
  { exists []. split; [done|constructor]. }
  destruct IHrs as (rest & Hrest & Hprest).
  { intros y Hy. apply Hrs. by right. }
  assert (Hr : Rooted l k r) by (apply Hrs; left).
  rewrite flatten_replies_unfold, Hrest.
  rewrite (Hcache r) by (by eapply Rooted_elem_of).
  destruct (children_in l r) as [|c cs] eqn:Hcs.
  - exists (r :: rest). split; [done|].
    apply (Preorder_cons l r rs [] rest); [|done]. rewrite Hcs. constructor.
  - assert (Hc : Rooted l (S k) c).
    { apply (Rooted_children k r); [done|]. rewrite Hcs. left. }
    apply Rooted_bound in Hc.
    destruct (IH (S k) (c :: cs)) as (sub & Hsub & Hpsub); [|lia|lia|].
    { intros y Hy. apply (Rooted_children k r); [done|]. by rewrite Hcs. }
    rewrite Hsub. exists (r :: sub ++ rest). split; [done|].
    apply Preorder_cons; [|done]. by rewrite Hcs.
Qed.
End rooted.

Lemma get_post_replies_all db post_id :
  get_post_replies db post_id 0 (length (replies db)) =
  order_by_created_at (filter (live_in_post post_id) (replies db)).
Proof.
  unfold get_post_replies, offset_limit. rewrite drop_0. apply take_ge.
  rewrite length_order_by_created_at. apply length_filter.
Qed.

Lemma listed_NoDup db post_id :
  NoDup (Reply.id <$> replies db) →
  NoDup (Reply.id <$> order_by_created_at (filter (live_in_post post_id) (replies db))).
Proof.
  intros Hnd. rewrite order_by_created_at_Permutation.
  eapply sublist_NoDup; [exact Hnd|]. apply fmap_sublist, sublist_filter.
Qed.

Lemma get_post_replies_threaded_Preorder fuel db post_id skip limit :
  NoDup (Reply.id <$> replies db) →
  (length (replies db) < fuel)%nat →
  ∃ flat,
    Preorder (order_by_created_at (filter (live_in_post post_id) (replies db)))
             (roots_in (order_by_created_at (filter (live_in_post post_id) (replies db))))
             flat ∧
    get_post_replies_threaded fuel db post_id skip limit = Done (take limit (drop skip flat)).
Proof.
  intros Hnd Hfuel. unfold get_post_replies_threaded.
  fold (live_in_post post_id).
  set (all_replies := order_by_created_at (filter (live_in_post post_id) (replies db))).
  destruct (build_threads_spec all_replies) as [Hroots Hcache].
  destruct (build_threads all_replies) as [root_replies cache]. simpl in Hroots, Hcache.
  subst root_replies.
  destruct (flatten_replies_Preorder all_replies (listed_NoDup db post_id Hnd) cache Hcache
              fuel 0 (roots_in all_replies)) as (flat & Hflat & Hpre).
  - intros r. apply Rooted_roots.
  - unfold all_replies. rewrite length_order_by_created_at.
    pose proof (length_filter (live_in_post post_id) (replies db)). lia.
  - lia.
  - exists flat. split; [done|]. by rewrite Hflat.
Qed.

(** C5. The threaded listing of a post starts from the flat listing of
    its non-deleted replies in creation order, builds from it the roots
    and the map from a reply's key to its children (both in that
    order), and returns the window [skip, skip + limit) of the
    pre-order walk of that forest: each reply, then the whole walk of
    its children, then the next reply.  With more fuel than there are
    replies the walk always completes. *)
Theorem threaded_listing_is_preorder fuel db post_id skip limit :
  NoDup (Reply.id <$> replies db) →
  (length (replies db) < fuel)%nat →
  ∃ all_replies flat,
    all_replies = get_post_replies db post_id 0 (length (replies db)) ∧
    all_replies ≡ₚ filter (live_in_post post_id) (replies db) ∧
    StronglySorted created_le all_replies ∧
    (build_threads all_replies).1 = roots_in all_replies ∧
    (∀ r, r ∈ all_replies →
          (build_threads all_replies).2 !! Reply.id r =
          match children_in all_replies r with
          | [] => None
          | cs => Some cs
          end) ∧
    (∀ r, StronglySorted created_le (children_in all_replies r)) ∧
    Preorder all_replies (roots_in all_replies) flat ∧
    get_post_replies_threaded fuel db post_id skip limit = Done (take limit (drop skip flat)).
Proof.
  intros Hnd Hfuel.
  destruct (get_post_replies_threaded_Preorder fuel db post_id skip limit Hnd Hfuel)
    as (flat & Hpre & Hrun).
  eexists _, flat. split; [reflexivity|]. rewrite get_post_replies_all.
  destruct (build_threads_spec
              (order_by_created_at (filter (live_in_post post_id) (replies db))))
    as [Hroots Hcache].
  split_and!; try done.
  - apply order_by_created_at_Permutation.
  - apply order_by_created_at_sorted.
  - intros r. apply StronglySorted_filter, order_by_created_at_sorted.
Qed.

Lemma threaded_listing_is_preorder_witness :
  NoDup (Reply.id <$> replies thread_db) ∧
  (length (replies thread_db) < 8)%nat ∧
  ∃ flat,
    Preorder (get_post_replies thread_db 1 0 (length (replies thread_db)))
             (roots_in (get_post_replies thread_db 1 0 (length (replies thread_db)))) flat ∧
    get_post_replies_threaded 8 thread_db 1 1 3 = Done (take 3 (drop 1 flat)).
Proof.
  assert (Hnd : NoDup (Reply.id <$> replies thread_db)) by compute_done.
  assert (Hfuel : (length (replies thread_db) < 8)%nat) by (simpl; lia).
  split_and!; [done..|].
  destruct (threaded_listing_is_preorder 8 thread_db 1 1 3 Hnd Hfuel)
    as (all_replies & flat & -> & _ & _ & _ & _ & _ & Hpre & Hrun).
  exists flat. split; [exact Hpre | exact Hrun].
Defined.

Example threaded_listing_page :
  get_post_replies_threaded 8 thread_db 1 1 3 =
  Done [thread_reply 2 (Some 1) None; thread_reply 4 (Some 2) None;
        thread_reply 5 (Some 1) None].
Proof. by vm_compute. Qed.

(** *** Replies under a soft-deleted parent *)

Lemma descendant_of_elem_of rs y r : descendant_of rs y r → y ∈ rs.
Proof. by destruct 1. Qed.

Section orphans.
Context (db : Db) (post_id : Z) (Hnd : NoDup (Reply.id <$> replies db)).
Let listed := order_by_created_at (filter (live_in_post post_id) (replies db)).

Lemma listed_elem_of x : x ∈ listed → x ∈ replies db ∧ live_in_post post_id x.
Proof.
  unfold listed. rewrite elem_of_order_by_created_at. intros Hx.
  apply list_elem_of_filter in Hx as [? ?]. done.
Qed.

(** In the forest of the listing, the parent of a reachable reply is the
    stored row its pointer names, and is itself listed and reachable. *)
Lemma Rooted_parent k c p :
  Rooted listed k c → p ∈ replies db → Reply.parent_id c = Some (Reply.id p) →
  p ∈ listed ∧ ∃ j, Rooted listed j p.
Proof.
  intros Hc Hp Hparent.
  destruct Hc as [c _ Hroot|k c p' _ Hp' Hparent' Hrooted]; [congruence|].
  assert (p' = p) as ->; [|eauto].
  apply (key_inj_in Reply.id (replies db)); [done| |done|congruence].
  by apply listed_elem_of.
Qed.

Lemma Rooted_descendant y r :
  descendant_of (replies db) y r → ∀ k, Rooted listed k y → ∃ j, Rooted listed j r.
Proof.
  induction 1 as [c p Hc Hp Hparent|c m p Hc Hparent Hdesc IH]; intros k Hk.
  - by destruct (Rooted_parent k c p Hk Hp Hparent) as [_ ?].
  - destruct (Rooted_parent k c m Hk) as [_ [j Hj]]; [|done|by eapply IH].
    by eapply descendant_of_elem_of.
Qed.

Lemma orphan_not_Rooted r p y k :
  r ∈ replies db → p ∈ replies db →
  Reply.parent_id r = Some (Reply.id p) → Reply.deleted_at p ≠ None →
  y = r ∨ descendant_of (replies db) y r →
  ¬ Rooted listed k y.
Proof.
  intros Hr Hp Hparent Hdeleted Hy Hk.
  assert (∃ j, Rooted listed j r) as [j Hj].
  { destruct Hy as [->|Hy]; [eauto|]. by eapply Rooted_descendant. }
  destruct (Rooted_parent j r p Hj Hp Hparent) as [Hlisted _].
  apply listed_elem_of in Hlisted as [_ [_ Hlive]]. done.
Qed.
End orphans.

(** C9. A reply whose parent is soft-deleted is absent from every
    window of the threaded listing, and so is every reply below it: the
    walk never reaches them, neither under a surviving reply nor as a
    root.  The reply itself, when it is a live reply of the post, is
    still in the flat listing. *)
Theorem orphans_left_out_of_threaded_listing fuel db post_id skip limit r p y :
  NoDup (Reply.id <$> replies db) →
  (length (replies db) < fuel)%nat →
  r ∈ replies db → p ∈ replies db →
  Reply.parent_id r = Some (Reply.id p) → Reply.deleted_at p ≠ None →
  y = r ∨ descendant_of (replies db) y r →
  (∃ page, get_post_replies_threaded fuel db post_id skip limit = Done page ∧ y ∉ page) ∧
  (Reply.post_id r = post_id → Reply.deleted_at r = None →
   r ∈ get_post_replies db post_id 0 (length (replies db))).
Proof.
  intros Hnd Hfuel Hr Hp Hparent Hdeleted Hy. split.
  - destruct (get_post_replies_threaded_Preorder fuel db post_id skip limit Hnd Hfuel)
      as (flat & Hpre & Hrun).
    eexists. split; [exact Hrun|]. intros Hin.
    apply subseteq_take, subseteq_drop in Hin.
    destruct (Preorder_Rooted _ _ _ Hpre) with (x := y) as [k Hk]; [|done|].
    + intros x Hx. exists 0%nat. by apply Rooted_roots.
    + by eapply (orphan_not_Rooted db post_id Hnd r p y k).
  - intros Hpost Hlive. rewrite get_post_replies_all.
    apply elem_of_order_by_created_at, list_elem_of_filter. done.
Qed.

Lemma orphans_left_out_of_threaded_listing_witness :
  NoDup (Reply.id <$> replies thread_db) ∧
  (length (replies thread_db) < 8)%nat ∧
  thread_reply 7 (Some 6) None ∈ get_post_replies thread_db 1 0 (length (replies thread_db)) ∧
  ∃ page, get_post_replies_threaded 8 thread_db 1 0 100 = Done page ∧
          thread_reply 7 (Some 6) None ∉ page.
Proof.
  assert (Hnd : NoDup (Reply.id <$> replies thread_db)) by compute_done.
  assert (Hfuel : (length (replies thread_db) < 8)%nat) by (simpl; lia).
  assert (Hr : thread_reply 7 (Some 6) None ∈ replies thread_db) by compute_done.
  assert (Hp : thread_reply 6 (Some 3) (Some 300) ∈ replies thread_db) by compute_done.
  assert (Hdel : Reply.deleted_at (thread_reply 6 (Some 3) (Some 300)) ≠ None) by done.
  destruct (orphans_left_out_of_threaded_listing 8 thread_db 1 0 100
              (thread_reply 7 (Some 6) None) (thread_reply 6 (Some 3) (Some 300))
              (thread_reply 7 (Some 6) None) Hnd Hfuel Hr Hp eq_refl Hdel (or_introl eq_refl))
    as [Hout Hflat].
  split_and!; [done..|exact (Hflat eq_refl eq_refl)|exact Hout].
Defined.

(** * Further properties *)

(** ** Stable sorting *)

Section sort_by.
Context {A : Type} (le : A → A → Prop) `{!RelDecision le}.

Lemma insert_by_Permutation x l : insert_by le x l ≡ₚ x :: l.
Proof.
  induction l as [|y l IH]; [done|]. simpl.
  destruct (decide (le x y)); [done|].
  rewrite IH. apply Permutation_swap.
Qed.

Lemma sort_by_Permutation l : sort_by le l ≡ₚ l.
Proof.
  induction l as [|x l IH]; [done|]. simpl.
  rewrite insert_by_Permutation. by rewrite IH.
Qed.

Lemma elem_of_sort_by x l : x ∈ sort_by le l ↔ x ∈ l.
Proof. by rewrite sort_by_Permutation. Qed.

Lemma length_sort_by l : length (sort_by le l) = length l.
Proof. by rewrite sort_by_Permutation. Qed.

Context (le_total : ∀ x y, ¬ le x y → le y x).
Context (le_trans : ∀ x y z, le x y → le y z → le x z).

Lemma insert_by_sorted x l :
  StronglySorted le l → StronglySorted le (insert_by le x l).
Proof.
  induction 1 as [|y l Hsorted IH Hall]; simpl.
  - repeat constructor.
  - destruct (decide (le x y)) as [Hle|Hgt].
    + constructor; [by constructor|].
      constructor; [done|].
      eapply Forall_impl; [exact Hall|]. intros z ?. by eapply le_trans.
    + constructor; [done|].
      rewrite insert_by_Permutation. constructor; [|done]. by apply le_total.
Qed.

Lemma sort_by_sorted l : StronglySorted le (sort_by le l).
Proof. induction l as [|x l IH]; simpl; [constructor|]. by apply insert_by_sorted. Qed.
End sort_by.

Lemma py_take_prefix {A} (limit : Z) (l : list A) :
  ∃ n, py_take limit l = take n l ∧ (0 ≤ limit → n = Z.to_nat limit).
Proof.
  unfold py_take. destruct (decide (0 ≤ limit)).
  - rewrite bool_decide_eq_true_2 by done. eauto.
  - rewrite bool_decide_eq_false_2 by done. eexists. split; [done|lia].
Qed.

(** ** The constraints of the [votes] table *)

Lemma unique_clash_sym v w : unique_clash v w = unique_clash w v.
Proof.
  unfold unique_clash.
  rewrite (bool_decide_ext (Vote.user_id v = Vote.user_id w)
                           (Vote.user_id w = Vote.user_id v)) by done.
  f_equal. f_equal.
  - destruct (Vote.post_id v), (Vote.post_id w); try done. by apply bool_decide_ext.
  - destruct (Vote.reply_id v), (Vote.reply_id w); try done. by apply bool_decide_ext.
Qed.

Lemma no_clash_filter (P : Vote.t → Prop) `{!∀ x, Decision (P x)} vs :
  no_clash vs → no_clash (filter P vs).
Proof.
  induction vs as [|v vs IH]; [done|]. intros [Hv Hvs].
  destruct (decide (P v)).
  - rewrite filter_cons_True by done. split; [|by apply IH].
    apply Forall_forall. intros w Hw. apply list_elem_of_filter in Hw as [_ Hw].
    by eapply Forall_forall in Hv.
  - rewrite filter_cons_False by done. by apply IH.
Qed.

Lemma no_clash_fmap (f : Vote.t → Vote.t) vs :
  (∀ v w, unique_clash (f v) (f w) = unique_clash v w) →
  no_clash vs → no_clash (f <$> vs).
Proof.
  intros Hf. induction vs as [|v vs IH]; [done|]. intros [Hv Hvs].
  rewrite fmap_cons. split; [|by apply IH].
  apply Forall_fmap. eapply Forall_impl; [exact Hv|]. intros w Hw. simpl. by rewrite Hf.
Qed.

Lemma no_clash_snoc vs v :
  no_clash vs → existsb (unique_clash v) vs = false → no_clash (vs ++ [v]).
Proof.
  induction vs as [|w vs IH]; intros Hvs Hv; [by repeat constructor|].
  destruct Hvs as [Hw Hvs]. simpl in Hv. apply orb_false_iff in Hv as [Hwv Hv].
  split; [|by apply IH].
  apply Forall_app. split; [done|]. constructor; [|done].
  by rewrite unique_clash_sym.
Qed.

Lemma create_vote_keeps_constraints db now u vt post_id reply_id db' res :
  create_vote db now u vt post_id reply_id = Ok (db', res) →
  votes_ok (votes db) → votes_ok (votes db').
Proof.
  intros Hcv (Hnd & Hcheck & Hclash).
  pose proof (create_vote_frame _ _ _ _ _ _ _ _ Hcv) as (_ & _ & _ & Hnd').
  split; [by apply Hnd'|].
  unfold create_vote, create_vote_on in Hcv.
  case_guards_in Hcv.
  destruct (VoteType_of_value vt) as [t|]; [|done].
  destruct (get_user_vote db u post_id reply_id) as [e|].
  - destruct (bool_decide _).
    + injection Hcv as <- _. simpl. split.
      * apply Forall_forall. intros v Hv. apply list_elem_of_filter in Hv as [_ Hv].
        by eapply Forall_forall in Hcheck.
      * by apply no_clash_filter.
    + cbv zeta in Hcv. destruct (head _); [|done].
      injection Hcv as <- _. simpl. unfold update_vote_type. split.
      * apply Forall_fmap. eapply Forall_impl; [exact Hcheck|].
        intros v Hv. simpl. by destruct (bool_decide _).
      * apply no_clash_fmap; [|done].
        intros v w. by destruct (bool_decide _), (bool_decide _).
  - unfold insert_vote in Hcv.
    destruct (vote_target_constraint _) eqn:Hc; [|done]. simpl in Hcv.
    destruct (existsb _ _) eqn:Hex; [done|].
    injection Hcv as <- _. simpl. split.
    + apply Forall_app. split; [done|]. by repeat constructor.
    + by apply no_clash_snoc.
Qed.

(** X1. Casting keeps the constraints of the [votes] table: from a
    table with distinct keys, one target per row and no two rows of one
    voter on one target, any sequence of casts, with whatever
    arguments, leads to such a table again. *)
Theorem casts_keep_vote_constraints db cs :
  votes_ok (votes db) → votes_ok (votes (apply_casts db cs)).
Proof.
  revert db. induction cs as [|c cs IH]; intros db Hok; [done|].
  simpl. apply IH. unfold apply_cast.
  destruct (create_vote _ _ _ _ _ _) as [[db' res]|e] eqn:E; [|done].
  by eapply create_vote_keeps_constraints.
Qed.

Lemma casts_keep_vote_constraints_witness :
  votes_ok (votes ex_db) ∧
  votes_ok (votes (apply_casts ex_db [mkCast 50 3 "upvote" (Some 1) None;
                                      mkCast 51 2 "downvote" (Some 1) None;
                                      mkCast 52 3 "sideways" (Some 1) None])).
Proof.
  assert (Hok : votes_ok (votes ex_db)).
  { split_and!; [compute_done|by repeat constructor|by repeat constructor]. }
  split; [done|]. by apply casts_keep_vote_constraints.
Defined.

(** ** Casting twice *)

Lemma set_votes_votes db : set_votes (votes db) db = db.
Proof. by destruct db. Qed.

Lemma get_user_vote_after_insert db u post_id reply_id v :
  (∃ p, post_id = Some p ∧ reply_id = None ∧ p ≠ 0) ∨
  (∃ r, post_id = None ∧ reply_id = Some r ∧ r ≠ 0) →
  get_user_vote db u post_id reply_id = None →
  Vote.user_id v = u → Vote.post_id v = post_id → Vote.reply_id v = reply_id →
  get_user_vote (set_votes (votes db ++ [v]) db) u post_id reply_id = Some v.
Proof.
  intros Htarget Hnone Hu Hp Hr. unfold get_user_vote in *. simpl.
  destruct Htarget as [(p & -> & -> & Hne) | (r & -> & -> & Hne)]; simpl in *;
    (replace (_ =? 0) with false in * by (symmetry; by apply Z.eqb_neq)); simpl in *;
    apply head_None in Hnone; rewrite filter_app, Hnone; simpl;
    by rewrite filter_cons_True.
Qed.

Lemma target_ok_targets db post_id reply_id :
  target_ok db post_id reply_id →
  (∃ p, post_id = Some p ∧ reply_id = None ∧ p ≠ 0) ∨
  (∃ r, post_id = None ∧ reply_id = Some r ∧ r ≠ 0).
Proof. intros [(p & ? & ? & ? & _)|(r & ? & ? & ? & _)]; [left|right]; eauto. Qed.



(** ** Looking a vote up after a cast *)

Lemma no_clash_lookup vs : ∀ i j v w,
  no_clash vs → vs !! i = Some v → vs !! j = Some w → i ≠ j → unique_clash v w = false.
Proof.
  induction vs as [|x vs IH]; intros i j v w Hvs Hi Hj Hne; [done|].
  destruct Hvs as [Hx Hvs]. destruct i as [|i], j as [|j]; simpl in *; try done.
  - injection Hi as <-. eapply Forall_forall in Hx; [exact Hx|].
    by eapply list_elem_of_lookup_2.
  - injection Hj as <-. rewrite unique_clash_sym.
    eapply Forall_forall in Hx; [exact Hx|]. by eapply list_elem_of_lookup_2.
  - eapply (IH i j); eauto.
Qed.

Section single_match.
Context (P : Vote.t → Prop) `{!∀ v, Decision (P v)}.
Context (P_clash : ∀ v w, P v → P w → unique_clash v w = true).

Lemma match_only_at vs i e j w :
  no_clash vs → vs !! i = Some e → P e → vs !! j = Some w → P w → j = i.
Proof.
  intros Hvs Hi He Hj Hw. destruct (decide (i = j)) as [->|Hne]; [done|].
  pose proof (no_clash_lookup vs i j e w Hvs Hi Hj Hne) as Hfalse.
  rewrite (P_clash e w He Hw) in Hfalse. done.
Qed.

Lemma no_match_after_delete vs i e :
  no_clash vs → vs !! i = Some e → P e → head (filter P (delete i vs)) = None.
Proof.
  intros Hvs Hi He. apply head_filter_None. intros w Hw HPw.
  apply list_elem_of_lookup in Hw as [j Hj].
  destruct (decide (j < i)%nat).
  - rewrite list_lookup_delete_lt in Hj by done.
    pose proof (match_only_at vs i e j w Hvs Hi He Hj HPw). lia.
  - rewrite list_lookup_delete_ge in Hj by lia.
    pose proof (match_only_at vs i e (S j) w Hvs Hi He Hj HPw). lia.
Qed.

Lemma match_after_insert vs i e e' :
  no_clash vs → vs !! i = Some e → P e → P e' →
  (∀ w, unique_clash e' w = unique_clash e w) →
  head (filter P (<[i := e']> vs)) = Some e'.
Proof.
  intros Hvs Hi He He' Hsame.
  assert (Hin : e' ∈ <[i := e']> vs).
  { apply list_elem_of_lookup. exists i. apply list_lookup_insert_eq.
    by eapply lookup_lt_Some. }
  destruct (head_filter_is_Some P _ e' Hin He') as [y Hy]. rewrite Hy. f_equal.
  apply head_filter_Some in Hy as [HPy Hy].
  apply list_elem_of_lookup in Hy as [j Hj].
  destruct (decide (i = j)) as [<-|Hne].
  - rewrite list_lookup_insert_eq in Hj by (by eapply lookup_lt_Some). congruence.
  - rewrite list_lookup_insert_ne in Hj by done.
    pose proof (match_only_at vs i e j y Hvs Hi He Hj HPy). congruence.
Qed.
End single_match.

Lemma filter_frame_delete {A} (P : A → Prop) `{!∀ x, Decision (P x)} (l : list A) i x :
  l !! i = Some x → ¬ P x → filter P (delete i l) = filter P l.
Proof.
  intros Hi Hx. rewrite <- (take_drop_middle l i x Hi) at 2.
  rewrite delete_take_drop, !filter_app. by rewrite filter_cons_False.
Qed.

Lemma filter_frame_insert {A} (P : A → Prop) `{!∀ x, Decision (P x)} (l : list A) i x y :
  l !! i = Some x → ¬ P x → ¬ P y → filter P (<[i := y]> l) = filter P l.
Proof.
  intros Hi Hx Hy. rewrite <- (take_drop_middle l i x Hi) at 2.
  rewrite insert_take_drop by (by eapply lookup_lt_Some).
  rewrite !filter_app. by rewrite !filter_cons_False.
Qed.

Lemma get_user_vote_other_user db vs u' post_id reply_id :
  (∀ P : Vote.t → Prop, ∀ H : ∀ x, Decision (P x),
     (∀ v, P v → Vote.user_id v = u') → filter P vs = filter P (votes db)) →
  get_user_vote (set_votes vs db) u' post_id reply_id = get_user_vote db u' post_id reply_id.
Proof.
  intros Hframe. unfold get_user_vote. simpl.
  destruct (truthy post_id); [|destruct (truthy reply_id); [|done]];
    f_equal; apply Hframe; by intros v [? _].
Qed.

(** X3. After a cast on a table that satisfies its constraints, looking
    the voter's vote on the target up gives what the cast returned: the
    new row, the updated row, or nothing after a removal.  The votes of
    every other voter are looked up as before. *)
Theorem get_user_vote_after_cast db now u t post_id reply_id db' res :
  votes_ok (votes db) →
  target_ok db post_id reply_id →
  create_vote db now u (VoteType_value t) post_id reply_id = Ok (db', res) →
  get_user_vote db' u post_id reply_id = res ∧
  ∀ u' post_id' reply_id', u' ≠ u →
    get_user_vote db' u' post_id' reply_id' = get_user_vote db u' post_id' reply_id'.
Proof.
  intros (Hnd & Hcheck & Hclash) Hok Hcv.
  pose proof (target_ok_targets _ _ _ Hok) as Htargets.
  destruct (get_user_vote db u post_id reply_id) as [e|] eqn:He.
  - pose proof (get_user_vote_Some _ _ _ _ _ He) as (Hin & Hu & Hcol).
    assert (∃ P : Vote.t → Prop, ∃ Hdec : ∀ v, Decision (P v),
              (∀ d, get_user_vote d u post_id reply_id = head (filter P (votes d))) ∧
              P e ∧ (∀ v t now, P v → P (set_vote_type t now v)) ∧
              (∀ v w, P v → P w → unique_clash v w = true))
      as (P & Hdec & HP & HPe & HPset & HPclash).
    { destruct Htargets as [(p & -> & -> & Hne) | (r & -> & -> & Hne)].
      - exists (λ v, Vote.user_id v = u ∧ Vote.post_id v = Some p), _.
        split; [|split; [|split]].
        + intros d. unfold get_user_vote. simpl.
          by replace (p =? 0) with false by (symmetry; by apply Z.eqb_neq).
        + split; [done|]. destruct Hcol as [[_ ?]|[Hf _]]; [done|].
          simpl in Hf. apply negb_false_iff, Z.eqb_eq in Hf. done.
        + by intros v ? ? [? ?].
        + intros v w [Hv1 Hv2] [Hw1 Hw2]. unfold unique_clash.
          rewrite Hv1, Hw1, Hv2, Hw2. by rewrite !bool_decide_eq_true_2.
      - exists (λ v, Vote.user_id v = u ∧ Vote.reply_id v = Some r), _.
        split; [|split; [|split]].
        + intros d. unfold get_user_vote. simpl.
          by replace (r =? 0) with false by (symmetry; by apply Z.eqb_neq).
        + split; [done|]. destruct Hcol as [[Ht _]|(_ & _ & ?)]; done.
        + by intros v ? ? [? ?].
        + intros v w [Hv1 Hv2] [Hw1 Hw2]. unfold unique_clash.
          rewrite Hv1, Hw1, Hv2, Hw2. rewrite !bool_decide_eq_true_2 by done.
          simpl. by rewrite orb_true_r. }
    destruct (decide (Vote.vote_type e = t)) as [Ht|Ht].
    + destruct (create_vote_remove db now u t post_id reply_id e) as (i & Hi & Hcv');
        [done..|].
      rewrite Hcv' in Hcv. injection Hcv as <- <-. split.
      * rewrite HP. simpl. by apply (no_match_after_delete P HPclash _ i e).
      * intros u' p' r' Hu'. apply get_user_vote_other_user.
        intros Q HQ HQu. apply (filter_frame_delete Q _ i e); [done|].
        intros HQe. apply HQu in HQe. congruence.
    + destruct (create_vote_switch db now u t post_id reply_id e) as (i & Hi & Hcv');
        [done..|].
      rewrite Hcv' in Hcv. injection Hcv as <- <-. split.
      * rewrite HP. simpl. apply (match_after_insert P HPclash _ i e); try done.
        by apply HPset.
      * intros u' p' r' Hu'. apply get_user_vote_other_user.
        intros Q HQ HQu. apply (filter_frame_insert Q _ i e); [done| |].
        -- intros HQe. apply HQu in HQe. congruence.
        -- intros HQe. apply HQu in HQe. simpl in HQe. congruence.
  - rewrite create_vote_insert in Hcv by done. injection Hcv as <- <-. split.
    + by apply get_user_vote_after_insert.
    + intros u' p' r' Hu'. apply get_user_vote_other_user.
      intros Q HQ HQu. rewrite filter_app, filter_cons_False, filter_nil, app_nil_r; [done|].
      intros HQv. apply HQu in HQv. simpl in HQv. congruence.
Qed.

Lemma get_user_vote_after_cast_witness :
  votes_ok (votes ex_db) ∧ target_ok ex_db (Some 1) None ∧
  get_user_vote (set_votes [] ex_db) 2 (Some 1) None = None.
Proof.
  assert (Hvs : votes_ok (votes ex_db)).
  { split_and!; [compute_done|by repeat constructor|by repeat constructor]. }
  assert (Hok : target_ok ex_db (Some 1) None).
  { left. exists 1. split_and!; [done..|reflexivity]. }
  split_and!; [done..|].
  exact (proj1 (get_user_vote_after_cast ex_db 50 2 upvote (Some 1) None
                  (set_votes [] ex_db) None Hvs Hok eq_refl)).
Defined.

(** ** Deleting votes *)

Lemma filter_filter_same {A} (P : A → Prop) `{!∀ x, Decision (P x)} (l : list A) :
  filter P (filter P l) = filter P l.
Proof.
  induction l as [|x l IH]; [done|]. destruct (decide (P x)).
  - rewrite !filter_cons_True by done. by rewrite IH.
  - by rewrite filter_cons_False.
Qed.

(** X4. [delete_vote] succeeds exactly when a vote with the key is
    stored.  It removes the rows with that key and nothing else, keeps
    the other tables, and a second call with the same key finds nothing
    and leaves the store as it is; the handler answers 404 then. *)
Theorem delete_vote_spec db vote_id :
  (vote_id ∉ Vote.id <$> votes db →
   delete_vote db vote_id = (db, false) ∧
   route_delete_vote db vote_id = (db, HTTPException 404 "Vote not found")) ∧
  (vote_id ∈ Vote.id <$> votes db →
   delete_vote db vote_id =
     (set_votes (filter (λ v, Vote.id v ≠ vote_id) (votes db)) db, true) ∧
   route_delete_vote db vote_id =
     (set_votes (filter (λ v, Vote.id v ≠ vote_id) (votes db)) db,
      HttpOk "Vote deleted successfully") ∧
   (length (filter (λ v, Vote.id v ≠ vote_id) (votes db)) < length (votes db))%nat ∧
   (NoDup (Vote.id <$> votes db) →
    S (length (filter (λ v, Vote.id v ≠ vote_id) (votes db))) = length (votes db))) ∧
  (∀ db' ok, delete_vote db vote_id = (db', ok) →
     (vote_id ∉ Vote.id <$> votes db') ∧
     (∀ v, v ∈ votes db' ↔ v ∈ votes db ∧ Vote.id v ≠ vote_id) ∧
     users db' = users db ∧ posts db' = posts db ∧ replies db' = replies db ∧
     delete_vote db' vote_id = (db', false)).
Proof.
  assert (Hmiss : ∀ d, vote_id ∉ Vote.id <$> votes d → delete_vote d vote_id = (d, false)).
  { intros d Hnot. unfold delete_vote.
    destruct (head _) as [v|] eqn:Hv; [|done].
    exfalso. apply Hnot. apply (exists_by_key Vote.id). by rewrite Hv. }
  assert (Hhit : vote_id ∈ Vote.id <$> votes db →
                 delete_vote db vote_id =
                 (set_votes (filter (λ v, Vote.id v ≠ vote_id) (votes db)) db, true)).
  { intros Hin. apply (exists_by_key Vote.id) in Hin as [v Hv].
    unfold delete_vote. rewrite Hv. apply head_filter_Some in Hv as [-> _]. done. }
  split_and!.
  - intros Hnot. unfold route_delete_vote. by rewrite (Hmiss db Hnot).
  - intros Hin. unfold route_delete_vote. rewrite (Hhit Hin).
    split_and!; [done..| |].
    + apply list_elem_of_fmap in Hin as (v & -> & Hv).
      apply (length_filter_lt _ _ v); [done|]. by intros [].
    + intros Hnd. apply list_elem_of_fmap in Hin as (v & -> & Hv).
      apply list_elem_of_lookup in Hv as [i Hi].
      rewrite (filter_key_delete Vote.id (Vote.id v) (votes db) i v) by done.
      rewrite length_delete by eauto.
      apply lookup_lt_Some in Hi. lia.
  - intros db' ok Hdel.
    assert (votes db' = filter (λ v, Vote.id v ≠ vote_id) (votes db)
            ∧ users db' = users db ∧ posts db' = posts db
            ∧ replies db' = replies db) as (Hvotes & ? & ? & ?).
    { destruct (decide (vote_id ∈ Vote.id <$> votes db)) as [Hin|Hnot].
      - rewrite (Hhit Hin) in Hdel. by injection Hdel as <- _.
      - rewrite (Hmiss db Hnot) in Hdel. injection Hdel as <- _.
        by rewrite (filter_key_id Vote.id). }
    assert (Hgone : vote_id ∉ Vote.id <$> votes db').
    { rewrite Hvotes. intros Hin. apply list_elem_of_fmap in Hin as (v & -> & Hv).
      apply list_elem_of_filter in Hv as [Hv _]. done. }
    split_and!; [done| |done..|by apply Hmiss].
    intros v. rewrite Hvotes, list_elem_of_filter. tauto.
Qed.

Lemma filter_all {A} (P : A → Prop) `{!∀ x, Decision (P x)} (l : list A) :
  (∀ x, x ∈ l → P x) → filter P l = l.
Proof.
  induction l as [|x l IH]; intros HP; [done|].
  rewrite filter_cons_True by (apply HP; left). f_equal. apply IH.
  intros y Hy. apply HP. by right.
Qed.

Lemma filter_iff_in {A} (P Q : A → Prop) `{!∀ x, Decision (P x), !∀ x, Decision (Q x)}
    (l : list A) :
  (∀ x, x ∈ l → P x ↔ Q x) → filter P l = filter Q l.
Proof.
  induction l as [|x l IH]; intros HPQ; [done|].
  assert (filter P l = filter Q l) as IH' by (apply IH; intros y Hy; apply HPQ; by right).
  destruct (decide (P x)) as [HP|HP].
  - rewrite !filter_cons_True; [by rewrite IH'|by apply HPQ; [left|]|done].
  - rewrite !filter_cons_False; [done| |done]. intros HQ. apply HP. apply HPQ; [left|done].
Qed.

Lemma foldl_delete_rows (ks : list Vote.t) : ∀ vs,
  foldl (λ vs vote, delete_vote_row (Vote.id vote) vs) vs ks
  = filter (λ v, Vote.id v ∉ Vote.id <$> ks) vs.
Proof.
  induction ks as [|k ks IH]; intros vs.
  - simpl. symmetry. apply filter_all. intros v _ Hv. by apply not_elem_of_nil in Hv.
  - simpl. rewrite IH. unfold delete_vote_row. rewrite list_filter_filter.
    apply list_filter_iff. intros v. rewrite not_elem_of_cons. tauto.
Qed.

(** X5. On a table with distinct keys [delete_user_votes] removes the
    votes of the user and nothing else, and returns how many they were;
    afterwards the user has no votes and a second call returns 0. *)
Theorem delete_user_votes_spec db user_id :
  NoDup (Vote.id <$> votes db) →
  delete_user_votes db user_id =
    (set_votes (filter (λ v, Vote.user_id v ≠ user_id) (votes db)) db,
     Z.of_nat (length (filter (λ v, Vote.user_id v = user_id) (votes db)))) ∧
  (∀ skip limit, get_user_votes (delete_user_votes db user_id).1 user_id skip limit = []) ∧
  (∀ u skip limit, u ≠ user_id →
     get_user_votes (delete_user_votes db user_id).1 u skip limit
     = get_user_votes db u skip limit) ∧
  delete_user_votes (delete_user_votes db user_id).1 user_id
    = ((delete_user_votes db user_id).1, 0).
Proof.
  intros Hnd.
  assert (Hdel : ∀ d, NoDup (Vote.id <$> votes d) →
            delete_user_votes d user_id =
            (set_votes (filter (λ v, Vote.user_id v ≠ user_id) (votes d)) d,
             Z.of_nat (length (filter (λ v, Vote.user_id v = user_id) (votes d))))).
  { intros d Hd. unfold delete_user_votes. cbv zeta. rewrite foldl_delete_rows.
    f_equal. f_equal. apply filter_iff_in. intros v Hv. split.
    - intros Hnot Hu. apply Hnot. apply list_elem_of_fmap_2.
      by apply list_elem_of_filter.
    - intros Hu Hin. apply list_elem_of_fmap in Hin as (w & Hid & Hw).
      apply list_elem_of_filter in Hw as [Hwu Hw].
      assert (v = w) as -> by (by apply (key_inj_in Vote.id (votes d))). done. }
  rewrite (Hdel db Hnd). simpl fst.
  assert (Hnone : filter (λ v, Vote.user_id v = user_id)
                         (filter (λ v, Vote.user_id v ≠ user_id) (votes db)) = []).
  { apply head_None, head_filter_None. intros v Hv Hu.
    apply list_elem_of_filter in Hv as [Hne _]. done. }
  split_and!.
  - done.
  - intros skip limit. unfold get_user_votes, offset_limit. simpl. rewrite Hnone.
    by rewrite drop_nil, take_nil.
  - intros u skip limit Hu. unfold get_user_votes. simpl. f_equal.
    rewrite list_filter_filter. apply list_filter_iff. intros v. split; [tauto|].
    intros ->. done.
  - rewrite Hdel.
    + simpl. rewrite Hnone. simpl. f_equal. unfold set_votes. simpl. f_equal.
      apply filter_filter_same.
    + simpl. eapply sublist_NoDup; [exact Hnd|]. apply fmap_sublist, sublist_filter.
Qed.

Lemma delete_user_votes_spec_witness :
  NoDup (Vote.id <$> votes race_cur) ∧
  delete_user_votes race_cur 3 = (ex_db, 1).
Proof.
  assert (Hnd : NoDup (Vote.id <$> votes race_cur)) by compute_done.
  split; [done|].
  rewrite (proj1 (delete_user_votes_spec race_cur 3 Hnd)). by vm_compute.
Defined.

(** ** Top-voted listings *)

Section ranking.
Context {A : Type} (net : A → Z) (query : list A) (limit : Z).
Let ranked := py_take limit (sort_by net_ge ((λ a, (a, net a)) <$> query)).

Lemma net_ge_total (x y : A * Z) : ¬ net_ge x y → net_ge y x.
Proof. unfold net_ge. lia. Qed.

Lemma net_ge_trans (x y z : A * Z) : net_ge x y → net_ge y z → net_ge x z.
Proof. unfold net_ge. lia. Qed.

Lemma ranked_sorted : StronglySorted net_ge ranked.
Proof.
  unfold ranked. destruct (py_take_prefix limit
    (sort_by net_ge ((λ a, (a, net a)) <$> query))) as (n & -> & _).
  pose proof (sort_by_sorted net_ge net_ge_total net_ge_trans
                ((λ a, (a, net a)) <$> query)) as Hsorted.
  rewrite <- (take_drop n) in Hsorted. by apply StronglySorted_app_1_l in Hsorted.
Qed.

Lemma ranked_elem_of x : x ∈ ranked → x.1 ∈ query ∧ x.2 = net x.1.
Proof.
  unfold ranked. destruct (py_take_prefix limit
    (sort_by net_ge ((λ a, (a, net a)) <$> query))) as (n & -> & _).
  intros Hx. apply subseteq_take in Hx. apply elem_of_sort_by in Hx.
  apply list_elem_of_fmap in Hx as (a & -> & Ha). done.
Qed.

Lemma ranked_length : 0 ≤ limit → Z.of_nat (length ranked) ≤ limit.
Proof.
  intros Hlimit. unfold ranked. destruct (py_take_prefix limit
    (sort_by net_ge ((λ a, (a, net a)) <$> query))) as (n & -> & Hn).
  rewrite length_take, (Hn Hlimit). lia.
Qed.

(** Whatever the slice leaves out scores no higher than what it keeps. *)
Lemma ranked_top a x : a ∈ query → (a, net a) ∉ ranked → x ∈ ranked → net a ≤ x.2.
Proof.
  unfold ranked. destruct (py_take_prefix limit
    (sort_by net_ge ((λ a, (a, net a)) <$> query))) as (n & -> & _).
  intros Ha Hout Hx.
  pose proof (sort_by_sorted net_ge net_ge_total net_ge_trans
                ((λ a, (a, net a)) <$> query)) as Hsorted.
  assert (Hin : (a, net a) ∈ sort_by net_ge ((λ a, (a, net a)) <$> query)).
  { apply elem_of_sort_by. by apply (list_elem_of_fmap_2 (λ a, (a, net a))). }
  rewrite <- (take_drop n) in Hsorted, Hin.
  apply elem_of_app in Hin as [Hin|Hin]; [done|].
  apply (StronglySorted_app_1_elem_of _ _ _ _ _ Hsorted Hx Hin).
Qed.
End ranking.

Lemma py_take_fmap {A B} (f : A → B) (limit : Z) (l : list A) :
  f <$> py_take limit l = py_take limit (f <$> l).
Proof. unfold py_take. rewrite length_fmap. by destruct (bool_decide _); rewrite fmap_take. Qed.

Lemma py_take_all {A} (limit : Z) (l : list A) :
  Z.of_nat (length l) ≤ limit → py_take limit l = l.
Proof.
  intros Hlimit. unfold py_take. rewrite bool_decide_eq_true_2 by lia.
  apply take_ge. lia.
Qed.

Lemma length_py_take {A} (limit : Z) (l : list A) :
  0 ≤ limit → length (py_take limit l) = Nat.min (Z.to_nat limit) (length l).
Proof.
  intros Hlimit. unfold py_take. rewrite bool_decide_eq_true_2 by done.
  apply length_take.
Qed.

Section ranking_complete.
Context {A : Type} (net : A → Z).

Lemma ranking_length limit rows :
  0 ≤ limit → length (ranking net limit rows) = Nat.min (Z.to_nat limit) (length rows).
Proof.
  intros Hlimit. unfold ranking. rewrite length_py_take by done.
  by rewrite length_sort_by, length_fmap.
Qed.

Lemma ranking_all limit rows :
  Z.of_nat (length rows) ≤ limit → ranking net limit rows ≡ₚ (λ a, (a, net a)) <$> rows.
Proof.
  intros Hlimit. unfold ranking. rewrite py_take_all.
  - apply sort_by_Permutation.
  - by rewrite length_sort_by, length_fmap.
Qed.

(** The scores a ranking returns do not depend on the order in which
    the rows arrive. *)
Lemma ranking_scores limit rows rows' :
  rows ≡ₚ rows' → snd <$> ranking net limit rows = snd <$> ranking net limit rows'.
Proof.
  intros Hperm. unfold ranking. rewrite !py_take_fmap. f_equal.
  assert (Hsorted : ∀ l : list A,
            StronglySorted (flip Z.le) (snd <$> sort_by net_ge ((λ a, (a, net a)) <$> l))).
  { intros l. apply (StronglySorted_fmap snd net_ge); [by intros x y|].
    apply sort_by_sorted; [apply net_ge_total|apply net_ge_trans]. }
  assert (Hanti : AntiSymm (=) (flip Z.le)) by (intros x y; unfold flip; lia).
  apply (StronglySorted_unique (flip Z.le)); [apply Hsorted..|].
  by rewrite !sort_by_Permutation, Hperm.
Qed.

End ranking_complete.


Lemma elem_of_reply_candidates db post_id r :
  r ∈ reply_candidates db post_id ↔
  r ∈ replies db ∧ (∀ p, post_id = Some p → p ≠ 0 → Reply.post_id r = p).
Proof.
  unfold reply_candidates. destruct post_id as [p|]; simpl.
  - destruct (decide (p = 0)) as [->|Hp]; simpl.
    + split; [intros ?; split; [done|by intros ? [= <-] ?]|tauto].
    + replace (p =? 0) with false by (symmetry; by apply Z.eqb_neq). simpl.
      rewrite list_elem_of_filter. split.
      * intros [? ?]. split; [done|]. by intros ? [= <-] _.
      * intros [? Hr]. split; [|done]. by apply Hr.
  - split; [intros ?; split; [done|by intros ? [=]]|tauto].
Qed.


(** X7. [get_top_voted_replies] ranks the selected replies the same
    way: every stored reply, or those of the given post when one is
    given, soft-deleted ones included.  It returns selected replies
    paired with their net votes, in non-increasing order; for a
    non-negative limit it returns [limit] of them, or all when fewer
    are selected; with a limit of at least their number every selected
    reply is returned exactly once; no selected reply left out scores
    higher than one returned; and the list of net votes returned does
    not depend on the order in which the store hands the rows out. *)
Theorem get_top_voted_replies_spec db post_id limit :
  get_top_voted_replies db post_id limit
  = ranking (λ r, net_votes (get_vote_counts_for_reply db (Reply.id r))) limit
            (reply_candidates db post_id) ∧
  (∀ r, r ∈ reply_candidates db post_id ↔
        r ∈ replies db ∧ (∀ p, post_id = Some p → p ≠ 0 → Reply.post_id r = p)) ∧
  StronglySorted net_ge (get_top_voted_replies db post_id limit) ∧
  (∀ x, x ∈ get_top_voted_replies db post_id limit →
        x.1 ∈ reply_candidates db post_id ∧
        x.2 = net_votes (get_vote_counts_for_reply db (Reply.id x.1))) ∧
  (0 ≤ limit →
   length (get_top_voted_replies db post_id limit)
   = Nat.min (Z.to_nat limit) (length (reply_candidates db post_id))) ∧
  (Z.of_nat (length (reply_candidates db post_id)) ≤ limit →
   get_top_voted_replies db post_id limit
   ≡ₚ (λ r, (r, net_votes (get_vote_counts_for_reply db (Reply.id r))))
      <$> reply_candidates db post_id) ∧
  (∀ q x, q ∈ reply_candidates db post_id →
          (q, net_votes (get_vote_counts_for_reply db (Reply.id q)))
            ∉ get_top_voted_replies db post_id limit →
          x ∈ get_top_voted_replies db post_id limit →
          net_votes (get_vote_counts_for_reply db (Reply.id q)) ≤ x.2) ∧
  (∀ rows, rows ≡ₚ reply_candidates db post_id →
     snd <$> ranking (λ r, net_votes (get_vote_counts_for_reply db (Reply.id r))) limit rows
     = snd <$> get_top_voted_replies db post_id limit).
Proof.
  assert (Heq : get_top_voted_replies db post_id limit
                = ranking (λ r, net_votes (get_vote_counts_for_reply db (Reply.id r))) limit
                          (reply_candidates db post_id)) by reflexivity.
  rewrite Heq. split_and!.
  - done.
  - apply elem_of_reply_candidates.
  - apply ranked_sorted.
  - intros x Hx. by apply ranked_elem_of in Hx.
  - apply ranking_length.
  - apply ranking_all.
  - intros q x Hq Hout Hx.
    by eapply (ranked_top (λ r, net_votes (get_vote_counts_for_reply db (Reply.id r)))).
  - intros rows Hrows. by apply ranking_scores.
Qed.

(** ** Bulk soft deletion *)

Lemma filter_none {A} (P : A → Prop) `{!∀ x, Decision (P x)} (l : list A) :
  (∀ x, x ∈ l → ¬ P x) → filter P l = [].
Proof. intros Hnone. by apply head_None, head_filter_None. Qed.

(** X8. [bulk_delete_replies] stamps exactly the live replies whose key
    is in the list and returns their number: afterwards no reply with a
    listed key is live, every other row is as before, nothing is
    removed, and a second call with the same list matches nothing and
    changes nothing.  The empty list matches nothing.  On a table with
    distinct keys a one-key list does what [delete_reply] does. *)
Theorem bulk_delete_replies_spec db utcnow now reply_ids :
  (bulk_delete_replies db utcnow now reply_ids).2
    = Z.of_nat (length (filter (λ r, Reply.id r ∈ reply_ids ∧ Reply.deleted_at r = None)
                               (replies db))) ∧
  length (replies (bulk_delete_replies db utcnow now reply_ids).1) = length (replies db) ∧
  (∀ r, r ∈ replies (bulk_delete_replies db utcnow now reply_ids).1 →
        Reply.id r ∈ reply_ids → Reply.deleted_at r ≠ None) ∧
  (∀ i r, replies db !! i = Some r →
          replies (bulk_delete_replies db utcnow now reply_ids).1 !! i =
          Some (if bool_decide (Reply.id r ∈ reply_ids ∧ Reply.deleted_at r = None)
                then mark_deleted utcnow now r else r)) ∧
  (∀ utcnow' now',
     bulk_delete_replies (bulk_delete_replies db utcnow now reply_ids).1 utcnow' now' reply_ids
     = ((bulk_delete_replies db utcnow now reply_ids).1, 0)) ∧
  bulk_delete_replies db utcnow now [] = (db, 0) ∧
  (∀ reply_id, NoDup (Reply.id <$> replies db) → reply_ids = [reply_id] →
     (bulk_delete_replies db utcnow now reply_ids).1 = (delete_reply db utcnow now reply_id).1 ∧
     (bulk_delete_replies db utcnow now reply_ids).2
       = if (delete_reply db utcnow now reply_id).2 then 1 else 0).
Proof.
  assert (Hgone : ∀ r,
    r ∈ (λ r, if bool_decide (Reply.id r ∈ reply_ids ∧ Reply.deleted_at r = None)
              then mark_deleted utcnow now r else r) <$> replies db →
    ¬ (Reply.id r ∈ reply_ids ∧ Reply.deleted_at r = None)).
  { intros r Hr [Hin Hlive]. apply list_elem_of_fmap in Hr as (x & -> & _).
    destruct (decide (Reply.id x ∈ reply_ids ∧ Reply.deleted_at x = None)) as [Hx|Hx].
    - by rewrite bool_decide_eq_true_2 in Hlive.
    - rewrite bool_decide_eq_false_2 in Hin, Hlive by done. by apply Hx. }
  unfold bulk_delete_replies. cbv zeta. simpl. split_and!.
  - done.
  - by rewrite length_fmap.
  - intros r Hr Hin Hlive. by apply (Hgone r).
  - intros i r Hi. by rewrite list_lookup_fmap, Hi.
  - intros utcnow' now'. f_equal.
    + unfold set_replies. simpl. f_equal.
      rewrite <- (list_fmap_id (_ <$> replies db)) at 2.
      apply list_fmap_ext. intros i r Hr. simpl.
      rewrite bool_decide_eq_false_2; [done|]. apply Hgone.
      by eapply list_elem_of_lookup_2.
    + rewrite filter_none; [done|]. intros r Hr. by apply Hgone.
  - f_equal.
    + destruct db as [us ps rs vs]. unfold set_replies. simpl. f_equal.
      rewrite <- (list_fmap_id rs) at 2. by apply list_fmap_ext.
    + rewrite filter_none; [done|]. intros r _ [Hin _]. by apply not_elem_of_nil in Hin.
  - intros reply_id Hnd ->.
    destruct (get_reply_by_id db reply_id) as [r|] eqn:Hr.
    + rewrite (delete_reply_marks db utcnow now reply_id r Hr). simpl.
      pose proof (get_reply_by_id_Some _ _ _ Hr) as (Hin & Hid & Hlive).
      assert (Honly : ∀ x, x ∈ replies db →
                (Reply.id x ∈ [reply_id] ∧ Reply.deleted_at x = None) ↔ x = r).
      { intros x Hx. rewrite list_elem_of_singleton. split.
        - intros [Hk _]. apply (key_inj_in Reply.id (replies db)); [done..|congruence].
        - by intros ->. }
      split.
      * f_equal. apply list_fmap_ext. intros i x Hx. simpl. unfold mark_row.
        apply list_elem_of_lookup_2 in Hx.
        destruct (decide (Reply.id x = reply_id)) as [Hk|Hk].
        -- assert (x = r) as -> by (apply (key_inj_in Reply.id (replies db)); [done..|congruence]).
           rewrite !bool_decide_eq_true_2; [done..|]. by apply Honly.
        -- rewrite !bool_decide_eq_false_2; [done..|].
           intros [Hin' _]. by apply list_elem_of_singleton in Hin'.
      * rewrite (filter_iff_in _ (λ x, x = r)) by done.
        assert (Hone : filter (λ x, x = r) (replies db) = [r]).
        { apply list_elem_of_lookup in Hin as [i Hi].
          rewrite <- (take_drop_middle _ _ _ Hi), filter_app, filter_cons_True by done.
          assert (Hnd' : NoDup (replies db)) by (by eapply NoDup_fmap_1).
          rewrite <- (take_drop_middle _ _ _ Hi) in Hnd'.
          apply NoDup_app in Hnd' as (_ & Hdisj & Hnd').
          apply NoDup_cons in Hnd' as [Hnot _].
          rewrite (filter_none _ (take i (replies db))), (filter_none _ (drop (S i) (replies db)));
            [done| |].
          - by intros x Hx ->.
          - intros x Hx ->. eapply Hdisj; [exact Hx|left]. }
        by rewrite Hone.
    + unfold delete_reply. rewrite Hr. simpl.
      assert (Hnone : ∀ x, x ∈ replies db →
                ¬ (Reply.id x ∈ [reply_id] ∧ Reply.deleted_at x = None)).
      { intros x Hx [Hk Hlive]. apply list_elem_of_singleton in Hk.
        unfold get_reply_by_id in Hr. rewrite head_filter_None in Hr.
        by apply (Hr x Hx). }
      split.
      * destruct db as [us ps rs vs]. unfold set_replies. simpl. f_equal.
        rewrite <- (list_fmap_id rs) at 2. apply list_fmap_ext. intros i x Hx. simpl.
        rewrite bool_decide_eq_false_2; [done|]. apply Hnone.
        by eapply list_elem_of_lookup_2.
      * by rewrite filter_none.
Qed.

(** ** Editing a reply *)

(** X9. [update_reply] on a table with distinct keys.  A reply that is
    missing or soft-deleted is not updated: the result is [None], the
    store is unchanged and the handler answers 404.  Without content, or
    with the content the reply already has, the reply is returned as it
    is.  With new content exactly that row is overwritten in place:
    its content is the new one, [updated_at] the time of the UPDATE,
    every other column as before; the row returned is the row
    [get_reply_by_id] finds afterwards, and it counts as edited when the
    UPDATE is later than the creation. *)
Theorem update_reply_spec db now reply_id reply_update :
  NoDup (Reply.id <$> replies db) →
  (get_reply_by_id db reply_id = None →
   update_reply db now reply_id reply_update = (db, None) ∧
   route_update_reply db now reply_id reply_update = (db, HTTPException 404 "Reply not found")) ∧
  (∀ r, get_reply_by_id db reply_id = Some r →
        ru_content reply_update = None ∨ ru_content reply_update = Some (Reply.content r) →
        update_reply db now reply_id reply_update = (db, Some r)) ∧
  (∀ r content,
     get_reply_by_id db reply_id = Some r →
     ru_content reply_update = Some content → content ≠ Reply.content r →
     ∃ i db',
       replies db !! i = Some r ∧
       db' = set_replies (<[i := set_content content now r]> (replies db)) db ∧
       update_reply db now reply_id reply_update = (db', Some (set_content content now r)) ∧
       route_update_reply db now reply_id reply_update
         = (db', HttpOk (set_content content now r)) ∧
       get_reply_by_id db' reply_id = Some (set_content content now r) ∧
       Reply.content (set_content content now r) = content ∧
       Reply.updated_at (set_content content now r) = now ∧
       Reply.id (set_content content now r) = Reply.id r ∧
       Reply.post_id (set_content content now r) = Reply.post_id r ∧
       Reply.author_id (set_content content now r) = Reply.author_id r ∧
       Reply.parent_id (set_content content now r) = Reply.parent_id r ∧
       Reply.created_at (set_content content now r) = Reply.created_at r ∧
       Reply.deleted_at (set_content content now r) = None ∧
       (Reply.created_at r < now → Reply_is_edited (set_content content now r) = true)).
Proof.
  intros Hnd. split_and!.
  - intros Hr. unfold route_update_reply, update_reply. by rewrite Hr.
  - intros r Hr Hc. unfold update_reply. rewrite Hr.
    destruct Hc as [->| ->]; [done|]. by rewrite bool_decide_eq_true_2.
  - intros r content Hr Hc Hne.
    pose proof (get_reply_by_id_Some _ _ _ Hr) as (Hin & Hid & Hlive).
    apply list_elem_of_lookup in Hin as [i Hi].
    assert (Hrows : (λ x, if bool_decide (Reply.id x = Reply.id r)
                          then set_content content now x else x) <$> replies db
                    = <[i := set_content content now r]> (replies db)).
    { by apply (fmap_key_update Reply.id (set_content content now) (Reply.id r)
                  (replies db) i r). }
    assert (Hnd' : NoDup (Reply.id <$> <[i := set_content content now r]> (replies db))).
    { rewrite list_fmap_insert. simpl.
      rewrite list_insert_id; [done|]. by rewrite list_lookup_fmap, Hi. }
    assert (Hin' : set_content content now r ∈ <[i := set_content content now r]> (replies db)).
    { apply list_elem_of_lookup. exists i. apply list_lookup_insert_eq.
      by eapply lookup_lt_Some. }
    assert (Hup : update_reply db now reply_id reply_update
                  = (set_replies (<[i := set_content content now r]> (replies db)) db,
                     Some (set_content content now r))).
    { unfold update_reply. rewrite Hr, Hc.
      rewrite bool_decide_eq_false_2 by done. cbv zeta. rewrite Hrows.
      f_equal. apply (head_filter_key Reply.id _ (set_content content now r)); done. }
    exists i, (set_replies (<[i := set_content content now r]> (replies db)) db).
    split_and!; try done.
    + unfold route_update_reply. by rewrite Hup.
    + rewrite <- Hid.
      apply (get_reply_by_id_live
               (set_replies (<[i := set_content content now r]> (replies db)) db)
               (set_content content now r)); done.
    + intros Hlt. unfold Reply_is_edited. simpl. by apply bool_decide_eq_true.
Qed.

Lemma update_reply_spec_witness :
  NoDup (Reply.id <$> replies ex_db) ∧
  update_reply ex_db 70 2 (mkReplyUpdate (Some "B, edited"))
  = (set_replies [ex_A; set_content "B, edited" 70 ex_B] ex_db,
     Some (set_content "B, edited" 70 ex_B)).
Proof.
  assert (Hnd : NoDup (Reply.id <$> replies ex_db)) by compute_done.
  split; [done|].
  destruct (update_reply_spec ex_db 70 2 (mkReplyUpdate (Some "B, edited")) Hnd)
    as (_ & _ & Hnew).
  destruct (Hnew ex_B "B, edited" eq_refl eq_refl) as (i & db' & Hi & -> & Hup & _).
  - done.
  - rewrite Hup. f_equal. f_equal.
    destruct i as [|[|i]]; [done|done|done].
Defined.

(** ** Creating a reply *)

Lemma create_reply_Ok fuel db now reply post_id db' r' :
  create_reply fuel db now reply post_id = Done (Ok (db', r')) →
  (db', r') = insert_reply db now reply post_id ∧
  post_exists db post_id = true ∧ user_exists db (rc_author_id reply) = true ∧
  (truthy (rc_parent_id reply) = true →
   ∃ parent d,
     head (filter (λ r, Reply.id r = default 0 (rc_parent_id reply)
                        ∧ Reply.post_id r = post_id
                        ∧ Reply.deleted_at r = None) (replies db)) = Some parent ∧
     Reply_depth fuel db parent = Done d ∧ d < MAX_DEPTH).
Proof.
  unfold create_reply. intros Hcr.
  destruct (post_exists db post_id); [|done].
  destruct (user_exists db (rc_author_id reply)); [|done]. simpl in Hcr.
  destruct (truthy (rc_parent_id reply)).
  - destruct (head _) as [parent|]; [|done].
    unfold Reply_can_reply_to in Hcr.
    destruct (Reply_depth fuel db parent) as [d|] eqn:Hdepth; simpl in Hcr; [|done].
    destruct (decide (d < MAX_DEPTH)) as [Hd|Hd].
    + rewrite bool_decide_eq_true_2 in Hcr by done. simpl in Hcr.
      injection Hcr as <- <-. split_and!; [done..|]. intros _. by exists parent, d.
    + by rewrite bool_decide_eq_false_2 in Hcr.
  - injection Hcr as <- <-. by split_and!.
Qed.

(** X10. A reply that [create_reply] creates is appended to the table
    under a key no stored reply has, live, with the requested content,
    post, author and parent and both timestamps at the time of the
    INSERT; the keys stay distinct, the other tables and the lookups of
    the other keys are unchanged, and the reply can be read back by key
    and is in the flat listing of its post.  The post and the author
    exist, and a parent, when one was asked for, is a live reply of the
    same post of depth below 10.  The parent key of the request is
    absent or non-zero, as the [gt=0] of the schema has it. *)
Theorem create_reply_spec fuel db now reply post_id db' r' :
  NoDup (Reply.id <$> replies db) → rc_parent_id reply ≠ Some 0 →
  create_reply fuel db now reply post_id = Done (Ok (db', r')) →
  replies db' = replies db ++ [r'] ∧
  users db' = users db ∧ posts db' = posts db ∧ votes db' = votes db ∧
  (Reply.id r' ∉ Reply.id <$> replies db) ∧
  NoDup (Reply.id <$> replies db') ∧
  r' = Reply.mk (Reply.id r') (rc_content reply) post_id (rc_author_id reply)
                (rc_parent_id reply) now now None ∧
  post_exists db post_id = true ∧ user_exists db (rc_author_id reply) = true ∧
  get_reply_by_id db' (Reply.id r') = Some r' ∧
  r' ∈ get_post_replies db' post_id 0 (length (replies db')) ∧
  (∀ k, k ≠ Reply.id r' → get_reply_by_id db' k = get_reply_by_id db k) ∧
  (∀ p, rc_parent_id reply = Some p →
        ∃ parent d, get_reply_by_id db p = Some parent ∧ Reply.post_id parent = post_id ∧
                    Reply_depth fuel db parent = Done d ∧ d < 10).
Proof.
  intros Hnd Hvalid Hcr.
  apply create_reply_Ok in Hcr as (Hins & Hpost & Huser & Hparent).
  unfold insert_reply in Hins. injection Hins as -> ->. simpl.
  assert (Hfresh : next_id (Reply.id <$> replies db) ∉ Reply.id <$> replies db)
    by apply next_id_fresh.
  assert (Hnd' : NoDup (Reply.id <$> replies db ++ [Reply.mk (next_id (Reply.id <$> replies db))
                          (rc_content reply) post_id (rc_author_id reply)
                          (rc_parent_id reply) now now None])).
  { rewrite fmap_app. apply NoDup_app. split_and!; [done| |apply NoDup_singleton].
    intros x Hx Hx'. apply list_elem_of_singleton in Hx'. by subst x. }
  split_and!; try done.
  - apply (get_reply_by_id_live (set_replies _ db) (Reply.mk _ _ _ _ _ _ _ _)); simpl;
      [done| |done]. apply elem_of_app. right. left.
  - rewrite get_post_replies_all. apply elem_of_order_by_created_at, list_elem_of_filter.
    split; [done|]. simpl. apply elem_of_app. right. left.
  - intros k Hk. unfold get_reply_by_id. simpl.
    rewrite filter_app, filter_cons_False, filter_nil, app_nil_r; [done|].
    simpl. intros [? _]. congruence.
  - intros p Hp. assert (Hp0 : p ≠ 0) by congruence.
    destruct Hparent as (parent & d & Hhead & Hdepth & Hd).
    { rewrite Hp. simpl. by apply negb_true_iff, Z.eqb_neq. }
    rewrite Hp in Hhead. simpl in Hhead.
    apply head_filter_Some in Hhead as [(Hk & Hpost' & Hlive) Hin].
    exists parent, d. split_and!; [|done..]. rewrite <- Hk.
    by apply get_reply_by_id_live.
Qed.

Lemma create_reply_spec_witness :
  NoDup (Reply.id <$> replies ex_db) ∧
  rc_parent_id (mkReplyCreate "C" 3 (Some 2)) ≠ Some 0 ∧
  ∃ db' r', create_reply 5 ex_db 80 (mkReplyCreate "C" 3 (Some 2)) 1 = Done (Ok (db', r')) ∧
            get_reply_by_id db' (Reply.id r') = Some r'.
Proof.
  assert (Hnd : NoDup (Reply.id <$> replies ex_db)) by compute_done.
  assert (Hvalid : rc_parent_id (mkReplyCreate "C" 3 (Some 2)) ≠ Some 0) by done.
  split; [done|]. split; [done|].
  assert (Hcr : create_reply 5 ex_db 80 (mkReplyCreate "C" 3 (Some 2)) 1
                = Done (Ok (insert_reply ex_db 80 (mkReplyCreate "C" 3 (Some 2)) 1)))
    by (by vm_compute).
  destruct (insert_reply ex_db 80 (mkReplyCreate "C" 3 (Some 2)) 1) as [db' r'].
  exists db', r'. split; [exact Hcr|].
  destruct (create_reply_spec 5 ex_db 80 (mkReplyCreate "C" 3 (Some 2)) 1 db' r' Hnd Hvalid Hcr)
    as (_ & _ & _ & _ & _ & _ & _ & _ & _ & Hget & _).
  exact Hget.
Defined.

(** X11. The refusals of [create_reply], in the order the checks are
    made: an unknown post, then an unknown author, then a parent that
    is not a live reply of the same post (missing, soft-deleted, or of
    another post), each answered by the handler with 404 and the same
    text; last a parent of depth 10 or more, answered with 400. *)
Theorem create_reply_refusals fuel db now reply post_id :
  (post_exists db post_id = false →
   create_reply fuel db now reply post_id = Done (Raise (ValueError "Post not found")) ∧
   route_create_reply fuel db now post_id reply = Done (db, HTTPException 404 "Post not found")) ∧
  (post_exists db post_id = true → user_exists db (rc_author_id reply) = false →
   create_reply fuel db now reply post_id = Done (Raise (ValueError "Author not found")) ∧
   route_create_reply fuel db now post_id reply
     = Done (db, HTTPException 404 "Author not found")) ∧
  (∀ p, post_exists db post_id = true → user_exists db (rc_author_id reply) = true →
        rc_parent_id reply = Some p → p ≠ 0 →
        (∀ x, x ∈ replies db → Reply.id x = p →
              Reply.post_id x ≠ post_id ∨ Reply.deleted_at x ≠ None) →
        create_reply fuel db now reply post_id
          = Done (Raise (ValueError "Parent reply not found")) ∧
        route_create_reply fuel db now post_id reply
          = Done (db, HTTPException 404 "Parent reply not found")) ∧
  (∀ p parent d, post_exists db post_id = true → user_exists db (rc_author_id reply) = true →
        rc_parent_id reply = Some p → p ≠ 0 →
        parent ∈ replies db → Reply.id parent = p → Reply.post_id parent = post_id →
        Reply.deleted_at parent = None → NoDup (Reply.id <$> replies db) →
        Reply_depth fuel db parent = Done d → 10 ≤ d →
        create_reply fuel db now reply post_id
          = Done (Raise (ValueError "Maximum reply depth exceeded")) ∧
        route_create_reply fuel db now post_id reply
          = Done (db, HTTPException 400 "Maximum reply depth exceeded")).
Proof.
  split_and!.
  - intros Hpost. unfold route_create_reply, create_reply. by rewrite Hpost.
  - intros Hpost Huser. unfold route_create_reply, create_reply. by rewrite Hpost, Huser.
  - intros p Hpost Huser Hp Hp0 Hnone.
    assert (Hcr : create_reply fuel db now reply post_id
                  = Done (Raise (ValueError "Parent reply not found"))).
    { unfold create_reply. rewrite Hpost, Huser, Hp. simpl.
      replace (p =? 0) with false by (symmetry; by apply Z.eqb_neq). simpl.
      rewrite (proj2 (head_filter_None _ _)); [done|].
      intros x Hx (Hk & Hpost' & Hlive). destruct (Hnone x Hx Hk); done. }
    split; [done|]. unfold route_create_reply. by rewrite Hcr.
  - intros p parent d Hpost Huser Hp Hp0 Hin Hk Hpost' Hlive Hnd Hdepth Hd.
    assert (Hcr : create_reply fuel db now reply post_id
                  = Done (Raise (ValueError "Maximum reply depth exceeded"))).
    { unfold create_reply. rewrite Hpost, Huser, Hp. simpl.
      replace (p =? 0) with false by (symmetry; by apply Z.eqb_neq). simpl.
      assert (head (filter (λ r, Reply.id r = p ∧ Reply.post_id r = post_id
                                 ∧ Reply.deleted_at r = None) (replies db)) = Some parent)
        as ->.
      { destruct (head _) as [x|] eqn:Hhead.
        - apply head_filter_Some in Hhead as [(Hk' & _) Hin']. f_equal.
          apply (key_inj_in Reply.id (replies db)); [done..|congruence].
        - pose proof (proj1 (head_filter_None _ _) Hhead parent Hin) as Hn.
          by destruct Hn. }
      unfold Reply_can_reply_to. rewrite Hdepth. simpl.
      rewrite bool_decide_eq_false_2; [done|]. unfold MAX_DEPTH. lia. }
    split; [done|]. unfold route_create_reply. by rewrite Hcr.
Qed.

(** ** Walking the reply tree *)

Lemma Reply_parent_Some db r p :
  Reply_parent db r = Some p → p ∈ replies db ∧ Reply.parent_id r = Some (Reply.id p).
Proof.
  unfold Reply_parent. destruct (Reply.parent_id r) as [k|]; [|done].
  intros [Hk Hin]%head_filter_Some. by subst k.
Qed.

Lemma Reply_parent_of_key db r p :
  NoDup (Reply.id <$> replies db) → p ∈ replies db →
  Reply.parent_id r = Some (Reply.id p) → Reply_parent db r = Some p.
Proof.
  intros Hnd Hin Hp. unfold Reply_parent. rewrite Hp.
  by apply (head_filter_key Reply.id).
Qed.

Lemma Reply_descendants_unfold fuel db r :
  Reply_descendants (S fuel) db r = descendants_loop fuel db (Reply_children db r).
Proof. reflexivity. Qed.

Lemma descendants_loop_cons fuel db c cs :
  descendants_loop fuel db (c :: cs)
  = (sub ← Reply_descendants fuel db c;
     rest ← descendants_loop fuel db cs;
     Done (c :: sub ++ rest)).
Proof. reflexivity. Qed.

Lemma elem_of_Reply_children db r c :
  c ∈ Reply_children db r ↔ c ∈ replies db ∧ Reply.parent_id c = Some (Reply.id r).
Proof.
  unfold Reply_children. rewrite elem_of_order_by_created_at, list_elem_of_filter. tauto.
Qed.

(** More fuel changes no result. *)
Lemma ancestors_loop_fuel db fuel : ∀ current l,
  ancestors_loop fuel db current = Done l →
  ancestors_loop (S fuel) db current = Done l.
Proof.
  induction fuel as [|f IH]; intros [c|] l Hl; try done.
  simpl in Hl.
  destruct (ancestors_loop f db (Reply_parent db c)) as [rest|] eqn:Hrest; [|done].
  simpl in Hl. injection Hl as <-.
  change (ancestors_loop (S (S f)) db (Some c))
    with (rest ← ancestors_loop (S f) db (Reply_parent db c); Done (c :: rest)).
  by rewrite (IH _ _ Hrest).
Qed.

Lemma ancestors_loop_fuel_le db fuel fuel' current l :
  (fuel ≤ fuel')%nat → ancestors_loop fuel db current = Done l →
  ancestors_loop fuel' db current = Done l.
Proof. induction 1; [done|]. intros. by apply ancestors_loop_fuel, IHle. Qed.

Lemma Reply_depth_fuel db fuel : ∀ r d,
  Reply_depth fuel db r = Done d → Reply_depth (S fuel) db r = Done d.
Proof.
  induction fuel as [|f IH]; intros r d Hd; [done|].
  simpl in Hd.
  change (Reply_depth (S (S f)) db r)
    with (match Reply_parent db r with
          | None => Done 0
          | Some p => d ← Reply_depth (S f) db p; Done (d + 1)
          end).
  destruct (Reply_parent db r) as [p|]; [|done].
  destruct (Reply_depth f db p) as [d'|] eqn:Hd'; [|done].
  by rewrite (IH _ _ Hd').
Qed.

Lemma Reply_depth_fuel_le db fuel fuel' r d :
  (fuel ≤ fuel')%nat → Reply_depth fuel db r = Done d → Reply_depth fuel' db r = Done d.
Proof. induction 1; [done|]. intros. by apply Reply_depth_fuel, IHle. Qed.

Lemma Reply_thread_root_fuel db fuel : ∀ r t,
  Reply_thread_root fuel db r = Done t → Reply_thread_root (S fuel) db r = Done t.
Proof.
  induction fuel as [|f IH]; intros r t Ht; [done|].
  simpl in Ht.
  change (Reply_thread_root (S (S f)) db r)
    with (match Reply_parent db r with
          | None => Done r
          | Some p => Reply_thread_root (S f) db p
          end).
  destruct (Reply_parent db r) as [p|]; [|done]. by apply IH.
Qed.

Lemma Reply_thread_root_fuel_le db fuel fuel' r t :
  (fuel ≤ fuel')%nat → Reply_thread_root fuel db r = Done t →
  Reply_thread_root fuel' db r = Done t.
Proof. induction 1; [done|]. intros. by apply Reply_thread_root_fuel, IHle. Qed.

Lemma Reply_descendants_fuel db fuel : ∀ r l,
  Reply_descendants fuel db r = Done l → Reply_descendants (S fuel) db r = Done l.
Proof.
  induction fuel as [|f IH]; intros r l Hl; [done|].
  rewrite Reply_descendants_unfold in Hl. rewrite Reply_descendants_unfold.
  revert l Hl. induction (Reply_children db r) as [|c cs IHcs]; intros l Hl; [done|].
  rewrite descendants_loop_cons in Hl. rewrite descendants_loop_cons.
  destruct (Reply_descendants f db c) as [sub|] eqn:Hsub; [|done].
  rewrite (IH _ _ Hsub). simpl in Hl |- *.
  destruct (descendants_loop f db cs) as [rest|] eqn:Hrest; [|done].
  by rewrite (IHcs _ eq_refl).
Qed.

Lemma Reply_descendants_fuel_le db fuel fuel' r l :
  (fuel ≤ fuel')%nat → Reply_descendants fuel db r = Done l →
  Reply_descendants fuel' db r = Done l.
Proof. induction 1; [done|]. intros. by apply Reply_descendants_fuel, IHle. Qed.

(** The walk up: depth, root and ancestors agree. *)
Lemma ancestors_depth db fuel : ∀ r l,
  Reply_ancestors fuel db r = Done l →
  Reply_depth (S fuel) db r = Done (Z.of_nat (length l)) ∧
  Reply_thread_root (S fuel) db r = Done (default r (last l)).
Proof.
  unfold Reply_ancestors.
  induction fuel as [|f IH]; intros r l Hl.
  - simpl. destruct (Reply_parent db r) as [p|]; simpl in Hl; [done|]. by injection Hl as <-.
  - change (Reply_depth (S (S f)) db r)
      with (match Reply_parent db r with
            | None => Done 0
            | Some p => d ← Reply_depth (S f) db p; Done (d + 1)
            end).
    change (Reply_thread_root (S (S f)) db r)
      with (match Reply_parent db r with
            | None => Done r
            | Some p => Reply_thread_root (S f) db p
            end).
    destruct (Reply_parent db r) as [p|]; simpl in Hl;
      [|injection Hl as <-; split; reflexivity].
    destruct (ancestors_loop f db (Reply_parent db p)) as [rest|] eqn:Hrest;
      simpl in Hl; [|done].
    injection Hl as <-. destruct (IH _ _ Hrest) as [-> ->]. split.
    + simpl. f_equal. lia.
    + f_equal. rewrite last_cons. by destruct (last rest).
Qed.

Lemma filter_length_le {A} (P Q : A → Prop) `{!∀ x, Decision (P x)} `{!∀ x, Decision (Q x)}
    (l : list A) :
  (∀ y, P y → Q y) → (length (filter P l) ≤ length (filter Q l))%nat.
Proof.
  intros HPQ. induction l as [|y l IH]; [done|].
  rewrite !filter_cons. destruct (decide (P y)) as [HP|HP].
  - rewrite decide_True by auto. simpl. lia.
  - destruct (decide (Q y)); simpl; lia.
Qed.

Lemma filter_length_lt {A} (P Q : A → Prop) `{!∀ x, Decision (P x)} `{!∀ x, Decision (Q x)}
    (l : list A) x :
  (∀ y, P y → Q y) → x ∈ l → Q x → ¬ P x →
  (length (filter P l) < length (filter Q l))%nat.
Proof.
  intros HPQ Hx HQ HP. induction l as [|y l IH]; [by apply not_elem_of_nil in Hx|].
  pose proof (filter_length_le P Q l HPQ) as Hle.
  rewrite !filter_cons. apply elem_of_cons in Hx as [<-|Hx].
  - rewrite decide_False, decide_True by done. simpl. lia.
  - specialize (IH Hx). destruct (decide (P y)) as [HPy|HPy].
    + rewrite decide_True by auto. simpl. lia.
    + destruct (decide (Q y)); simpl; lia.
Qed.

Lemma rows_below_lt rs p k :
  p ∈ rs → Reply.id p < k → (rows_below rs (Reply.id p) < rows_below rs k)%nat.
Proof.
  intros Hp Hk. unfold rows_below.
  apply (filter_length_lt _ _ rs p); [intros y; lia|done|done|lia].
Qed.

Lemma rows_above_lt rs c k :
  c ∈ rs → k < Reply.id c → (rows_above rs (Reply.id c) < rows_above rs k)%nat.
Proof.
  intros Hc Hk. unfold rows_above.
  apply (filter_length_lt _ _ rs c); [intros y; lia|done|done|lia].
Qed.

Lemma rows_below_lt_length rs p : p ∈ rs → (rows_below rs (Reply.id p) < length rs)%nat.
Proof.
  intros Hp. unfold rows_below.
  rewrite <- (filter_all (λ _, True) rs) at 2 by done.
  apply (filter_length_lt _ _ rs p); [done|done|done|lia].
Qed.

Lemma rows_above_le_length rs k : (rows_above rs k ≤ length rs)%nat.
Proof. apply length_filter. Qed.

Section forest.
Context (db : Db).
Hypothesis Holder :
  Forall (λ r, ∀ p, Reply.parent_id r = Some p → p < Reply.id r) (replies db).

Lemma parent_older r p : r ∈ replies db → Reply_parent db r = Some p → Reply.id p < Reply.id r.
Proof.
  intros Hr [_ Hp]%Reply_parent_Some.
  rewrite Forall_forall in Holder. by apply (Holder r Hr).
Qed.

Lemma ancestors_loop_terminates fuel : ∀ c,
  c ∈ replies db → (rows_below (replies db) (Reply.id c) < fuel)%nat →
  ∃ l, ancestors_loop fuel db (Some c) = Done l.
Proof.
  induction fuel as [|f IH]; intros c Hc Hfuel; [lia|]. simpl.
  destruct (Reply_parent db c) as [p|] eqn:Hp.
  - pose proof (Reply_parent_Some _ _ _ Hp) as [Hin _].
    pose proof (parent_older _ _ Hc Hp) as Hlt.
    pose proof (rows_below_lt _ _ _ Hin Hlt).
    destruct (IH p Hin) as [l ->]; [lia|]. by eexists.
  - destruct f; by eexists.
Qed.

Lemma Reply_ancestors_terminates fuel r :
  r ∈ replies db → (length (replies db) ≤ fuel)%nat →
  ∃ l, Reply_ancestors fuel db r = Done l.
Proof.
  intros Hr Hfuel. unfold Reply_ancestors.
  destruct (Reply_parent db r) as [p|] eqn:Hp.
  - pose proof (Reply_parent_Some _ _ _ Hp) as [Hin _].
    pose proof (rows_below_lt_length _ _ Hin).
    apply ancestors_loop_terminates; [done|lia].
  - destruct fuel; by eexists.
Qed.

Lemma ancestors_older fuel : ∀ r l,
  r ∈ replies db → Reply_ancestors fuel db r = Done l →
  Forall (λ x, x ∈ replies db ∧ Reply.id x < Reply.id r) l.
Proof.
  unfold Reply_ancestors.
  induction fuel as [|f IH]; intros r l Hr Hl.
  - destruct (Reply_parent db r); simpl in Hl; [done|]. injection Hl as <-. constructor.
  - destruct (Reply_parent db r) as [p|] eqn:Hp; simpl in Hl;
      [|injection Hl as <-; constructor].
    destruct (ancestors_loop f db (Reply_parent db p)) as [rest|] eqn:Hrest;
      simpl in Hl; [|done].
    injection Hl as <-.
    pose proof (Reply_parent_Some _ _ _ Hp) as [Hin _].
    pose proof (parent_older _ _ Hr Hp) as Hlt.
    constructor; [done|].
    eapply Forall_impl; [exact (IH _ _ Hin Hrest)|].
    simpl. intros x [? ?]. split; [done|lia].
Qed.

Lemma descendants_loop_terminates fuel cs :
  Forall (λ c, ∃ l, Reply_descendants fuel db c = Done l) cs →
  ∃ l, descendants_loop fuel db cs = Done l.
Proof.
  induction 1 as [|c cs [sub Hsub] _ [rest Hrest]]; [by eexists|].
  rewrite descendants_loop_cons, Hsub. simpl. rewrite Hrest. by eexists.
Qed.

Lemma Reply_descendants_terminates fuel : ∀ r,
  (rows_above (replies db) (Reply.id r) < fuel)%nat →
  ∃ l, Reply_descendants fuel db r = Done l.
Proof.
  induction fuel as [|f IH]; intros r Hfuel; [lia|].
  rewrite Reply_descendants_unfold. apply descendants_loop_terminates.
  apply Forall_forall. intros c [Hc Hp]%elem_of_Reply_children.
  apply IH. rewrite Forall_forall in Holder.
  pose proof (Holder c Hc _ Hp) as Hlt.
  pose proof (rows_above_lt _ _ _ Hc Hlt). lia.
Qed.

End forest.

(** The walk down visits the rows that parent pointers lead from. *)
Lemma descendant_of_child rs x c r :
  descendant_of rs x c → c ∈ rs → r ∈ rs → Reply.parent_id c = Some (Reply.id r) →
  descendant_of rs x r.
Proof.
  intros Hx Hc Hr Hp. induction Hx as [x c Hx Hc' Hxc|x m c Hx Hxm _ IH].
  - apply (descendant_step rs x c r); [done..|]. by apply descendant_child.
  - apply (descendant_step rs x m r); [done..|]. by apply IH.
Qed.

Lemma elem_of_descendants_loop fuel db cs l x :
  descendants_loop fuel db cs = Done l →
  x ∈ l ↔ ∃ c sub, c ∈ cs ∧ Reply_descendants fuel db c = Done sub ∧ (x = c ∨ x ∈ sub).
Proof.
  revert l. induction cs as [|c cs IH]; intros l Hl.
  - injection Hl as <-. split; [by intros ?%not_elem_of_nil|].
    by intros (? & ? & ?%not_elem_of_nil & _).
  - rewrite descendants_loop_cons in Hl.
    destruct (Reply_descendants fuel db c) as [sub|] eqn:Hsub; simpl in Hl; [|done].
    destruct (descendants_loop fuel db cs) as [rest|] eqn:Hrest; simpl in Hl; [|done].
    injection Hl as <-. rewrite elem_of_cons, elem_of_app, (IH rest eq_refl). split.
    + intros [->|[Hx|(c' & sub' & Hc' & Hsub' & Hx)]].
      * exists c, sub. split_and!; [left|done|by left].
      * exists c, sub. split_and!; [left|done|by right].
      * exists c', sub'. split_and!; [by right|done|done].
    + intros (c' & sub' & Hc' & Hsub' & Hx).
      apply elem_of_cons in Hc' as [->|Hc'].
      * rewrite Hsub in Hsub'. injection Hsub' as <-. destruct Hx; auto.
      * right. right. by exists c', sub'.
Qed.

Lemma descendants_loop_inv fuel db cs l c :
  descendants_loop fuel db cs = Done l → c ∈ cs →
  ∃ sub, Reply_descendants fuel db c = Done sub.
Proof.
  revert l. induction cs as [|c' cs IH]; intros l Hl Hc; [by apply not_elem_of_nil in Hc|].
  rewrite descendants_loop_cons in Hl.
  destruct (Reply_descendants fuel db c') as [sub|] eqn:Hsub; simpl in Hl; [|done].
  destruct (descendants_loop fuel db cs) as [rest|] eqn:Hrest; simpl in Hl; [|done].
  apply elem_of_cons in Hc as [->|Hc]; [by eexists|]. by apply (IH rest).
Qed.

Lemma Reply_descendants_closed db fuel : ∀ r l x m,
  Reply_descendants fuel db r = Done l →
  x ∈ replies db → Reply.parent_id x = Some (Reply.id m) → m = r ∨ m ∈ l → x ∈ l.
Proof.
  induction fuel as [|f IH]; intros r l x m Hl Hx Hp Hm; [done|].
  rewrite Reply_descendants_unfold in Hl.
  rewrite (elem_of_descendants_loop _ _ _ _ _ Hl).
  destruct Hm as [->|Hm].
  - assert (Hc : x ∈ Reply_children db r) by by apply elem_of_Reply_children.
    destruct (descendants_loop_inv _ _ _ _ _ Hl Hc) as [sub Hsub].
    exists x, sub. auto.
  - apply (elem_of_descendants_loop _ _ _ _ _ Hl) in Hm as (c & sub & Hc & Hsub & Hm).
    exists c, sub. split_and!; [done..|]. right.
    apply (IH c sub x m); [done..|]. destruct Hm; auto.
Qed.

Lemma elem_of_Reply_descendants db fuel : ∀ r l x,
  r ∈ replies db → Reply_descendants fuel db r = Done l →
  x ∈ l ↔ descendant_of (replies db) x r.
Proof.
  induction fuel as [|f IH]; intros r l x Hr Hl; [done|]. split.
  - rewrite Reply_descendants_unfold in Hl.
    rewrite (elem_of_descendants_loop _ _ _ _ _ Hl).
    intros (c & sub & [Hc Hp]%elem_of_Reply_children & Hsub & [->|Hx]).
    + by apply descendant_child.
    + apply (descendant_of_child _ x c r); [|done..]. by apply (IH c sub).
  - induction 1 as [x r Hx _ Hxr|x m r Hx Hxm _ IHm].
    + apply (Reply_descendants_closed db (S f) r l x r); auto.
    + apply (Reply_descendants_closed db (S f) r l x m); auto.
Qed.

Lemma ancestors_loop_length db fuel : ∀ c l,
  Forall (λ r, ∀ p, Reply.parent_id r = Some p → p < Reply.id r) (replies db) →
  c ∈ replies db → ancestors_loop fuel db (Some c) = Done l →
  (length l ≤ S (rows_below (replies db) (Reply.id c)))%nat.
Proof.
  induction fuel as [|f IH]; intros c l Holder Hc Hl; [done|]. simpl in Hl.
  destruct (Reply_parent db c) as [p|] eqn:Hp.
  - destruct (ancestors_loop f db (Some p)) as [rest|] eqn:Hrest; simpl in Hl; [|done].
    injection Hl as <-.
    pose proof (Reply_parent_Some _ _ _ Hp) as [Hin _].
    pose proof (parent_older db Holder _ _ Hc Hp) as Hlt.
    pose proof (rows_below_lt _ _ _ Hin Hlt).
    pose proof (IH _ _ Holder Hin Hrest). simpl. lia.
  - destruct f; simpl in Hl; injection Hl as <-; simpl; lia.
Qed.

Lemma ancestors_chain db fuel : ∀ r l,
  Reply_ancestors fuel db r = Done l →
  (∀ i c x, (r :: l) !! i = Some c → l !! i = Some x → Reply_parent db c = Some x) ∧
  Reply_parent db (default r (last l)) = None.
Proof.
  unfold Reply_ancestors.
  induction fuel as [|f IH]; intros r l Hl.
  - destruct (Reply_parent db r) eqn:Hp; simpl in Hl; [done|]. injection Hl as <-.
    split; [by intros i c x _ ?|done].
  - destruct (Reply_parent db r) as [p|] eqn:Hp; simpl in Hl;
      [|injection Hl as <-; split; [by intros i c x _ ?|done]].
    destruct (ancestors_loop f db (Reply_parent db p)) as [rest|] eqn:Hrest;
      simpl in Hl; [|done].
    injection Hl as <-. destruct (IH _ _ Hrest) as [Hchain Hlast]. split.
    + intros [|i] c x Hc Hx; simpl in Hc, Hx.
      * injection Hc as <-. injection Hx as <-. done.
      * by apply (Hchain i).
    + rewrite last_cons. by destruct (last rest).
Qed.

(** X12. In a table where keys are distinct and every parent pointer
    names a smaller key, the walk up from a stored reply ends within as
    many steps as the table has rows: [ancestors] is the chain of
    parents from the nearest one to a row without parent, [depth] is
    its length, [thread_root] its last row (the reply itself when the
    chain is empty).  Every ancestor is a stored row with a smaller
    key, there are fewer of them than rows, and no reply
    [is_ancestor_of] itself. *)
Theorem ancestors_spec fuel db r :
  parents_older (replies db) → r ∈ replies db → (length (replies db) ≤ fuel)%nat →
  ∃ l, Reply_ancestors fuel db r = Done l ∧
       Reply_depth (S fuel) db r = Done (Z.of_nat (length l)) ∧
       Reply_thread_root (S fuel) db r = Done (default r (last l)) ∧
       (∀ i c x, (r :: l) !! i = Some c → l !! i = Some x → Reply_parent db c = Some x) ∧
       Reply_parent db (default r (last l)) = None ∧
       Forall (λ x, x ∈ replies db ∧ Reply.id x < Reply.id r) l ∧
       (length l < length (replies db))%nat ∧
       Reply_is_ancestor_of fuel db r r = Done false.
Proof.
  intros [Hnd Holder] Hr Hfuel.
  destruct (Reply_ancestors_terminates db Holder fuel r Hr Hfuel) as [l Hl].
  exists l.
  destruct (ancestors_depth _ _ _ _ Hl) as [Hdepth Hroot].
  destruct (ancestors_chain _ _ _ _ Hl) as [Hchain Hlast].
  pose proof (ancestors_older db Holder _ _ _ Hr Hl) as Hsmall.
  split_and!; try done.
  - unfold Reply_ancestors in Hl.
    destruct (Reply_parent db r) as [p|] eqn:Hp.
    + pose proof (Reply_parent_Some _ _ _ Hp) as [Hin _].
      pose proof (parent_older db Holder _ _ Hr Hp) as Hlt.
      pose proof (rows_below_lt _ _ _ Hin Hlt) as H1.
      pose proof (rows_below_lt_length _ _ Hr) as H2.
      pose proof (ancestors_loop_length _ _ _ _ Holder Hin Hl) as H3.
      clear -H1 H2 H3. lia.
    + assert (l = []) as -> by (destruct fuel; simpl in Hl; by injection Hl as <-).
      clear -Hr. destruct (replies db); [by apply not_elem_of_nil in Hr|simpl; lia].
  - unfold Reply_is_ancestor_of. rewrite Hl. simpl. f_equal.
    apply bool_decide_eq_false_2. intros Hin.
    rewrite Forall_forall in Hsmall. destruct (Hsmall r Hin). lia.
Qed.

Lemma deep_db_parents_older : parents_older (replies deep_db).
Proof.
  split; [compute_done|].
  repeat constructor; simpl; intros p [= <-]; lia.
Qed.

Lemma ancestors_spec_witness :
  parents_older (replies deep_db) ∧ deep_reply 4 ∈ replies deep_db ∧
  ∃ l, Reply_ancestors 10 deep_db (deep_reply 4) = Done l ∧
       Reply_depth 11 deep_db (deep_reply 4) = Done (Z.of_nat (length l)).
Proof.
  assert (Hin : deep_reply 4 ∈ replies deep_db) by compute_done.
  split; [apply deep_db_parents_older|]. split; [done|].
  destruct (ancestors_spec 10 deep_db (deep_reply 4) deep_db_parents_older Hin)
    as (l & Hl & Hd & _); [simpl; lia|].
  by exists l.
Defined.

Lemma descendant_of_older rs x r :
  Forall (λ r, ∀ p, Reply.parent_id r = Some p → p < Reply.id r) rs →
  descendant_of rs x r → Reply.id r < Reply.id x.
Proof.
  rewrite Forall_forall. intros Holder.
  induction 1 as [c p Hc _ Hp|c m p Hc Hp _ IH].
  - by apply (Holder c Hc).
  - pose proof (Holder c Hc _ Hp). lia.
Qed.

(** X13. In a table where every parent pointer names a smaller key,
    [descendants] of a stored reply returns within as many nested
    calls as the table has rows, and lists exactly the rows from which
    parent pointers lead to the reply in one hop or more, soft-deleted
    rows included; the reply itself is never among them. *)
Theorem descendants_spec fuel db r :
  Forall (λ r, ∀ p, Reply.parent_id r = Some p → p < Reply.id r) (replies db) →
  r ∈ replies db → (length (replies db) < fuel)%nat →
  ∃ l, Reply_descendants fuel db r = Done l ∧
       (∀ x, x ∈ l ↔ descendant_of (replies db) x r) ∧
       (∀ x, x ∈ replies db → Reply.parent_id x = Some (Reply.id r) → x ∈ l) ∧
       (r ∉ l) ∧
       (Reply.deleted_at r = None → NoDup (Reply.id <$> replies db) →
        route_get_reply_descendants fuel db (Reply.id r) = Done (HttpOk l)).
Proof.
  intros Holder Hr Hfuel.
  destruct (Reply_descendants_terminates db Holder fuel r) as [l Hl].
  { pose proof (rows_above_le_length (replies db) (Reply.id r)). lia. }
  exists l.
  pose proof (elem_of_Reply_descendants db fuel r l) as Hiff.
  split_and!; [done|by intros x; apply Hiff| | |].
  - intros x Hx Hp. apply Hiff; [done..|]. by apply descendant_child.
  - intros Hin. apply Hiff in Hin; [|done..].
    apply (descendant_of_older _ _ _ Holder) in Hin. lia.
  - intros Hlive Hnd. unfold route_get_reply_descendants, get_reply_descendants.
    rewrite (get_reply_by_id_live db r Hnd Hr Hlive). simpl. by rewrite Hl.
Qed.

Lemma thread_db_older :
  Forall (λ r, ∀ p, Reply.parent_id r = Some p → p < Reply.id r) (replies thread_db).
Proof. repeat constructor; simpl; intros p [= <-]; lia. Qed.

Lemma descendants_spec_witness :
  thread_reply 3 None None ∈ replies thread_db ∧
  ∃ l, Reply_descendants 8 thread_db (thread_reply 3 None None) = Done l ∧
       thread_reply 6 (Some 3) (Some 300) ∈ l.
Proof.
  assert (Hin : thread_reply 3 None None ∈ replies thread_db) by compute_done.
  split; [done|].
  destruct (descendants_spec 8 thread_db _ thread_db_older Hin)
    as (l & Hl & _ & Hchild & _); [simpl; lia|].
  exists l. split; [done|]. apply Hchild; [compute_done|reflexivity].
Defined.

Lemma elem_of_Reply_ancestors db r : ∀ fuel x la,
  NoDup (Reply.id <$> replies db) → x ∈ replies db →
  Reply_ancestors fuel db x = Done la →
  r ∈ la ↔ descendant_of (replies db) x r.
Proof.
  unfold Reply_ancestors. intros fuel x la Hnd Hx Hla. split.
  - revert x la Hx Hla. induction fuel as [|f IH]; intros x la Hx Hla.
    + destruct (Reply_parent db x); simpl in Hla; [done|]. injection Hla as <-.
      by intros ?%not_elem_of_nil.
    + destruct (Reply_parent db x) as [p|] eqn:Hp; simpl in Hla;
        [|injection Hla as <-; by intros ?%not_elem_of_nil].
      destruct (ancestors_loop f db (Reply_parent db p)) as [rest|] eqn:Hrest;
        simpl in Hla; [|done].
      injection Hla as <-.
      pose proof (Reply_parent_Some _ _ _ Hp) as [Hin Hpid].
      intros [->|Hr]%elem_of_cons.
      * by apply descendant_child.
      * apply (descendant_step _ x p r); [done..|]. by apply (IH p rest).
  - intros Hdesc. revert fuel la Hla.
    induction Hdesc as [c p Hc Hp Hcp|c m p Hc Hcm Hm IH]; intros fuel la Hla.
    + rewrite (Reply_parent_of_key db c p Hnd Hp Hcp) in Hla.
      destruct fuel as [|f]; [done|]. simpl in Hla.
      destruct (ancestors_loop f db (Reply_parent db p)); simpl in Hla; [|done].
      injection Hla as <-. left.
    + assert (Hmin : m ∈ replies db) by by apply (descendant_of_elem_of _ m p).
      rewrite (Reply_parent_of_key db c m Hnd Hmin Hcm) in Hla.
      destruct fuel as [|f]; [done|]. simpl in Hla.
      destruct (ancestors_loop f db (Reply_parent db m)) as [rest|] eqn:Hrest;
        simpl in Hla; [|done].
      injection Hla as <-. right. by apply (IH Hmin f).
Qed.

(** X14. In a table where keys are distinct and every parent pointer
    names a smaller key, with fuel above the number of rows both walks
    return, and [r.is_ancestor_of(x)] is true exactly when [x] is among
    the [descendants] of [r], that is when parent pointers lead from
    [x] to [r]. *)
Theorem is_ancestor_of_spec fuel db r x :
  parents_older (replies db) → r ∈ replies db → x ∈ replies db →
  (length (replies db) < fuel)%nat →
  ∃ b l,
    Reply_is_ancestor_of fuel db r x = Done b ∧
    Reply_descendants fuel db r = Done l ∧
    (b = true ↔ x ∈ l) ∧ (b = true ↔ descendant_of (replies db) x r).
Proof.
  intros [Hnd Holder] Hr Hx Hfuel.
  destruct (Reply_ancestors_terminates db Holder fuel x Hx) as [la Hla]; [lia|].
  destruct (Reply_descendants_terminates db Holder fuel r) as [l Hl].
  { pose proof (rows_above_le_length (replies db) (Reply.id r)). lia. }
  exists (bool_decide (r ∈ la)), l. split_and!.
  - unfold Reply_is_ancestor_of. by rewrite Hla.
  - done.
  - rewrite bool_decide_eq_true, (elem_of_Reply_descendants db fuel r l x Hr Hl).
    by apply (elem_of_Reply_ancestors db r fuel x la).
  - rewrite bool_decide_eq_true. by apply (elem_of_Reply_ancestors db r fuel x la).
Qed.

Lemma is_ancestor_of_spec_witness :
  parents_older (replies thread_db) ∧
  Reply_is_ancestor_of 8 thread_db (thread_reply 1 None None) (thread_reply 4 (Some 2) None)
  = Done true ∧
  ∃ l, Reply_descendants 8 thread_db (thread_reply 1 None None) = Done l ∧
       thread_reply 4 (Some 2) None ∈ l.
Proof.
  assert (Hforest : parents_older (replies thread_db))
    by (split; [compute_done|apply thread_db_older]).
  split; [done|].
  destruct (is_ancestor_of_spec 8 thread_db (thread_reply 1 None None)
              (thread_reply 4 (Some 2) None) Hforest)
    as (b & l & Hb & Hl & Hiff & _); [compute_done|compute_done|simpl; lia|].
  assert (b = true) as -> by (vm_compute in Hb; by injection Hb as <-).
  split; [exact Hb|]. exists l. split; [exact Hl|]. by apply Hiff.
Defined.

(** ** The table [create_reply] builds *)

Lemma Reply_depth_unfold fuel db r :
  Reply_depth (S fuel) db r
  = match Reply_parent db r with
    | None => Done 0
    | Some p => d ← Reply_depth fuel db p; Done (d + 1)
    end.
Proof. reflexivity. Qed.

Section appended.
Context (db : Db) (r' : Reply.t).
Hypothesis Holder :
  Forall (λ r, ∀ p, Reply.parent_id r = Some p → p < Reply.id r) (replies db).
Hypothesis Hfresh : Forall (λ x, Reply.id x < Reply.id r') (replies db).
Let db' := set_replies (replies db ++ [r']) db.

Lemma Reply_parent_appended x : x ∈ replies db → Reply_parent db' x = Reply_parent db x.
Proof.
  intros Hx. unfold Reply_parent. destruct (Reply.parent_id x) as [p|] eqn:Hp; [|done].
  simpl. rewrite filter_app, filter_cons_False, filter_nil, app_nil_r; [done|].
  rewrite Forall_forall in Holder, Hfresh.
  pose proof (Holder x Hx p Hp). pose proof (Hfresh x Hx). lia.
Qed.

Lemma Reply_depth_appended fuel : ∀ x d,
  x ∈ replies db → Reply_depth fuel db x = Done d → Reply_depth fuel db' x = Done d.
Proof.
  induction fuel as [|f IH]; intros x d Hx Hd; [done|].
  rewrite Reply_depth_unfold in Hd. rewrite Reply_depth_unfold, Reply_parent_appended by done.
  destruct (Reply_parent db x) as [p|] eqn:Hp; [|done].
  pose proof (Reply_parent_Some _ _ _ Hp) as [Hin _].
  destruct (Reply_depth f db p) as [d'|] eqn:Hd'; simpl in Hd; [|done].
  by rewrite (IH p d' Hin Hd').
Qed.

End appended.

(** X15. [create_reply] keeps the replies table a forest of bounded
    depth: keys stay distinct and every parent pointer still names a
    smaller key; the parents and depths of the stored replies are what
    they were; the new reply has depth 0 without a parent and one more
    than its parent otherwise, at most 10.  So if no stored reply was
    deeper than 10, none is afterwards. *)
Theorem create_reply_keeps_forest fuel db now reply post_id db' r' :
  parents_older (replies db) → rc_parent_id reply ≠ Some 0 →
  create_reply fuel db now reply post_id = Done (Ok (db', r')) →
  parents_older (replies db') ∧
  (∀ x, x ∈ replies db → Reply_parent db' x = Reply_parent db x) ∧
  (∀ f x d, x ∈ replies db → Reply_depth f db x = Done d → Reply_depth f db' x = Done d) ∧
  (rc_parent_id reply = None → Reply_depth (S fuel) db' r' = Done 0) ∧
  (∀ p, rc_parent_id reply = Some p →
        ∃ parent d, get_reply_by_id db p = Some parent ∧
                    Reply_depth fuel db parent = Done d ∧
                    Reply_depth (S fuel) db' r' = Done (d + 1) ∧ d + 1 ≤ 10) ∧
  ((∀ x, x ∈ replies db → ∃ d, Reply_depth fuel db x = Done d ∧ d ≤ 10) →
   ∀ x, x ∈ replies db' → ∃ d, Reply_depth (S fuel) db' x = Done d ∧ d ≤ 10).
Proof.
  intros [Hnd Holder] Hvalid Hcr.
  apply create_reply_Ok in Hcr as (Hins & Hpost & Huser & Hparent).
  unfold insert_reply in Hins. injection Hins as -> ->.
  set (r' := Reply.mk (next_id (Reply.id <$> replies db)) (rc_content reply) post_id
                      (rc_author_id reply) (rc_parent_id reply) now now None).
  assert (Hfresh : Forall (λ x, Reply.id x < Reply.id r') (replies db)).
  { apply Forall_forall. intros x Hx. simpl. unfold next_id.
    assert (Reply.id x ≤ foldr Z.max 0 (Reply.id <$> replies db)); [|lia].
    apply foldr_max_ge, list_elem_of_fmap. by exists x. }
  assert (Hfound : ∀ p, rc_parent_id reply = Some p →
            ∃ parent d, parent ∈ replies db ∧ Reply.id parent = p ∧
                        Reply.deleted_at parent = None ∧
                        Reply_depth fuel db parent = Done d ∧ d < MAX_DEPTH).
  { intros p Hp. destruct Hparent as (parent & d & Hhead & Hdepth & Hd).
    { rewrite Hp. simpl. apply negb_true_iff, Z.eqb_neq. congruence. }
    rewrite Hp in Hhead. simpl in Hhead.
    apply head_filter_Some in Hhead as [(Hk & _ & Hlive) Hin].
    by exists parent, d. }
  assert (Hparent' : ∀ p parent, rc_parent_id reply = Some p → parent ∈ replies db →
            Reply.id parent = p →
            Reply_parent (set_replies (replies db ++ [r']) db) r' = Some parent).
  { intros p parent Hp Hin Hk. unfold Reply_parent. simpl. rewrite Hp, filter_app.
    rewrite <- Hk.
    assert (Hh : head (filter (λ x, Reply.id x = Reply.id parent) (replies db)) = Some parent)
      by by apply (head_filter_key Reply.id).
    destruct (filter (λ x, Reply.id x = Reply.id parent) (replies db)); [done|]. done. }
  assert (Hnew : ∀ x, x ∈ replies db ++ [r'] → x ∈ replies db ∨ x = r').
  { intros x [Hx|Hx%list_elem_of_singleton]%elem_of_app; auto. }
  split_and!.
  - split.
    + simpl. rewrite fmap_app. apply NoDup_app. split_and!; [done| |apply NoDup_singleton].
      intros k Hk ->%list_elem_of_singleton. by apply (next_id_fresh (Reply.id <$> replies db)).
    + simpl. apply Forall_app. split; [done|]. constructor; [|constructor].
      intros p Hp. simpl in Hp.
      destruct (Hfound p Hp) as (parent & d & Hin & <- & _).
      rewrite Forall_forall in Hfresh. exact (Hfresh parent Hin).
  - intros x Hx. by apply Reply_parent_appended.
  - intros f x d Hx Hd. by apply Reply_depth_appended.
  - intros Hnone. rewrite Reply_depth_unfold. unfold Reply_parent, r'. simpl.
    by rewrite Hnone.
  - intros p Hp. destruct (Hfound p Hp) as (parent & d & Hin & Hk & Hlive & Hd & Hlt).
    exists parent, d. split_and!.
    + rewrite <- Hk. by apply get_reply_by_id_live.
    + done.
    + rewrite Reply_depth_unfold, (Hparent' p parent Hp Hin Hk).
      by rewrite (Reply_depth_appended db r' Holder Hfresh fuel parent d Hin Hd).
    + unfold MAX_DEPTH in Hlt. lia.
  - intros Hbound x Hx. simpl in Hx. apply Hnew in Hx as [Hx| ->].
    + destruct (Hbound x Hx) as (d & Hd & Hle). exists d. split; [|done].
      by apply Reply_depth_fuel, Reply_depth_appended.
    + destruct (rc_parent_id reply) as [p|] eqn:Hp.
      * destruct (Hfound p eq_refl) as (parent & d & Hin & Hk & Hlive & Hd & Hlt).
        exists (d + 1). split; [|unfold MAX_DEPTH in Hlt; lia].
        rewrite Reply_depth_unfold, (Hparent' p parent eq_refl Hin Hk).
        by rewrite (Reply_depth_appended db r' Holder Hfresh fuel parent d Hin Hd).
      * exists 0. split; [|lia]. by rewrite Reply_depth_unfold.
Qed.

Lemma create_reply_keeps_forest_witness :
  parents_older (replies ex_db) ∧
  ∃ db' r', create_reply 5 ex_db 80 (mkReplyCreate "C" 3 (Some 2)) 1 = Done (Ok (db', r')) ∧
            parents_older (replies db') ∧
            Reply_depth 6 db' r' = Done 2.
Proof.
  assert (Hforest : parents_older (replies ex_db)).
  { split; [compute_done|]. repeat constructor; simpl; intros p [= <-]; lia. }
  assert (Hvalid : rc_parent_id (mkReplyCreate "C" 3 (Some 2)) ≠ Some 0) by done.
  split; [done|].
  assert (Hcr : create_reply 5 ex_db 80 (mkReplyCreate "C" 3 (Some 2)) 1
                = Done (Ok (insert_reply ex_db 80 (mkReplyCreate "C" 3 (Some 2)) 1)))
    by (by vm_compute).
  destruct (insert_reply ex_db 80 (mkReplyCreate "C" 3 (Some 2)) 1) as [db' r'].
  exists db', r'. split; [exact Hcr|].
  destruct (create_reply_keeps_forest 5 ex_db 80 (mkReplyCreate "C" 3 (Some 2)) 1 db' r'
              Hforest Hvalid Hcr) as (Hforest' & _ & _ & _ & Hdepth & _).
  split; [done|].
  destruct (Hdepth 2 eq_refl) as (parent & d & Hget & Hd & Hd' & _).
  assert (parent = ex_B) as -> by (vm_compute in Hget; by injection Hget as <-).
  assert (d = 1) as -> by (vm_compute in Hd; by injection Hd as <-).
  exact Hd'.
Defined.

(** ** Siblings *)

(** X16. [siblings] is symmetric and irreflexive on stored replies: a
    sibling of [r] is a stored row with another key and the same
    parent row as [r] (for replies without parent row: of the same
    post), and it has [r] among its own siblings. *)
Theorem siblings_symmetric db r x :
  r ∈ replies db → x ∈ Reply_siblings db r →
  x ∈ replies db ∧ Reply.id x ≠ Reply.id r ∧
  Reply_parent db x = Reply_parent db r ∧
  (Reply_parent db r = None → Reply.post_id x = Reply.post_id r) ∧
  r ∈ Reply_siblings db x.
Proof.
  intros Hr. unfold Reply_siblings at 1.
  destruct (Reply_parent db r) as [p|] eqn:Hp.
  - intros [Hne [Hx Hxp]%elem_of_Reply_children]%list_elem_of_filter.
    pose proof (Reply_parent_Some _ _ _ Hp) as [Hin Hrp].
    assert (Hp' : Reply_parent db x = Some p).
    { unfold Reply_parent in Hp |- *. rewrite Hxp. by rewrite Hrp in Hp. }
    split_and!; [done..|].
    unfold Reply_siblings. rewrite Hp'. apply list_elem_of_filter. split; [done|].
    by apply elem_of_Reply_children.
  - unfold Post_replies.
    intros [[Hxp Hne] [Hpost Hx]%list_elem_of_filter]%list_elem_of_filter.
    split_and!; [done..|].
    unfold Reply_siblings. rewrite Hxp. apply list_elem_of_filter. split; [done|].
    apply list_elem_of_filter. by split.
Qed.

Lemma siblings_symmetric_witness :
  thread_reply 2 (Some 1) None ∈ replies thread_db ∧
  thread_reply 2 (Some 1) None ∈ Reply_siblings thread_db (thread_reply 5 (Some 1) None).
Proof.
  assert (Hr : thread_reply 2 (Some 1) None ∈ replies thread_db) by compute_done.
  split; [done|].
  apply (siblings_symmetric thread_db (thread_reply 2 (Some 1) None)
           (thread_reply 5 (Some 1) None) Hr).
  compute_done.
Defined.

(** ** The thread of a reply *)

Lemma thread_root_descendant db fuel : ∀ r t,
  r ∈ replies db → Reply_thread_root fuel db r = Done t →
  t ∈ replies db ∧ Reply_parent db t = None ∧ (r = t ∨ descendant_of (replies db) r t).
Proof.
  induction fuel as [|f IH]; intros r t Hr Ht; [done|]. simpl in Ht.
  destruct (Reply_parent db r) as [p|] eqn:Hp.
  - pose proof (Reply_parent_Some _ _ _ Hp) as [Hin Hrp].
    destruct (IH p t Hin Ht) as (Htin & Htp & [->|Hdesc]).
    + split_and!; [done..|]. right. by apply descendant_child.
    + split_and!; [done..|]. right. by apply (descendant_step _ r p t).
  - injection Ht as <-. auto.
Qed.

(** X17. In a table where keys are distinct and parent pointers name
    smaller keys, [get_reply_thread] of a live reply returns, in
    creation order, the root above the reply and every row below that
    root (soft-deleted rows included); the reply itself is among them
    and the handler answers 200 with the list. *)
Theorem get_reply_thread_spec fuel db r :
  parents_older (replies db) → r ∈ replies db → Reply.deleted_at r = None →
  (length (replies db) < fuel)%nat →
  ∃ root l,
    Reply_thread_root fuel db r = Done root ∧
    get_reply_thread fuel db (Reply.id r) = Done (Some l) ∧
    route_get_reply_thread fuel db (Reply.id r) = Done (HttpOk l) ∧
    Reply_parent db root = None ∧
    (∀ x, x ∈ l ↔ x = root ∨ descendant_of (replies db) x root) ∧
    r ∈ l ∧ root ∈ l ∧
    StronglySorted created_le l.
Proof.
  intros [Hnd Holder] Hr Hlive Hfuel.
  destruct fuel as [|f]; [lia|].
  destruct (Reply_ancestors_terminates db Holder f r Hr) as [la Hla]; [lia|].
  destruct (ancestors_depth _ _ _ _ Hla) as [_ Hroot].
  set (root := default r (last la)) in *.
  destruct (thread_root_descendant db (S f) r root Hr Hroot) as (Hin & Hnone & Hpath).
  destruct (Reply_descendants_terminates db Holder (S f) root) as [ld Hld].
  { pose proof (rows_above_le_length (replies db) (Reply.id root)). lia. }
  pose proof (λ x, elem_of_Reply_descendants db (S f) root ld x Hin Hld) as Hiff.
  set (l := order_by_created_at (root :: ld)).
  assert (Hget : get_reply_thread (S f) db (Reply.id r) = Done (Some l)).
  { unfold get_reply_thread. rewrite (get_reply_by_id_live db r Hnd Hr Hlive), Hroot.
    unfold mbind, run_bind. by rewrite Hld. }
  assert (Hl : ∀ x, x ∈ l ↔ x = root ∨ descendant_of (replies db) x root).
  { intros x. unfold l. by rewrite elem_of_order_by_created_at, elem_of_cons, Hiff. }
  assert (Hrootl : root ∈ l) by (apply Hl; by left).
  exists root, l. split_and!; try done.
  - unfold route_get_reply_thread. rewrite Hget. simpl.
    destruct l; [by apply not_elem_of_nil in Hrootl|done].
  - apply Hl. destruct Hpath; auto.
  - apply order_by_created_at_sorted.
Qed.

Lemma get_reply_thread_spec_witness :
  parents_older (replies thread_db) ∧
  ∃ l, get_reply_thread 8 thread_db 4 = Done (Some l) ∧ thread_reply 1 None None ∈ l.
Proof.
  assert (Hforest : parents_older (replies thread_db))
    by (split; [compute_done|apply thread_db_older]).
  split; [done|].
  destruct (get_reply_thread_spec 8 thread_db (thread_reply 4 (Some 2) None) Hforest)
    as (root & l & Hroot & Hget & _ & _ & _ & _ & Hin & _);
    [compute_done|done|simpl; lia|].
  exists l. split; [exact Hget|].
  assert (root = thread_reply 1 None None) as <-; [|done].
  vm_compute in Hroot. by injection Hroot as <-.
Defined.

(** ** Counting the replies of a post *)

Lemma mark_row_other_fmap utcnow now rid (l : list Reply.t) :
  rid ∉ Reply.id <$> l → mark_row utcnow now rid <$> l = l.
Proof.
  induction l as [|x l IH]; [done|]. rewrite fmap_cons, not_elem_of_cons.
  intros [Hx Hl]. rewrite fmap_cons, (IH Hl). f_equal.
  unfold mark_row. by rewrite bool_decide_eq_false_2.
Qed.

(** X18. [count_post_replies] is the length of the complete flat
    listing of the post and bounds the length of every page of it.  A
    successful [delete_reply] lowers the count of the reply's post by
    one and a successful [create_reply] raises the count of its post by
    one; the counts of the other posts stay as they are. *)
Theorem count_post_replies_spec db post_id :
  count_post_replies db post_id
  = Z.of_nat (length (get_post_replies db post_id 0 (length (replies db)))) ∧
  (∀ skip limit,
     Z.of_nat (length (get_post_replies db post_id skip limit))
     ≤ count_post_replies db post_id) ∧
  (∀ utcnow now reply_id db',
     NoDup (Reply.id <$> replies db) →
     delete_reply db utcnow now reply_id = (db', true) →
     ∃ r, get_reply_by_id db reply_id = Some r ∧
          count_post_replies db' post_id
          = count_post_replies db post_id
            - (if bool_decide (Reply.post_id r = post_id) then 1 else 0)) ∧
  (∀ fuel now reply p db' r',
     create_reply fuel db now reply p = Done (Ok (db', r')) →
     count_post_replies db' post_id
     = count_post_replies db post_id + (if bool_decide (p = post_id) then 1 else 0)).
Proof.
  split_and!.
  - unfold count_post_replies. by rewrite get_post_replies_all, length_order_by_created_at.
  - intros skip limit. unfold count_post_replies, get_post_replies, offset_limit.
    rewrite length_take, length_drop, length_order_by_created_at. lia.
  - intros utcnow now reply_id db' Hnd Hdel.
    destruct (get_reply_by_id db reply_id) as [r|] eqn:Hget;
      [|unfold delete_reply in Hdel; by rewrite Hget in Hdel].
    exists r. split; [done|].
    rewrite (delete_reply_marks _ _ _ _ _ Hget) in Hdel. injection Hdel as <-.
    apply get_reply_by_id_Some in Hget as (Hin & <- & Hlive).
    apply list_elem_of_split in Hin as (l1 & l2 & Hsplit).
    rewrite Hsplit, fmap_app, fmap_cons in Hnd.
    apply NoDup_app in Hnd as (Hnd1 & Hl1 & Hnd2). apply NoDup_cons in Hnd2 as [Hl2 _].
    unfold count_post_replies. simpl.
    rewrite Hsplit, fmap_app, fmap_cons, !mark_row_other_fmap; [|done|].
    + rewrite !filter_app, !filter_cons, !length_app.
      assert (mark_row utcnow now (Reply.id r) r = mark_deleted utcnow now r) as ->
        by (unfold mark_row; by rewrite bool_decide_eq_true_2).
      rewrite decide_False by (simpl; intros [_ ?]; done).
      case_bool_decide as Hp.
      * rewrite decide_True by done. simpl. lia.
      * rewrite decide_False by (intros [? _]; done). lia.
    + intros Hr. apply (Hl1 (Reply.id r)); [done|left].
  - intros fuel now reply p db' r' Hcr.
    apply create_reply_Ok in Hcr as (Hins & _).
    unfold insert_reply in Hins. injection Hins as -> ->.
    unfold count_post_replies. simpl. rewrite filter_app, length_app, filter_cons, filter_nil.
    case_bool_decide as Hp.
    + rewrite decide_True by done. simpl. lia.
    + rewrite decide_False by (simpl; intros [? _]; done). simpl. lia.
Qed.

(** ** Histories and recent rows *)

Lemma StronglySorted_offset_limit {A} (R : relation A) skip limit (l : list A) :
  StronglySorted R l → StronglySorted R (offset_limit skip limit l).
Proof.
  intros Hl. unfold offset_limit.
  rewrite <- (take_drop skip l) in Hl. apply StronglySorted_app_1_r in Hl.
  rewrite <- (take_drop limit (drop skip l)) in Hl. by apply StronglySorted_app_1_l in Hl.
Qed.

Lemma elem_of_offset_limit {A} skip limit (l : list A) x :
  x ∈ offset_limit skip limit l → x ∈ l.
Proof. unfold offset_limit. intros Hx. by apply subseteq_take, subseteq_drop in Hx. Qed.

Lemma offset_limit_all {A} (l : list A) n : (length l ≤ n)%nat → offset_limit 0 n l = l.
Proof. intros Hn. unfold offset_limit. rewrite drop_0. by apply take_ge. Qed.

Lemma length_offset_limit {A} skip limit (l : list A) :
  (length (offset_limit skip limit l) ≤ limit)%nat.
Proof. unfold offset_limit. rewrite length_take. lia. Qed.

Lemma vote_newer_le_total (x y : Vote.t) : ¬ vote_newer_le x y → vote_newer_le y x.
Proof. unfold vote_newer_le. lia. Qed.

Lemma vote_newer_le_trans (x y z : Vote.t) :
  vote_newer_le x y → vote_newer_le y z → vote_newer_le x z.
Proof. unfold vote_newer_le. lia. Qed.

Lemma reply_newer_le_total (x y : Reply.t) : ¬ reply_newer_le x y → reply_newer_le y x.
Proof. unfold reply_newer_le. lia. Qed.

Lemma reply_newer_le_trans (x y z : Reply.t) :
  reply_newer_le x y → reply_newer_le y z → reply_newer_le x z.
Proof. unfold reply_newer_le. lia. Qed.

(** X20. [get_vote_history] returns votes of the given user only,
    newest first and at most [limit] of them; with ["posts"] only votes
    on posts, with ["replies"] only votes on replies, and any other
    [target_type] is read as no filter.  A page from 0 that is as long
    as the table has every vote of the user of the kind asked for. *)
Theorem get_vote_history_spec db user_id target_type skip limit :
  StronglySorted vote_newer_le (get_vote_history db user_id target_type skip limit) ∧
  (length (get_vote_history db user_id target_type skip limit) ≤ limit)%nat ∧
  (∀ v, v ∈ get_vote_history db user_id target_type skip limit →
        v ∈ votes db ∧ Vote.user_id v = user_id ∧
        (target_type = "posts" → Vote.post_id v ≠ None) ∧
        (target_type = "replies" → Vote.reply_id v ≠ None)) ∧
  (∀ v, v ∈ votes db → Vote.user_id v = user_id →
        (target_type = "posts" → Vote.post_id v ≠ None) →
        (target_type = "replies" → Vote.reply_id v ≠ None) →
        v ∈ get_vote_history db user_id target_type 0 (length (votes db))) ∧
  (target_type ≠ "posts" → target_type ≠ "replies" →
   get_vote_history db user_id target_type skip limit
   = get_vote_history db user_id "all" skip limit).
Proof.
  unfold get_vote_history.
  set (mine := filter (λ v, Vote.user_id v = user_id) (votes db)).
  set (query := if bool_decide (target_type = "posts")
                then filter (λ v, Vote.post_id v ≠ None) mine
                else if bool_decide (target_type = "replies")
                     then filter (λ v, Vote.reply_id v ≠ None) mine
                     else mine).
  assert (Hquery : ∀ v, v ∈ query ↔
            v ∈ votes db ∧ Vote.user_id v = user_id ∧
            (target_type = "posts" → Vote.post_id v ≠ None) ∧
            (target_type = "replies" → Vote.reply_id v ≠ None)).
  { intros v. unfold query, mine. repeat case_bool_decide; subst;
      rewrite ?list_elem_of_filter; intuition (auto; discriminate). }
  assert (Hlen : (length query ≤ length (votes db))%nat).
  { unfold query, mine. repeat case_bool_decide.
    - etrans; [apply length_filter|apply length_filter].
    - etrans; [apply length_filter|apply length_filter].
    - apply length_filter. }
  split_and!.
  - apply StronglySorted_offset_limit, sort_by_sorted;
      [apply vote_newer_le_total|apply vote_newer_le_trans].
  - apply length_offset_limit.
  - intros v Hv%elem_of_offset_limit%elem_of_sort_by. by apply Hquery.
  - intros v Hv Hu Hp Hr. rewrite offset_limit_all by (by rewrite length_sort_by).
    apply elem_of_sort_by, Hquery. done.
  - intros Hp Hr. unfold query.
    rewrite !bool_decide_eq_false_2 by done. done.
Qed.

(** X21. [get_recent_replies] returns live replies only, newest first
    and at most [limit] of them, and no live reply it leaves out is
    newer than one it returns.  [get_user_replies] returns live replies
    of the given author only, newest first, at most [limit]; a page
    from 0 as long as the table has them all. *)
Theorem recent_replies_spec db user_id skip limit :
  StronglySorted reply_newer_le (get_recent_replies db limit) ∧
  (length (get_recent_replies db limit) ≤ limit)%nat ∧
  (∀ x, x ∈ get_recent_replies db limit → x ∈ replies db ∧ Reply.deleted_at x = None) ∧
  (∀ x y, x ∈ get_recent_replies db limit →
          y ∈ replies db → Reply.deleted_at y = None → y ∉ get_recent_replies db limit →
          Reply.created_at y ≤ Reply.created_at x) ∧
  StronglySorted reply_newer_le (get_user_replies db user_id skip limit) ∧
  (length (get_user_replies db user_id skip limit) ≤ limit)%nat ∧
  (∀ x, x ∈ get_user_replies db user_id skip limit →
        x ∈ replies db ∧ Reply.author_id x = user_id ∧ Reply.deleted_at x = None) ∧
  (∀ x, x ∈ replies db → Reply.author_id x = user_id → Reply.deleted_at x = None →
        x ∈ get_user_replies db user_id 0 (length (replies db))).
Proof.
  unfold get_recent_replies, get_user_replies.
  set (live := filter (λ r, Reply.deleted_at r = None) (replies db)).
  set (mine := filter (λ r, Reply.author_id r = user_id ∧ Reply.deleted_at r = None)
                      (replies db)).
  pose proof (sort_by_sorted reply_newer_le reply_newer_le_total reply_newer_le_trans live)
    as Hlive.
  pose proof (sort_by_sorted reply_newer_le reply_newer_le_total reply_newer_le_trans mine)
    as Hmine.
  split_and!.
  - rewrite <- (take_drop limit) in Hlive. by apply StronglySorted_app_1_l in Hlive.
  - rewrite length_take. lia.
  - intros x Hx%subseteq_take%elem_of_sort_by%list_elem_of_filter. tauto.
  - intros x y Hx Hy Hylive Hout.
    assert (Hin : y ∈ sort_by reply_newer_le live).
    { apply elem_of_sort_by, list_elem_of_filter. done. }
    rewrite <- (take_drop limit) in Hlive, Hin.
    apply elem_of_app in Hin as [Hin|Hin]; [done|].
    apply (StronglySorted_app_1_elem_of _ _ _ _ _ Hlive Hx Hin).
  - by apply StronglySorted_offset_limit.
  - apply length_offset_limit.
  - intros x Hx%elem_of_offset_limit%elem_of_sort_by%list_elem_of_filter. tauto.
  - intros x Hx Hauthor Hxlive. rewrite offset_limit_all.
    + apply elem_of_sort_by, list_elem_of_filter. done.
    + rewrite length_sort_by. apply length_filter.
Qed.

(** ** Voting statistics *)

Lemma size_list_to_set_le `{Countable K} (l : list K) :
  (size (list_to_set l : gset K) ≤ length l)%nat.
Proof.
  induction l as [|x l IH]; [done|].
  rewrite list_to_set_cons, size_union_alt, size_singleton. simpl.
  assert (size (list_to_set l ∖ {[x]} : gset K) ≤ size (list_to_set l : gset K))%nat
    by (apply subseteq_size, subseteq_difference_l; done).
  lia.
Qed.

Lemma length_filter_split {A} (P Q : A → Prop) `{!∀ x, Decision (P x)} `{!∀ x, Decision (Q x)}
    (l : list A) :
  (∀ x, x ∈ l → ¬ (P x ∧ Q x)) →
  (length (filter P l) + length (filter Q l) ≤ length l)%nat.
Proof.
  induction l as [|x l IH]; intros Hx; [done|].
  rewrite !filter_cons. simpl.
  assert (IH' : (length (filter P l) + length (filter Q l) ≤ length l)%nat).
  { apply IH. intros y Hy. apply Hx. by right. }
  pose proof (Hx x (list_elem_of_here _ _)).
  destruct (decide (P x)), (decide (Q x)); simpl; try lia. tauto.
Qed.

Lemma length_filter_cover {A} (P Q : A → Prop) `{!∀ x, Decision (P x)} `{!∀ x, Decision (Q x)}
    (l : list A) :
  (∀ x, (P x ∧ ¬ Q x) ∨ (Q x ∧ ¬ P x)) →
  (length (filter P l) + length (filter Q l) = length l)%nat.
Proof.
  intros Hx. induction l as [|x l IH]; [done|].
  rewrite !filter_cons. simpl.
  destruct (Hx x) as [[? ?]|[? ?]].
  - rewrite decide_True, decide_False by done. simpl. lia.
  - rewrite decide_False, decide_True by done. simpl. lia.
Qed.

(** X22. In the dictionary of [get_voting_stats] the total is the sum
    of the upvotes and the downvotes; the voters, the posts with votes
    and the replies with votes are each at most the total, and there
    is a voter exactly when there is a vote.  When every row targets
    one of post and reply (the check constraint of the table), posts
    and replies with votes together are at most the total. *)
Theorem get_voting_stats_spec db :
  stats_total_votes (get_voting_stats db)
  = stats_total_upvotes (get_voting_stats db) + stats_total_downvotes (get_voting_stats db) ∧
  stats_total_votes (get_voting_stats db) = Z.of_nat (length (votes db)) ∧
  0 ≤ stats_active_voters (get_voting_stats db) ≤ stats_total_votes (get_voting_stats db) ∧
  (stats_active_voters (get_voting_stats db) = 0 ↔ votes db = []) ∧
  stats_posts_with_votes (get_voting_stats db) ≤ stats_total_votes (get_voting_stats db) ∧
  stats_replies_with_votes (get_voting_stats db) ≤ stats_total_votes (get_voting_stats db) ∧
  (Forall (λ v, vote_target_constraint v = true) (votes db) →
   stats_posts_with_votes (get_voting_stats db)
   + stats_replies_with_votes (get_voting_stats db)
   ≤ stats_total_votes (get_voting_stats db)).
Proof.
  unfold get_voting_stats. simpl.
  pose proof (size_list_to_set_le (Vote.user_id <$> votes db)) as Hvoters.
  pose proof (size_list_to_set_le
                (Vote.post_id <$> filter (λ v, truthy (Vote.post_id v) = true) (votes db)))
    as Hposts.
  pose proof (size_list_to_set_le
                (Vote.reply_id <$> filter (λ v, truthy (Vote.reply_id v) = true) (votes db)))
    as Hreplies.
  rewrite length_fmap in Hvoters. rewrite length_fmap in Hposts.
  rewrite length_fmap in Hreplies.
  pose proof (length_filter (λ v, truthy (Vote.post_id v) = true) (votes db)) as Hp.
  pose proof (length_filter (λ v, truthy (Vote.reply_id v) = true) (votes db)) as Hr.
  split_and!; try lia.
  - rewrite <- Nat2Z.inj_add. f_equal. symmetry. apply length_filter_cover.
    intros v. destruct (Vote.vote_type v); simpl; [left|right]; split; done.
  - split.
    + intros Hz. assert (Hs : size (list_to_set (Vote.user_id <$> votes db) : gset Z) = 0%nat)
        by lia.
      apply size_empty_inv in Hs. destruct (votes db) as [|v vs]; [done|].
      rewrite fmap_cons, list_to_set_cons in Hs. set_solver.
    + intros ->. done.
  - intros Hok.
    assert ((length (filter (λ v, truthy (Vote.post_id v) = true) (votes db))
             + length (filter (λ v, truthy (Vote.reply_id v) = true) (votes db))
             ≤ length (votes db))%nat); [|lia].
    apply length_filter_split. intros v Hv [Hvp Hvr].
    rewrite Forall_forall in Hok. specialize (Hok v Hv).
    unfold vote_target_constraint in Hok.
    destruct (Vote.post_id v), (Vote.reply_id v); done.
Qed.

(** ** The votes of a target *)

Lemma no_clash_voters (target : Vote.t → option Z) k vs :
  (∀ v w, Vote.user_id v = Vote.user_id w → target v = Some k → target w = Some k →
          unique_clash v w = true) →
  no_clash vs → NoDup (Vote.user_id <$> filter (λ v, target v = Some k) vs).
Proof.
  intros Hclash. induction vs as [|v vs IH]; intros Hvs; [constructor|].
  destruct Hvs as [Hv Hvs]. rewrite filter_cons.
  destruct (decide (target v = Some k)) as [Hk|Hk]; [|by apply IH].
  rewrite fmap_cons. constructor; [|by apply IH].
  intros (w & Hu & [Hwk Hw]%list_elem_of_filter)%list_elem_of_fmap.
  rewrite Forall_forall in Hv. specialize (Hv w Hw).
  by rewrite (Hclash v w Hu Hk Hwk) in Hv.
Qed.

Lemma NoDup_offset_limit {A} skip limit (l : list A) :
  NoDup l → NoDup (offset_limit skip limit l).
Proof.
  intros Hl. unfold offset_limit.
  apply (sublist_NoDup _ (drop skip l)); [|apply sublist_take].
  by apply (sublist_NoDup _ l); [|apply sublist_drop].
Qed.

Lemma offset_limit_fmap {A B} (f : A → B) skip limit (l : list A) :
  f <$> offset_limit skip limit l = offset_limit skip limit (f <$> l).
Proof. unfold offset_limit. by rewrite fmap_take, fmap_drop. Qed.

(** X23. The pages of [get_votes_for_post] and [get_votes_for_reply]
    hold stored votes on that target only, and the complete listing has
    as many rows as the [total_votes] of the vote counts.  On a table
    that satisfies the uniqueness constraints no voter appears twice in
    a page, so the total is a number of distinct voters. *)
Theorem votes_of_target_spec db k skip limit :
  (∀ v, v ∈ get_votes_for_post db k skip limit → v ∈ votes db ∧ Vote.post_id v = Some k) ∧
  (∀ v, v ∈ get_votes_for_reply db k skip limit → v ∈ votes db ∧ Vote.reply_id v = Some k) ∧
  total_votes (get_vote_counts_for_post db k)
  = Z.of_nat (length (get_votes_for_post db k 0 (length (votes db)))) ∧
  total_votes (get_vote_counts_for_reply db k)
  = Z.of_nat (length (get_votes_for_reply db k 0 (length (votes db)))) ∧
  (no_clash (votes db) →
   NoDup (Vote.user_id <$> get_votes_for_post db k skip limit) ∧
   NoDup (Vote.user_id <$> get_votes_for_reply db k skip limit)).
Proof.
  assert (Htotal : ∀ vs : list Vote.t,
            (length (filter (λ v, Vote.vote_type v = upvote) vs)
             + length (filter (λ v, Vote.vote_type v = downvote) vs) = length vs)%nat).
  { intros vs. apply length_filter_cover.
    intros v. destruct (Vote.vote_type v); [left|right]; split; done. }
  unfold get_votes_for_post, get_votes_for_reply.
  split_and!.
  - intros v Hv%elem_of_offset_limit%list_elem_of_filter. tauto.
  - intros v Hv%elem_of_offset_limit%list_elem_of_filter. tauto.
  - rewrite offset_limit_all by apply length_filter.
    unfold get_vote_counts_for_post, count_votes. simpl.
    rewrite <- Nat2Z.inj_add. f_equal. apply Htotal.
  - rewrite offset_limit_all by apply length_filter.
    unfold get_vote_counts_for_reply, count_votes. simpl.
    rewrite <- Nat2Z.inj_add. f_equal. apply Htotal.
  - intros Hvs. rewrite !offset_limit_fmap. split; apply NoDup_offset_limit.
    + apply (no_clash_voters Vote.post_id); [|done].
      intros v w Hu Hv Hw. unfold unique_clash. rewrite Hv, Hw.
      by rewrite !bool_decide_eq_true_2.
    + apply (no_clash_voters Vote.reply_id); [|done].
      intros v w Hu Hv Hw. unfold unique_clash. rewrite Hv, Hw.
      rewrite !bool_decide_eq_true_2 by done. by rewrite orb_true_r.
Qed.

(** ** The children of a reply *)

(** X24. [get_reply_children] lists the live stored rows whose parent
    pointer is the given key, in creation order: every row of a page is
    such a row, a page from 0 as long as the table has every such row
    exactly as often as the table has it, and a page is never longer
    than [limit].  Its handler answers 404 when the key names no live
    reply.  After a successful [delete_reply] of a reply that is not
    its own parent the handler answers 404 for it, although
    [get_reply_children] itself still returns the same children as
    before. *)
Theorem get_reply_children_spec db reply_id skip limit :
  StronglySorted created_le (get_reply_children db reply_id skip limit) ∧
  (∀ x, x ∈ get_reply_children db reply_id skip limit →
        x ∈ replies db ∧ Reply.parent_id x = Some reply_id ∧ Reply.deleted_at x = None) ∧
  (∀ x, x ∈ replies db → Reply.parent_id x = Some reply_id → Reply.deleted_at x = None →
        x ∈ get_reply_children db reply_id 0 (length (replies db))) ∧
  get_reply_children db reply_id 0 (length (replies db))
    ≡ₚ filter (λ x, Reply.parent_id x = Some reply_id ∧ Reply.deleted_at x = None)
              (replies db) ∧
  (length (get_reply_children db reply_id skip limit) ≤ limit)%nat ∧
  (get_reply_by_id db reply_id = None →
   route_get_reply_children db reply_id skip limit = HTTPException 404 "Reply not found") ∧
  (∀ r, get_reply_by_id db reply_id = Some r →
   route_get_reply_children db reply_id skip limit
   = HttpOk (get_reply_children db reply_id skip limit)) ∧
  (∀ utcnow now db' r,
     NoDup (Reply.id <$> replies db) →
     get_reply_by_id db reply_id = Some r → Reply.parent_id r ≠ Some reply_id →
     delete_reply db utcnow now reply_id = (db', true) →
     route_get_reply_children db reply_id skip limit
     = HttpOk (get_reply_children db reply_id skip limit) ∧
     get_reply_children db' reply_id skip limit = get_reply_children db reply_id skip limit ∧
     route_get_reply_children db' reply_id skip limit
     = HTTPException 404 "Reply not found").
Proof.
  assert (Hall : get_reply_children db reply_id 0 (length (replies db))
                 = order_by_created_at
                     (filter (λ x, Reply.parent_id x = Some reply_id ∧ Reply.deleted_at x = None)
                             (replies db))).
  { unfold get_reply_children. apply offset_limit_all.
    rewrite length_order_by_created_at. apply length_filter. }
  split_and!.
  - apply StronglySorted_offset_limit, order_by_created_at_sorted.
  - intros x Hx%elem_of_offset_limit%elem_of_order_by_created_at%list_elem_of_filter. tauto.
  - intros x Hx Hp Hlive. rewrite Hall.
    apply elem_of_order_by_created_at, list_elem_of_filter. done.
  - rewrite Hall. apply order_by_created_at_Permutation.
  - apply length_offset_limit.
  - intros Hnone. unfold route_get_reply_children. by rewrite Hnone.
  - intros r Hget. unfold route_get_reply_children. by rewrite Hget.
  - intros utcnow now db' r Hnd Hget Hself Hdel.
    rewrite (delete_reply_marks _ _ _ _ _ Hget) in Hdel. injection Hdel as <-.
    pose proof (get_reply_by_id_Some _ _ _ Hget) as (Hin & Hk & Hlive).
    assert (Hsame : filter (λ x, Reply.parent_id x = Some reply_id ∧ Reply.deleted_at x = None)
                           (mark_row utcnow now reply_id <$> replies db)
                    = filter (λ x, Reply.parent_id x = Some reply_id ∧ Reply.deleted_at x = None)
                             (replies db)).
    { apply filter_fmap_fixed. intros x Hx. unfold mark_row.
      destruct (decide (Reply.id x = reply_id)) as [Hxk|Hxk].
      - rewrite bool_decide_eq_true_2 by done.
        assert (x = r) as -> by (apply (key_inj_in Reply.id (replies db)); congruence).
        simpl. split; [|by intros [? _]]. split; intros [? ?]; done.
      - by rewrite bool_decide_eq_false_2. }
    assert (Hgone : get_reply_by_id
                      (set_replies (mark_row utcnow now reply_id <$> replies db) db) reply_id
                    = None).
    { apply head_filter_None. intros x Hx [Hxk Hxlive]. simpl in Hx.
      apply list_elem_of_fmap in Hx as (y & -> & Hy).
      rewrite mark_row_id in Hxk. unfold mark_row in Hxlive.
      by rewrite bool_decide_eq_true_2 in Hxlive. }
    split_and!.
    + unfold route_get_reply_children. by rewrite Hget.
    + unfold get_reply_children. simpl. by rewrite Hsame.
    + unfold route_get_reply_children. by rewrite Hgone.
Qed.

(** * Soft deletion *)





(** The walk up from a child of a reply, before and after the soft
    delete of that reply. *)
Lemma ancestors_after_delete db utcnow now r fuel c l :
  NoDup (Reply.id <$> replies db) →
  get_reply_by_id db (Reply.id r) = Some r →
  c ∈ replies db → Reply.parent_id c = Some (Reply.id r) → Reply.id c ≠ Reply.id r →
  Reply_ancestors fuel db c = Done l →
  ∃ rest, l = r :: rest ∧
          Reply_ancestors fuel
            (set_replies (mark_row utcnow now (Reply.id r) <$> replies db) db) c =
          Done (mark_deleted utcnow now r :: (mark_row utcnow now (Reply.id r) <$> rest)) ∧
          (Reply.deleted_at c = None →
           get_reply_ancestors fuel db (Reply.id c) = Done (Some l) ∧
           get_reply_ancestors fuel
             (set_replies (mark_row utcnow now (Reply.id r) <$> replies db) db) (Reply.id c) =
           Done (Some (mark_deleted utcnow now r
                       :: (mark_row utcnow now (Reply.id r) <$> rest)))).
Proof.
  intros Hnd Hfound Hc Hparent Hne Hanc.
  pose proof (get_reply_by_id_Some _ _ _ Hfound) as (Hr & _ & Hlive).
  unfold Reply_ancestors in *.
  assert (Hp : Reply_parent db c = Some r).
  { unfold Reply_parent. rewrite Hparent. by apply (head_filter_key Reply.id). }
  rewrite Hp in Hanc.
  destruct fuel as [|fuel]; [done|]. simpl in Hanc.
  destruct (ancestors_loop fuel db (Reply_parent db r)) as [rest|] eqn:Hrest; [|done].
  simpl in Hanc. injection Hanc as <-. exists rest. split; [done|].
  assert (Hafter : ancestors_loop (S fuel)
                     (set_replies (mark_row utcnow now (Reply.id r) <$> replies db) db)
                     (Reply_parent
                        (set_replies (mark_row utcnow now (Reply.id r) <$> replies db) db) c)
                   = Done (mark_deleted utcnow now r
                           :: (mark_row utcnow now (Reply.id r) <$> rest))).
  { rewrite Reply_parent_marked, Hp, ancestors_loop_marked. simpl. rewrite Hrest. simpl.
    unfold mark_row at 1. by rewrite bool_decide_eq_true_2. }
  split; [exact Hafter|]. intros Hclive.
  unfold get_reply_ancestors, Reply_ancestors.
  rewrite get_reply_by_id_marked_other by done.
  rewrite !(get_reply_by_id_live db c) by done.
  rewrite Hafter, Hp. simpl. by rewrite Hrest.
Qed.

(** C6 (as the code has it). [delete_reply] on a reply that is found
    overwrites that one row in place: [deleted_at] becomes the deletion
    time and, through the column's [onupdate], [updated_at] becomes the
    time of the UPDATE; key, content, post, author, parent pointer and
    creation time are kept.  No row is removed: every child of the
    reply is still stored, unchanged, and is still among its children.
    Afterwards no listing of [get_post_replies] holds the reply, and the
    ancestors of each of its children still start with it (for a live
    child, also as [get_reply_ancestors] reports them).  In a table
    where every parent pointer names a smaller key the walk up from a
    child returns within as many steps as the table has rows, before
    and after the delete, and the handler of the ancestors of a live
    child answers 200 with the deleted reply first. *)
Theorem delete_reply_frame db utcnow now reply_id r :
  NoDup (Reply.id <$> replies db) →
  get_reply_by_id db reply_id = Some r →
  ∃ i db',
    replies db !! i = Some r ∧
    db' = set_replies (<[i := mark_deleted utcnow now r]> (replies db)) db ∧
    delete_reply db utcnow now reply_id = (db', true) ∧
    route_delete_reply db utcnow now reply_id = (db', HttpOk "Reply deleted successfully") ∧
    Reply.deleted_at (mark_deleted utcnow now r) = Some utcnow ∧
    Reply.updated_at (mark_deleted utcnow now r) = now ∧
    Reply.id (mark_deleted utcnow now r) = Reply.id r ∧
    Reply.content (mark_deleted utcnow now r) = Reply.content r ∧
    Reply.post_id (mark_deleted utcnow now r) = Reply.post_id r ∧
    Reply.author_id (mark_deleted utcnow now r) = Reply.author_id r ∧
    Reply.parent_id (mark_deleted utcnow now r) = Reply.parent_id r ∧
    Reply.created_at (mark_deleted utcnow now r) = Reply.created_at r ∧
    length (replies db') = length (replies db) ∧
    (∀ c, c ∈ replies db → Reply.id c ≠ reply_id → c ∈ replies db') ∧
    (∀ c, c ∈ replies db → Reply.parent_id c = Some reply_id → Reply.id c ≠ reply_id →
          c ∈ Reply_children db' (mark_deleted utcnow now r)) ∧
    (∀ post_id skip limit x,
       x ∈ get_post_replies db' post_id skip limit → Reply.id x ≠ reply_id) ∧
    (∀ fuel c l,
       c ∈ replies db → Reply.parent_id c = Some reply_id → Reply.id c ≠ reply_id →
       Reply_ancestors fuel db c = Done l →
       ∃ rest, l = r :: rest ∧
               Reply_ancestors fuel db' c =
               Done (mark_deleted utcnow now r :: (mark_row utcnow now reply_id <$> rest)) ∧
               (Reply.deleted_at c = None →
                get_reply_ancestors fuel db (Reply.id c) = Done (Some l) ∧
                get_reply_ancestors fuel db' (Reply.id c) =
                Done (Some (mark_deleted utcnow now r
                            :: (mark_row utcnow now reply_id <$> rest))))) ∧
    (parents_older (replies db) →
     ∀ fuel c,
       (length (replies db) ≤ fuel)%nat →
       c ∈ replies db → Reply.parent_id c = Some reply_id →
       ∃ rest,
         Reply_ancestors fuel db c = Done (r :: rest) ∧
         Reply_ancestors fuel db' c =
         Done (mark_deleted utcnow now r :: (mark_row utcnow now reply_id <$> rest)) ∧
         mark_deleted utcnow now r ∈ replies db' ∧
         (Reply.deleted_at c = None →
          route_get_reply_ancestors fuel db' (Reply.id c) =
          Done (HttpOk (mark_deleted utcnow now r
                        :: (mark_row utcnow now reply_id <$> rest))))).
Proof.
  intros Hnd Hfound.
  pose proof (get_reply_by_id_Some _ _ _ Hfound) as (Hr & Hid & Hlive).
  apply list_elem_of_lookup in Hr as [i Hi].
  assert (Hmark : mark_row utcnow now reply_id <$> replies db
                  = <[i := mark_deleted utcnow now r]> (replies db)).
  { unfold mark_row.
    apply (fmap_key_update Reply.id (mark_deleted utcnow now) reply_id (replies db) i r);
      done. }
  assert (Hdel : delete_reply db utcnow now reply_id
                 = (set_replies (<[i := mark_deleted utcnow now r]> (replies db)) db, true)).
  { rewrite (delete_reply_marks db utcnow now reply_id r Hfound). by rewrite Hmark. }
  assert (Hkept : ∀ c, c ∈ replies db → Reply.id c ≠ reply_id →
                       c ∈ <[i := mark_deleted utcnow now r]> (replies db)).
  { intros c Hc Hne. apply list_elem_of_lookup in Hc as [j Hj].
    apply list_elem_of_lookup. exists j.
    rewrite list_lookup_insert_ne; [done|]. intros <-. congruence. }
  assert (Hwalk : ∀ fuel c l,
    c ∈ replies db → Reply.parent_id c = Some reply_id → Reply.id c ≠ reply_id →
    Reply_ancestors fuel db c = Done l →
    ∃ rest, l = r :: rest ∧
            Reply_ancestors fuel
              (set_replies (<[i := mark_deleted utcnow now r]> (replies db)) db) c =
            Done (mark_deleted utcnow now r :: (mark_row utcnow now reply_id <$> rest)) ∧
            (Reply.deleted_at c = None →
             get_reply_ancestors fuel db (Reply.id c) = Done (Some l) ∧
             get_reply_ancestors fuel
               (set_replies (<[i := mark_deleted utcnow now r]> (replies db)) db)
               (Reply.id c) =
             Done (Some (mark_deleted utcnow now r
                         :: (mark_row utcnow now reply_id <$> rest))))).
  { intros fuel c l Hc Hparent Hne Hanc. rewrite <- Hmark. subst reply_id.
    by apply ancestors_after_delete. }
  exists i, (set_replies (<[i := mark_deleted utcnow now r]> (replies db)) db).
  split_and!; try done.
  - unfold route_delete_reply. by rewrite Hdel.
  - simpl. apply length_insert.
  - intros c Hc Hparent Hne. unfold Reply_children.
    apply elem_of_order_by_created_at, list_elem_of_filter.
    split; [by rewrite Hparent; simpl; rewrite Hid|]. simpl. by apply Hkept.
  - intros post_id skip limit x. rewrite <- Hmark. apply listed_after_marking.
  - intros [_ Holder] fuel c Hfuel Hc Hparent.
    assert (Hne : Reply.id c ≠ reply_id).
    { rewrite Forall_forall in Holder. pose proof (Holder c Hc _ Hparent). lia. }
    destruct (Reply_ancestors_terminates db Holder fuel c Hc Hfuel) as [l Hl].
    destruct (Hwalk fuel c l Hc Hparent Hne Hl) as (rest & -> & Hafter & Hcrud).
    exists rest. split_and!; [done..| |].
    + simpl. apply list_elem_of_lookup. exists i.
      apply list_lookup_insert_eq. by eapply lookup_lt_Some.
    + intros Hclive. unfold route_get_reply_ancestors.
      by rewrite (proj2 (Hcrud Hclive)).
Qed.

Lemma delete_reply_frame_witness :
  NoDup (Reply.id <$> replies ex_db) ∧
  get_reply_by_id ex_db 1 = Some ex_A ∧
  parents_older (replies ex_db) ∧
  route_get_reply_ancestors 2 (delete_reply ex_db 60 61 1).1 2
  = Done (HttpOk [mark_deleted 60 61 ex_A]).
Proof.
  assert (Hnd : NoDup (Reply.id <$> replies ex_db)) by compute_done.
  assert (Hforest : parents_older (replies ex_db)).
  { split; [done|]. repeat constructor; simpl; intros p [= <-]; lia. }
  split_and!; [done..|].
  destruct (delete_reply_frame ex_db 60 61 1 ex_A Hnd eq_refl)
    as (i & db' & _ & _ & Hdel & _ & _ & _ & _ & _ & _ & _ & _ & _ & _ & _ & _ & _ & _ & Hanc).
  assert (HB : ex_B ∈ replies ex_db) by (right; left).
  destruct (Hanc Hforest 2%nat ex_B (le_n 2) HB eq_refl) as (rest & Hbefore & _ & _ & Hroute).
  assert (rest = []) as -> by (vm_compute in Hbefore; by injection Hbefore as <-).
  rewrite Hdel. exact (Hroute eq_refl).
Defined.

(** C6 (as claimed) fails: the soft delete of reply A of [ex_db] does
    not leave every column but [deleted_at] alone; [updated_at] moves
    from 20 to the time of the UPDATE. *)
Lemma delete_reply_updates_updated_at :
  get_reply_by_id ex_db 1 = Some ex_A ∧
  delete_reply ex_db 60 61 1 = (set_replies [mark_deleted 60 61 ex_A; ex_B] ex_db, true) ∧
  Reply.updated_at ex_A = 20 ∧
  Reply.updated_at (mark_deleted 60 61 ex_A) = 61 ∧
  mark_deleted 60 61 ex_A ≠ Reply.mk 1 "A" 1 1 None 20 20 (Some 60).
Proof. split_and!; by vm_compute. Qed.
